(** * bcache extents: keys, sort fixups, bad-key checks and extent merging

    A shallow embedding of [drivers/md/bcache/extents.c].  Keys live in a
    store indexed by slot address; an iterator is a heap of cursors into
    that store.  Helpers that the C file takes from headers and from
    [bset.c] are modelled next to the functions that use them. *)

From Stdlib Require Import ZArith Lia Bool.
From stdpp Require Import base tactics option numbers list.

Local Open Scope Z_scope.

(** ** Fixed-width integers *)

Definition u64 (z : Z) : Z := z mod 2 ^ 64.
Definition u32 (z : Z) : Z := z mod 2 ^ 32.
Definition u16 (z : Z) : Z := z mod 2 ^ 16.
Definition u8 (z : Z) : Z := z mod 2 ^ 8.

(** A 64-bit pattern read as a two's complement [int64_t]. *)
Definition s64 (z : Z) : Z :=
  if u64 z <? 2 ^ 63 then u64 z else u64 z - 2 ^ 64.

Definition USHRT_MAX : Z := 65535.

(** ** Outcomes of code that can hit [BUG_ON] or loop *)

Inductive result (A : Type) : Type :=
| Ok (a : A)
| Bug
| OutOfFuel.
Arguments Ok {A} a.
Arguments Bug {A}.
Arguments OutOfFuel {A}.

Global Instance result_ret : MRet result := @Ok.
Global Instance result_bind : MBind result := fun A B f r =>
  match r with
  | Ok a => f a
  | Bug => Bug
  | OutOfFuel => OutOfFuel
  end.

(** [BUG_ON(cond)] *)
Definition BUG_ON (cond : bool) : result unit :=
  if cond then Bug else Ok tt.

(** ** Keys *)

(** Modelled from the spec: [struct bkey] and its field accessors are
    declared in a header that is not part of this file.  A key has a
    64-bit end offset, a 16-bit size, a pointer count, the deleted and
    cached flags, the checksum field, and an array of 64-bit words holding
    the pointers followed by the checksum slot [ptr[KEY_PTRS]]. *)
Record bkey : Type := mk_bkey {
  KEY_OFFSET : Z;
  KEY_SIZE : Z;
  KEY_PTRS : nat;
  KEY_DELETED : bool;
  KEY_CACHED : bool;
  KEY_CSUM : Z;
  ptr : list Z
}.

Global Instance bkey_inhabited : Inhabited bkey :=
  populate (mk_bkey 0 0 0 false false 0 []).

Definition SET_KEY_OFFSET (k : bkey) (v : Z) : bkey :=
  mk_bkey (u64 v) (KEY_SIZE k) (KEY_PTRS k) (KEY_DELETED k) (KEY_CACHED k)
          (KEY_CSUM k) (ptr k).

Definition SET_KEY_SIZE (k : bkey) (v : Z) : bkey :=
  mk_bkey (KEY_OFFSET k) (u16 v) (KEY_PTRS k) (KEY_DELETED k) (KEY_CACHED k)
          (KEY_CSUM k) (ptr k).

Definition SET_KEY_CSUM (k : bkey) (v : Z) : bkey :=
  mk_bkey (KEY_OFFSET k) (KEY_SIZE k) (KEY_PTRS k) (KEY_DELETED k)
          (KEY_CACHED k) (Z.land v 3) (ptr k).

Definition set_ptr (k : bkey) (i : nat) (v : Z) : bkey :=
  mk_bkey (KEY_OFFSET k) (KEY_SIZE k) (KEY_PTRS k) (KEY_DELETED k)
          (KEY_CACHED k) (KEY_CSUM k) (<[i := u64 v]> (ptr k)).

(** [k->ptr[i]]; a word outside the modelled array reads as 0. *)
Definition ptr_at (k : bkey) (i : nat) : Z := nth i (ptr k) 0.

(** [KEY(offset, size)]: a bare key without pointers. *)
Definition KEY (offset size : Z) : bkey :=
  mk_bkey (u64 offset) (u16 size) 0 false false 0 [].

Definition ZERO_KEY : bkey := KEY 0 0.

(** Logical start, [KEY_OFFSET(k) - KEY_SIZE(k)] in 64-bit arithmetic. *)
Definition KEY_START (k : bkey) : Z := u64 (KEY_OFFSET k - KEY_SIZE k).

Definition START_KEY (k : bkey) : bkey := KEY (KEY_START k) 0.

(** Modelled from the spec: [bkey_cmp] comes from [bset.h].  Keys are
    ordered by their offset; the callers keep the result in an [int64_t],
    so the difference is taken in 64-bit two's complement. *)
Definition bkey_cmp (l r : bkey) : Z := s64 (KEY_OFFSET l - KEY_OFFSET r).

(** [bkey_copy_key(dest, src)]: only the position is copied. *)
Definition bkey_copy_key (dest src : bkey) : bkey :=
  SET_KEY_OFFSET dest (KEY_OFFSET src).

(** ** Packed pointers *)

(** Modelled from the spec: a pointer packs a device id, an 8-bit
    generation and a sector offset into one 64-bit word.  The generation
    sits in the low 8 bits, the offset in the next 43, the device in the 12
    above, as [PTR(gen, offset, dev)] builds it. *)
Definition PTR (gen offset dev : Z) : Z :=
  Z.lor (Z.lor (Z.shiftl dev 51) (Z.shiftl offset 8)) gen.

Definition PTR_GEN (k : bkey) (i : nat) : Z :=
  Z.land (ptr_at k i) (Z.ones 8).
Definition PTR_OFFSET (k : bkey) (i : nat) : Z :=
  Z.land (Z.shiftr (ptr_at k i) 8) (Z.ones 43).
Definition PTR_DEV (k : bkey) (i : nat) : Z :=
  Z.land (Z.shiftr (ptr_at k i) 51) (Z.ones 12).

Definition SET_PTR_OFFSET (k : bkey) (i : nat) (v : Z) : bkey :=
  let cleared := Z.land (ptr_at k i)
                   (Z.lxor (Z.ones 64) (Z.shiftl (Z.ones 43) 8)) in
  set_ptr k i (Z.lor cleared (Z.shiftl (Z.land v (Z.ones 43)) 8)).

(** ** Trimming keys ([bset.c]) *)

(** Modelled from the spec: [__bch_cut_front(where, k)] makes [k] start at
    [where]: the size shrinks to what lies behind [where] and every pointer
    moves forward by the amount cut away. *)
Definition __bch_cut_front (where_ k : bkey) : result (bool * bkey) :=
  if bkey_cmp where_ (START_KEY k) <=? 0 then Ok (false, k)
  else
    let len := if bkey_cmp where_ k <? 0
               then u32 (KEY_OFFSET k - KEY_OFFSET where_) else 0 in
    let k1 := if bkey_cmp where_ k <? 0 then k else bkey_copy_key k where_ in
    let k2 := foldl (fun acc i =>
                SET_PTR_OFFSET acc i (PTR_OFFSET acc i + KEY_SIZE acc - len))
                k1 (seq 0 (KEY_PTRS k1)) in
    BUG_ON (KEY_SIZE k2 <? len) ;;
    Ok (true, SET_KEY_SIZE k2 len).

(** Modelled from the spec: [__bch_cut_back(where, k)] makes [k] end at
    [where]: the start stays, the size shrinks. *)
Definition __bch_cut_back (where_ k : bkey) : result (bool * bkey) :=
  if bkey_cmp where_ k >=? 0 then Ok (false, k)
  else
    let len := if bkey_cmp where_ (START_KEY k) >? 0
               then u32 (KEY_OFFSET where_ - KEY_START k) else 0 in
    let k1 := bkey_copy_key k where_ in
    BUG_ON (KEY_SIZE k1 <? len) ;;
    Ok (true, SET_KEY_SIZE k1 len).

Definition bch_cut_front (where_ k : bkey) : result (bool * bkey) :=
  BUG_ON (bkey_cmp where_ k >? 0) ;;
  __bch_cut_front where_ k.

Definition bch_cut_back (where_ k : bkey) : result (bool * bkey) :=
  BUG_ON (bkey_cmp where_ (START_KEY k) <? 0) ;;
  __bch_cut_back where_ k.

(** ** The cache set seen from this file *)

(** Modelled from the spec: bucket metadata is owned by the allocator and
    the garbage collector; this file only reads the generation and the
    mark. *)
Inductive gc_mark : Type :=
| GC_MARK_FREE
| GC_MARK_METADATA
| GC_MARK_DIRTY
| GC_MARK_CACHED.

Global Instance gc_mark_eq_dec : EqDecision gc_mark.
Proof. solve_decision. Defined.

Record bucket : Type := mk_bucket {
  gen : Z;
  GC_MARK : gc_mark;
  pin : Z
}.

Global Instance bucket_inhabited : Inhabited bucket :=
  populate (mk_bucket 0 GC_MARK_FREE 0).

Record cache : Type := mk_cache {
  first_bucket : Z;
  nbuckets : Z;
  buckets : list bucket
}.

Global Instance cache_inhabited : Inhabited cache :=
  populate (mk_cache 0 0 []).

(** [bucket_lock_free] is the outcome of [mutex_trylock(&c->bucket_lock)]:
    whether some other thread holds the lock is outside this file. *)
Record cache_set : Type := mk_cache_set {
  bucket_size : Z;
  bucket_bits : Z;
  cache_of : list (option cache);
  gc_mark_valid : bool;
  expensive_debug_checks : bool;
  key_merging_disabled : bool;
  bucket_lock_free : bool
}.

Definition MAX_CACHES_PER_SET : Z := 8.

Definition PTR_CACHE (c : cache_set) (k : bkey) (i : nat) : option cache :=
  default None (cache_of c !! Z.to_nat (PTR_DEV k i)).

(** [sector_to_bucket] and [bucket_remainder]: buckets are a power of two
    sectors long. *)
Definition PTR_BUCKET_NR (c : cache_set) (k : bkey) (i : nat) : Z :=
  Z.shiftr (PTR_OFFSET k i) (bucket_bits c).

Definition bucket_remainder (c : cache_set) (s : Z) : Z :=
  Z.land s (bucket_size c - 1).

Definition PTR_BUCKET (c : cache_set) (k : bkey) (i : nat) : bucket :=
  buckets (default inhabitant (PTR_CACHE c k i))
    !!! Z.to_nat (PTR_BUCKET_NR c k i).

Definition ptr_available (c : cache_set) (k : bkey) (i : nat) : bool :=
  (PTR_DEV k i <? MAX_CACHES_PER_SET) && bool_decide (is_Some (PTR_CACHE c k i)).

(** Modelled from the spec: the staleness of a pointer is the distance
    [(bucket.generation - pointer.generation) mod 256]. *)
Definition ptr_stale (c : cache_set) (k : bkey) (i : nat) : Z :=
  u8 (gen (PTR_BUCKET c k i) - PTR_GEN k i).

(** What goes to the diagnostic channel ([cache_bug], [btree_bug],
    [btree_bug_on]). *)
Inductive report : Type :=
| spotted_extent (k : bkey)
| key_too_stale (stale : Z)
| stale_dirty_pointer
| inconsistent_extent_pointer (k : bkey) (i : nat).

(** ** Structural checks *)

Definition __ptr_invalid (c : cache_set) (k : bkey) : bool :=
  existsb (fun i =>
    ptr_available c k i &&
    let ca := default inhabitant (PTR_CACHE c k i) in
    let bucket := PTR_BUCKET_NR c k i in
    let r := bucket_remainder c (PTR_OFFSET k i) in
    ((KEY_SIZE k + r >? bucket_size c)
     || (bucket <? first_bucket ca)
     || (bucket >=? nbuckets ca)))
    (seq 0 (KEY_PTRS k)).

Definition bch_extent_invalid (c : cache_set) (k : bkey) : bool * list report :=
  if KEY_SIZE k =? 0 then (true, [])
  else if KEY_SIZE k >? KEY_OFFSET k then (true, [spotted_extent k])
  else if __ptr_invalid c k then (true, [spotted_extent k])
  else (false, []).

(** ** Bad extents *)

Definition bch_extent_bad_expensive (c : cache_set) (k : bkey) (i : nat)
  : bool * list report :=
  let g := PTR_BUCKET c k i in
  if bucket_lock_free c then
    if gc_mark_valid c &&
       ((negb (bool_decide (GC_MARK g = GC_MARK_DIRTY)) && negb (KEY_CACHED k))
        || bool_decide (GC_MARK g = GC_MARK_METADATA))
    then (true, [inconsistent_extent_pointer k i])
    else (false, [])
  else (false, []).

(** The second loop of [bch_extent_bad], over the pointers still to be
    looked at. *)
Fixpoint bch_extent_bad_ptrs (c : cache_set) (k : bkey) (idxs : list nat)
  : bool * list report :=
  match idxs with
  | [] => (false, [])
  | i :: rest =>
    let stale := ptr_stale c k i in
    let r1 := if stale >? 96 then [key_too_stale stale] else [] in
    let r2 := if negb (stale =? 0) && negb (KEY_CACHED k)
                 && negb (KEY_SIZE k =? 0)
              then [stale_dirty_pointer] else [] in
    if negb (stale =? 0) then (true, r1 ++ r2)
    else
      let '(b, r3) := if expensive_debug_checks c
                      then bch_extent_bad_expensive c k i
                      else (false, []) in
      if b then (true, r1 ++ r2 ++ r3)
      else
        let '(b', r4) := bch_extent_bad_ptrs c k rest in
        (b', r1 ++ r2 ++ r3 ++ r4)
  end.

Definition bch_extent_bad (c : cache_set) (k : bkey) : bool * list report :=
  if KEY_DELETED k || (KEY_PTRS k =? 0)%nat then (true, [])
  else
    let '(inv, r0) := bch_extent_invalid c k in
    if inv then (true, r0)
    else if existsb (fun i => negb (ptr_available c k i)) (seq 0 (KEY_PTRS k))
    then (true, r0)
    else if negb (expensive_debug_checks c) && negb (KEY_CACHED k)
    then (false, r0)
    else
      let '(b, r) := bch_extent_bad_ptrs c k (seq 0 (KEY_PTRS k)) in
      (b, r0 ++ r).

(** ** Merging adjacent extents *)

Definition merge_chksums (l r : bkey) : Z :=
  Z.land (u64 (ptr_at l (KEY_PTRS l) + ptr_at r (KEY_PTRS r)))
         (Z.lxor (Z.ones 64) (Z.shiftl 1 63)).

(** The outcome carries the truth value and both keys as the call leaves
    them. *)
Definition bch_extent_merge (c : cache_set) (l r : bkey)
  : result (bool * bkey * bkey) :=
  if key_merging_disabled c then Ok (false, l, r)
  else if negb (KEY_PTRS l =? KEY_PTRS r)%nat
          || negb (eqb (KEY_DELETED l) (KEY_DELETED r))
          || negb (eqb (KEY_CACHED l) (KEY_CACHED r))
          || negb (bkey_cmp l (START_KEY r) =? 0)
  then Ok (false, l, r)
  else if existsb (fun i =>
            negb (u64 (ptr_at l i + PTR 0 (KEY_SIZE l) 0) =? ptr_at r i)
            || negb (PTR_BUCKET_NR c l i =? PTR_BUCKET_NR c r i))
            (seq 0 (KEY_PTRS l))
  then Ok (false, l, r)
  else if KEY_SIZE l + KEY_SIZE r >? USHRT_MAX then
    let l1 := SET_KEY_OFFSET l (KEY_OFFSET l + USHRT_MAX - KEY_SIZE l) in
    let l2 := SET_KEY_SIZE l1 USHRT_MAX in
    '(_, r') ← bch_cut_front l2 r;
    Ok (false, l2, r')
  else
    let l1 := if negb (KEY_CSUM l =? 0)
              then if negb (KEY_CSUM r =? 0)
                   then set_ptr l (KEY_PTRS l) (merge_chksums l r)
                   else SET_KEY_CSUM l 0
              else l in
    let l2 := SET_KEY_OFFSET l1 (KEY_OFFSET l1 + KEY_SIZE r) in
    let l3 := SET_KEY_SIZE l2 (KEY_SIZE l2 + KEY_SIZE r) in
    Ok (true, l3, r).

(** ** Iterators over the sets of a node *)

(** A cursor [k .. end) into the key store.  Keys are addressed by slot:
    [bkey_next] is the next slot, and a key written later sits at a higher
    address, so comparing addresses compares age. *)
Record btree_iter_set : Type := mk_iter_set {
  iter_k : nat;
  iter_end : nat
}.

Global Instance btree_iter_set_inhabited : Inhabited btree_iter_set :=
  populate (mk_iter_set 0 0).

Global Instance btree_iter_set_eq_dec : EqDecision btree_iter_set.
Proof. solve_decision. Defined.

(** [store] is the memory of the node the cursors point into; [data] holds
    the [used] live entries of [iter->data]. *)
Record btree_iter : Type := mk_iter {
  store : list bkey;
  data : list btree_iter_set
}.

Definition used (iter : btree_iter) : nat := length (data iter).

Definition bkey_next (k : nat) : nat := S k.

(** The key a cursor points at. *)
Definition key_at (m : list bkey) (s : btree_iter_set) : bkey :=
  m !!! iter_k s.

Definition bch_key_sort_cmp (m : list bkey) (l r : btree_iter_set) : bool :=
  let c := bkey_cmp (key_at m l) (key_at m r) in
  if negb (c =? 0) then c >? 0 else (iter_k l <? iter_k r)%nat.

Definition bch_extent_sort_cmp (m : list bkey) (l r : btree_iter_set) : bool :=
  let c := bkey_cmp (START_KEY (key_at m l)) (START_KEY (key_at m r)) in
  if negb (c =? 0) then c >? 0 else (iter_k l <? iter_k r)%nat.

(** *** The heap ([util.h]) *)

Definition heap_swap (d : list btree_iter_set) (i j : nat)
  : list btree_iter_set :=
  <[i := d !!! j]> (<[j := d !!! i]> d).

(** Modelled from the spec: [heap_sift(h, i, cmp)] re-sifts the entry at
    [i] down the heap.  [cmp l r] says that [l] sorts after [r]; each round
    moves to a child, so [length d] rounds are enough. *)
Fixpoint heap_sift_loop (fuel : nat)
    (cmp : btree_iter_set -> btree_iter_set -> bool)
    (d : list btree_iter_set) (j : nat) : list btree_iter_set :=
  match fuel with
  | O => d
  | S fuel' =>
    if (j * 2 + 1 <? length d)%nat then
      let r := (j * 2 + 1)%nat in
      let r := if (r + 1 <? length d)%nat && cmp (d !!! r) (d !!! (r + 1)%nat)
               then (r + 1)%nat else r in
      if cmp (d !!! r) (d !!! j) then d
      else heap_sift_loop fuel' cmp (heap_swap d r j) r
    else d
  end.

Definition heap_sift (cmp : btree_iter_set -> btree_iter_set -> bool)
    (d : list btree_iter_set) (i : nat) : list btree_iter_set :=
  heap_sift_loop (length d) cmp d i.

(** [heap_pop]: the last entry replaces the root and is sifted down. *)
Definition heap_pop (cmp : btree_iter_set -> btree_iter_set -> bool)
    (d : list btree_iter_set) : list btree_iter_set :=
  heap_sift cmp (take (length d - 1) (heap_swap d 0 (length d - 1))) 0.

(** [sort_key_next(iter, i)]: advance cursor [i]; an exhausted cursor is
    overwritten by the last one, [*i = iter->data[--iter->used]]. *)
Definition sort_key_next (d : list btree_iter_set) (i : nat)
  : list btree_iter_set :=
  let s := d !!! i in
  let s' := mk_iter_set (bkey_next (iter_k s)) (iter_end s) in
  if (iter_k s' =? iter_end s')%nat
  then take (length d - 1) (<[i := d !!! (length d - 1)%nat]> d)
  else <[i := s']> d.

(** The entry the fixups compare with the top: the smaller child of the
    root. *)
Definition fixup_second (cmp : btree_iter_set -> btree_iter_set -> bool)
    (d : list btree_iter_set) : nat :=
  if (2 <? length d)%nat && cmp (d !!! 1%nat) (d !!! 2%nat) then 2%nat
  else 1%nat.

Inductive loop_ctl : Type :=
| Break
| Continue (iter : btree_iter).

(** *** Pointer keys *)



(** *** Extents *)

(** One round of the [while] loop of [bch_extent_sort_fixup]. *)
Definition bch_extent_sort_fixup_body (iter : btree_iter) : result loop_ctl :=
  let m := store iter in
  let d := data iter in
  let top := d !!! 0%nat in
  let i := fixup_second (bch_extent_sort_cmp m) d in
  let si := d !!! i in
  if bkey_cmp (key_at m top) (START_KEY (key_at m si)) <=? 0 then Ok Break
  else if KEY_SIZE (key_at m si) =? 0 then
    Ok (Continue (mk_iter m
          (heap_sift (bch_extent_sort_cmp m) (sort_key_next d i) i)))
  else if (iter_k si <? iter_k top)%nat then
    if bkey_cmp (key_at m top) (key_at m si) >=? 0 then
      Ok (Continue (mk_iter m
            (heap_sift (bch_extent_sort_cmp m) (sort_key_next d i) i)))
    else
      '(_, ki) ← bch_cut_front (key_at m top) (key_at m si);
      let m' := <[iter_k si := ki]> m in
      Ok (Continue (mk_iter m' (heap_sift (bch_extent_sort_cmp m') d i)))
  else
    BUG_ON (bkey_cmp (START_KEY (key_at m top)) (START_KEY (key_at m si)) =? 0) ;;
    '(_, ktop) ← bch_cut_back (START_KEY (key_at m si)) (key_at m top);
    Ok (Continue (mk_iter (<[iter_k top := ktop]> m) d)).

Fixpoint bch_extent_sort_fixup (fuel : nat) (iter : btree_iter)
  : result btree_iter :=
  match fuel with
  | O => OutOfFuel
  | S fuel' =>
    if (1 <? used iter)%nat then
      r ← bch_extent_sort_fixup_body iter;
      match r with
      | Break => Ok iter
      | Continue iter' => bch_extent_sort_fixup fuel' iter'
      end
    else Ok iter
  end.

(** *** Driving a merge ([bset.c]) *)

(** Modelled from the spec: one cursor per non-empty run, the runs laid
    out in the store oldest first. *)
Fixpoint iter_sets (base : nat) (runs : list (list bkey))
  : list btree_iter_set :=
  match runs with
  | [] => []
  | r :: rest =>
    let e := (base + length r)%nat in
    if (length r =? 0)%nat then iter_sets e rest
    else mk_iter_set base e :: iter_sets e rest
  end.

(** Modelled from the spec: the cursors are kept "in a min-heap ordered by
    the active comparator"; the heap is built by sifting every inner entry,
    last to first. *)
Definition heapify (cmp : btree_iter_set -> btree_iter_set -> bool)
    (d : list btree_iter_set) : list btree_iter_set :=
  foldl (heap_sift cmp) d (rev (seq 0 (length d / 2))).

Definition bch_btree_iter_init
    (cmp : list bkey -> btree_iter_set -> btree_iter_set -> bool)
    (runs : list (list bkey)) : btree_iter :=
  let m := concat runs in
  mk_iter m (heapify (cmp m) (iter_sets 0 runs)).

(** Modelled from the spec: taking the next key pops the top cursor's key;
    the cursor advances and is re-sifted, or leaves the heap when its run
    is used up. *)
Definition bch_btree_iter_next
    (cmp : list bkey -> btree_iter_set -> btree_iter_set -> bool)
    (iter : btree_iter) : nat * btree_iter :=
  let m := store iter in
  let d := data iter in
  let top := d !!! 0%nat in
  let top' := mk_iter_set (bkey_next (iter_k top)) (iter_end top) in
  let d' := if (iter_k top' =? iter_end top')%nat
            then heap_pop (cmp m) d
            else heap_sift (cmp m) (<[0%nat := top']> d) 0 in
  (iter_k top, mk_iter m d').

(** Modelled from the spec: "before each emission, a fixup loop runs",
    then the top key is emitted.  The output lists each emitted key with the
    address it came from, in emission order. *)
Fixpoint btree_mergesort_loop (fuel : nat)
    (cmp : list bkey -> btree_iter_set -> btree_iter_set -> bool)
    (fixup : nat -> btree_iter -> result btree_iter)
    (iter : btree_iter) (out : list (nat * bkey))
  : result (list (nat * bkey)) :=
  match fuel with
  | O => OutOfFuel
  | S fuel' =>
    if (used iter =? 0)%nat then Ok out
    else
      iter1 ← fixup fuel iter;
      let '(k, iter2) := bch_btree_iter_next cmp iter1 in
      btree_mergesort_loop fuel' cmp fixup iter2
        (out ++ [(k, store iter1 !!! k)])
  end.

Definition btree_mergesort (fuel : nat)
    (cmp : list bkey -> btree_iter_set -> btree_iter_set -> bool)
    (fixup : nat -> btree_iter -> result btree_iter)
    (runs : list (list bkey)) : result (list (nat * bkey)) :=
  btree_mergesort_loop fuel cmp fixup (bch_btree_iter_init cmp runs) [].

Definition extent_mergesort (fuel : nat) (runs : list (list bkey))
  : result (list (nat * bkey)) :=
  btree_mergesort fuel bch_extent_sort_cmp bch_extent_sort_fixup runs.


(** * Specification vocabulary *)

(** ** Predicates used by the statements *)

(** The fields hold values of their C types. *)
Definition field_ok (k : bkey) : Prop :=
  0 <= KEY_OFFSET k < 2 ^ 64 /\ 0 <= KEY_SIZE k <= USHRT_MAX.

(** Some check of [bch_extent_merge] ahead of the size test fails. *)
Definition merge_precondition_fails (c : cache_set) (l r : bkey) : Prop :=
  key_merging_disabled c = true
  \/ KEY_PTRS l <> KEY_PTRS r
  \/ KEY_DELETED l <> KEY_DELETED r
  \/ KEY_CACHED l <> KEY_CACHED r
  \/ bkey_cmp l (START_KEY r) <> 0
  \/ exists i, (i < KEY_PTRS l)%nat /\
       (u64 (ptr_at l i + PTR 0 (KEY_SIZE l) 0) <> ptr_at r i
        \/ PTR_BUCKET_NR c l i <> PTR_BUCKET_NR c r i).

(** Sample data for the worked examples: a cache set with one device of
    sixteen buckets of 1024 sectors, and bare extents given by their end
    and size. *)
Definition sample_bucket (g : Z) : bucket := mk_bucket g GC_MARK_DIRTY 0.

Definition sample_cache_set (g : Z) (expensive : bool) : cache_set :=
  mk_cache_set 1024 10
    [Some (mk_cache 1 16 (replicate 16 (sample_bucket g)))]
    true expensive false true.

Definition extent (offset size : Z) : bkey :=
  mk_bkey offset size 0 false false 0 [].

(** The checks of [bch_extent_bad] ahead of the staleness loop let the key
    through: it is not deleted, has pointers, is structurally valid and
    every pointer is available. *)
Definition passes_cheap_checks (c : cache_set) (k : bkey) : Prop :=
  KEY_DELETED k = false
  /\ KEY_PTRS k <> 0%nat
  /\ (bch_extent_invalid c k).1 = false
  /\ forall i, (i < KEY_PTRS k)%nat -> ptr_available c k i = true.

(** A key with one pointer into bucket 2 of device 0, pointer generation
    [g]. *)
Definition sample_key (cached : bool) (g : Z) : bkey :=
  mk_bkey 2048 8 1 false cached 0 [PTR g 2048 0].

(** ** Heap order *)

(** [c] is a child of [p] in the array layout of the heap. *)
Definition heap_child (p c : nat) : Prop :=
  (c = 2 * p + 1 \/ c = 2 * p + 2)%nat.

(** Every entry from [lo] on sorts no later than its children; [cmp l r]
    says that [l] sorts after [r]. *)
Definition heap_from (cmp : btree_iter_set -> btree_iter_set -> bool)
    (lo : nat) (d : list btree_iter_set) : Prop :=
  forall p c, (lo <= p)%nat -> (c < length d)%nat -> heap_child p c ->
    cmp (d !!! p) (d !!! c) = false.

Definition is_heap (cmp : btree_iter_set -> btree_iter_set -> bool)
    (d : list btree_iter_set) : Prop :=
  heap_from cmp 0 d.

(** The comparison both sort orders compute on keys whose offsets stay
    below 2^63: by [ord] ascending, ties broken by address, the higher
    address first. *)
Definition cmp_by (ord : bkey -> Z) (m : list bkey)
    (l r : btree_iter_set) : bool :=
  let c := ord (key_at m l) - ord (key_at m r) in
  if negb (c =? 0) then c >? 0 else (iter_k l <? iter_k r)%nat.

(** ** Well-formed keys and runs *)

(** A key with a size that fits its offset and an offset a signed
    comparison orders correctly. *)
Definition key_ok (k : bkey) : Prop :=
  0 <= KEY_SIZE k <= USHRT_MAX /\ KEY_SIZE k <= KEY_OFFSET k
  /\ KEY_OFFSET k < 2 ^ 63.

(** Keys in order: each has [ord] at least [lo] and at least the [nxt] of
    the key in front of it. *)
Fixpoint chain (ord nxt : bkey -> Z) (lo : Z) (ks : list bkey) : Prop :=
  match ks with
  | [] => True
  | k :: ks' => key_ok k /\ lo <= ord k /\ chain ord nxt (nxt k) ks'
  end.

(** Extents in order: none starts before the end of the one in front. *)
Definition extent_chain : Z -> list bkey -> Prop :=
  chain KEY_START KEY_OFFSET.


(** The keys a cursor still has to yield. *)
Definition keys_of (m : list bkey) (s : btree_iter_set) : list bkey :=
  take (iter_end s - iter_k s) (drop (iter_k s) m).

(** ** Invariants of an iterator *)

(** Cursors of different runs: their ends differ and their ranges do not
    meet. *)
Definition cursors_apart (d : list btree_iter_set) : Prop :=
  NoDup (iter_end <$> d)
  /\ forall s t, s ∈ d -> t ∈ d ->
       iter_end s = iter_end t
       \/ (iter_end s <= iter_k t)%nat \/ (iter_end t <= iter_k s)%nat.

Definition cursor_ok (ord nxt : bkey -> Z) (lo : Z) (m : list bkey)
    (s : btree_iter_set) : Prop :=
  (iter_k s < iter_end s <= length m)%nat
  /\ chain ord nxt lo (keys_of m s).

Record iter_inv (ord nxt : bkey -> Z) (lo : Z) (iter : btree_iter) : Prop :=
  mk_iter_inv {
    inv_cursors : Forall (cursor_ok ord nxt lo (store iter)) (data iter);
    inv_apart : cursors_apart (data iter);
    inv_heap : is_heap (cmp_by ord (store iter)) (data iter)
  }.

(** What is left to do: one for every key plus its size. *)
Definition key_weight (k : bkey) : nat := S (Z.to_nat (KEY_SIZE k)).

Definition cursor_weight (m : list bkey) (s : btree_iter_set) : nat :=
  sum_list_with key_weight (keys_of m s).

Definition iter_weight (iter : btree_iter) : nat :=
  sum_list_with (cursor_weight (store iter)) (data iter).

(** A cursor one key further. *)
Definition cursor_next (s : btree_iter_set) : btree_iter_set :=
  mk_iter_set (bkey_next (iter_k s)) (iter_end s).

(** The cursors left when [s] has moved on by one key. *)
Definition advanced (s : btree_iter_set) (rest : list btree_iter_set)
  : list btree_iter_set :=
  if decide (S (iter_k s) = iter_end s) then rest else cursor_next s :: rest.

(** Some other cursor points at a higher address: the key under [s] is
    older than a key still to be merged. *)
Definition older_than_some (d : list btree_iter_set) (s : btree_iter_set)
  : Prop :=
  exists t, t ∈ d /\ (iter_k s < iter_k t)%nat.

(** What one round of a fixup may do to the iterator: it trims the key
    under a cursor [s] that is older than some other, or it moves [s] on by
    one key, dropping a key that is older than some other or that is
    [exempt] from being kept. *)
Definition fixup_touches (exempt : bkey -> Prop)
    (iter iter' : btree_iter) (s : btree_iter_set) : Prop :=
  s ∈ data iter
  /\ length (store iter') = length (store iter)
  /\ ((older_than_some (data iter) s
       /\ (forall a, a <> iter_k s -> store iter' !! a = store iter !! a)
       /\ data iter' ≡ₚ data iter)
      \/ ((exempt (key_at (store iter) s) \/ older_than_some (data iter) s)
          /\ store iter' = store iter
          /\ exists rest, data iter ≡ₚ s :: rest
                          /\ data iter' ≡ₚ advanced s rest)).

(** A predicate a fixup round keeps, whichever cursor it touches. *)
Definition kept_by_fixup (exempt : bkey -> Prop) (ord nxt : bkey -> Z)
    (lo : Z) (Q : btree_iter -> Prop) : Prop :=
  forall it it' s,
    iter_inv ord nxt lo it -> Q it -> fixup_touches exempt it it' s -> Q it'.

(** Extents in runs: each run in order and free of overlap in itself. *)
Definition wf_runs (runs : list (list bkey)) : Prop :=
  Forall (extent_chain 0) runs.


(** A size-0 extent carries no data. *)
Definition empty_extent (k : bkey) : Prop := KEY_SIZE k = 0.

(** The weight of a set of runs; a merge given more fuel than this runs to
    the end. *)
Definition runs_weight (runs : list (list bkey)) : nat :=
  sum_list_with (sum_list_with key_weight) runs.

(** ** Ranges *)

(** The logical address [x] lies in the half-open range of [k]. *)
Definition covers (k : bkey) (x : Z) : Prop :=
  KEY_START k <= x < KEY_OFFSET k.

(** No address lies in the ranges of two different entries. *)
Definition pairwise_disjoint (ks : list bkey) : Prop :=
  forall i j a b x, i <> j -> ks !! i = Some a -> ks !! j = Some b ->
    ~ (covers a x /\ covers b x).

(** ** The newest run *)

(** The run stored from address [B] on is the newest one.  Its keys stay in
    the store as they were in [m0]; its cursor is the only one above [B];
    and each of its keys, unless [exempt], was emitted unchanged or is
    still to come. *)
Definition newest_kept (exempt : bkey -> Prop) (B : nat) (m0 : list bkey)
    (iter : btree_iter) (out : list (nat * bkey)) : Prop :=
  length (store iter) = length m0
  /\ (forall a, (B <= a)%nat -> store iter !! a = m0 !! a)
  /\ (forall s, s ∈ data iter ->
        (iter_end s <= B)%nat
        \/ ((B <= iter_k s)%nat /\ iter_end s = length m0))
  /\ (forall a k, (B <= a)%nat -> m0 !! a = Some k -> ~ exempt k ->
        (a, k) ∈ out
        \/ exists s, s ∈ data iter /\ (iter_k s <= a < iter_end s)%nat).

(** ** Pointer-key order *)



(** * The rest of [extents.c] *)

(** ** Plain keys *)




(** ** Btree pointers *)

(** What the btree-pointer checks send to the diagnostic channel. *)
Inductive ptr_report : Type :=
| spotted_btree_ptr (k : bkey)
| inconsistent_btree_pointer (k : bkey) (i : nat).

Definition __bch_btree_ptr_invalid (c : cache_set) (k : bkey)
  : bool * list ptr_report :=
  if KEY_CACHED k then (true, [spotted_btree_ptr k])
  else if negb (KEY_DELETED k) && (KEY_PTRS k =? 0)%nat
  then (true, [spotted_btree_ptr k])
  else if negb (bkey_cmp k ZERO_KEY =? 0) && (KEY_SIZE k =? 0)
  then (true, [spotted_btree_ptr k])
  else if __ptr_invalid c k then (true, [spotted_btree_ptr k])
  else (false, []).

Definition bch_btree_ptr_invalid (c : cache_set) (k : bkey)
  : bool * list ptr_report :=
  __bch_btree_ptr_invalid c k.

(** What makes [btree_ptr_bad_expensive] jump to [err] at pointer [i]. *)
Definition btree_ptr_inconsistent (c : cache_set) (k : bkey) (i : nat) : bool :=
  ptr_available c k i
  && (KEY_CACHED k
      || (gc_mark_valid c
          && negb (bool_decide (GC_MARK (PTR_BUCKET c k i) = GC_MARK_METADATA)))).

(** The loop stops at the first pointer that is inconsistent; without the
    bucket lock nothing is looked at. *)
Definition btree_ptr_bad_expensive (c : cache_set) (k : bkey)
  : bool * list ptr_report :=
  if bucket_lock_free c then
    match find (btree_ptr_inconsistent c k) (seq 0 (KEY_PTRS k)) with
    | Some i => (true, [inconsistent_btree_pointer k i])
    | None => (false, [])
    end
  else (false, []).

Definition bch_btree_ptr_bad (c : cache_set) (k : bkey)
  : bool * list ptr_report :=
  if KEY_DELETED k || (bkey_cmp k ZERO_KEY =? 0) then (true, [])
  else
    let '(inv, r0) := __bch_btree_ptr_invalid c k in
    if inv then (true, r0)
    else if existsb (fun i => negb (ptr_available c k i)) (seq 0 (KEY_PTRS k))
    then (true, r0)
    else if expensive_debug_checks c then
      let '(b, r) := btree_ptr_bad_expensive c k in
      (b, r0 ++ r)
    else (false, r0).

(** ** Vocabulary for the properties *)

(** The data behind pointer [i] stays inside one bucket, and that bucket
    belongs to the device. *)
Definition ptr_fits (c : cache_set) (k : bkey) (i : nat) : Prop :=
  let ca := default inhabitant (PTR_CACHE c k i) in
  KEY_SIZE k + bucket_remainder c (PTR_OFFSET k i) <= bucket_size c
  /\ first_bucket ca <= PTR_BUCKET_NR c k i < nbuckets ca.

(** [k'] is what is left of [k] after trimming: its range lies inside the
    range of [k]. *)
Definition within (k' k : bkey) : Prop :=
  KEY_START k <= KEY_START k' /\ KEY_OFFSET k' <= KEY_OFFSET k
  /\ KEY_SIZE k' <= KEY_SIZE k.

(** The addresses emitted so far lie behind every cursor. *)
Definition emitted_behind (iter : btree_iter) (out : list (nat * bkey))
  : Prop :=
  forall a s, a ∈ out.*1 -> s ∈ data iter ->
    ~ (iter_k s <= a < iter_end s)%nat.




(** Every key of [m0] that satisfies [P] was emitted as it is, from its
    own address, or waits under a cursor. *)
Definition keys_kept (P : bkey -> Prop) (m0 : list bkey) (iter : btree_iter)
    (out : list (nat * bkey)) : Prop :=
  store iter = m0
  /\ forall a k, m0 !! a = Some k -> P k ->
       (a, k) ∈ out
       \/ exists s, s ∈ data iter /\ (iter_k s <= a < iter_end s)%nat.


(** Any key. *)
Definition any_key (k : bkey) : Prop := True.

(** * Proofs *)

(** * Proofs *)

(** ** Fixed-width arithmetic *)

Lemma u64_spec x : exists q, u64 x = x + q * 2 ^ 64 /\ 0 <= u64 x < 2 ^ 64.
Proof.
  exists (- (x / 2 ^ 64)). unfold u64. split; [|apply Z.mod_pos_bound; lia].
  rewrite Z.mod_eq by lia. lia.
Qed.

Lemma u32_spec x : exists q, u32 x = x + q * 2 ^ 32 /\ 0 <= u32 x < 2 ^ 32.
Proof.
  exists (- (x / 2 ^ 32)). unfold u32. split; [|apply Z.mod_pos_bound; lia].
  rewrite Z.mod_eq by lia. lia.
Qed.

Lemma u16_spec x : exists q, u16 x = x + q * 2 ^ 16 /\ 0 <= u16 x < 2 ^ 16.
Proof.
  exists (- (x / 2 ^ 16)). unfold u16. split; [|apply Z.mod_pos_bound; lia].
  rewrite Z.mod_eq by lia. lia.
Qed.

Lemma u8_spec x : exists q, u8 x = x + q * 2 ^ 8 /\ 0 <= u8 x < 2 ^ 8.
Proof.
  exists (- (x / 2 ^ 8)). unfold u8. split; [|apply Z.mod_pos_bound; lia].
  rewrite Z.mod_eq by lia. lia.
Qed.

Lemma s64_spec x : exists q, s64 x = x + q * 2 ^ 64 /\ - 2 ^ 63 <= s64 x < 2 ^ 63.
Proof.
  unfold s64. destruct (u64_spec x) as (q & Hq & Hr).
  destruct (Z.ltb_spec (u64 x) (2 ^ 63)).
  - exists q. lia.
  - exists (q - 1). lia.
Qed.

(** Replace every wrapped term by a variable with its defining equation
    and range, then leave the rest to [lia]. *)
Ltac wrap_step f spec :=
  match goal with
  | |- context [f ?t] =>
    let q := fresh "q" in let v := fresh "v" in
    destruct (spec t) as (q & ? & ?); set (v := f t) in *; clearbody v
  | H : context [f ?t] |- _ =>
    let q := fresh "q" in let v := fresh "v" in
    destruct (spec t) as (q & ? & ?); set (v := f t) in *; clearbody v
  end.

Ltac wrap_elim :=
  repeat first
    [ wrap_step u64 u64_spec | wrap_step s64 s64_spec
    | wrap_step u32 u32_spec | wrap_step u16 u16_spec
    | wrap_step u8 u8_spec ].

Ltac wrap_lia := wrap_elim; lia.

Lemma s64_small x : - 2 ^ 63 <= x < 2 ^ 63 -> s64 x = x.
Proof. intros. wrap_lia. Qed.

Lemma u64_small x : 0 <= x < 2 ^ 64 -> u64 x = x.
Proof. intros. wrap_lia. Qed.

Lemma u16_small x : 0 <= x < 2 ^ 16 -> u16 x = x.
Proof. intros. wrap_lia. Qed.

Lemma u64_range x : 0 <= u64 x < 2 ^ 64.
Proof. wrap_lia. Qed.

(** ** Field bookkeeping *)

Lemma existsb_seq_false (f : nat -> bool) n :
  existsb f (seq 0 n) = false <-> forall i, (i < n)%nat -> f i = false.
Proof.
  rewrite <- not_true_iff_false, existsb_exists. split.
  - intros H i Hi. apply not_true_iff_false. intros Hf. apply H. exists i.
    split; [apply in_seq; lia | done].
  - intros H [i [Hi Hf]]. apply in_seq in Hi. rewrite H in Hf by lia. done.
Qed.

Lemma foldl_ptr_offset_fields (f : bkey -> nat -> Z) idxs k :
  let k' := foldl (fun acc i => SET_PTR_OFFSET acc i (f acc i)) k idxs in
  KEY_OFFSET k' = KEY_OFFSET k /\ KEY_SIZE k' = KEY_SIZE k
  /\ KEY_PTRS k' = KEY_PTRS k /\ KEY_DELETED k' = KEY_DELETED k
  /\ KEY_CACHED k' = KEY_CACHED k /\ KEY_CSUM k' = KEY_CSUM k.
Proof.
  revert k. induction idxs as [|i idxs IH]; intros k; [done|].
  cbn [foldl]. cbv zeta in IH.
  destruct (IH (SET_PTR_OFFSET k i (f k i))) as (-> & -> & -> & -> & -> & ->).
  done.
Qed.

Lemma KEY_OFFSET_START_KEY k : KEY_OFFSET (START_KEY k) = KEY_START k.
Proof. cbn. apply u64_small, u64_range. Qed.

(** ** Merging extents *)

Lemma merge_checks_spec c l r :
  (key_merging_disabled c
   || (negb (KEY_PTRS l =? KEY_PTRS r)%nat
          || negb (eqb (KEY_DELETED l) (KEY_DELETED r))
          || negb (eqb (KEY_CACHED l) (KEY_CACHED r))
          || negb (bkey_cmp l (START_KEY r) =? 0))
   || existsb (fun i =>
            negb (u64 (ptr_at l i + PTR 0 (KEY_SIZE l) 0) =? ptr_at r i)
            || negb (PTR_BUCKET_NR c l i =? PTR_BUCKET_NR c r i))
            (seq 0 (KEY_PTRS l))) = true <-> merge_precondition_fails c l r.
Proof.
  unfold merge_precondition_fails.
  rewrite !orb_true_iff, !negb_true_iff, existsb_exists.
  rewrite Nat.eqb_neq, !eqb_false_iff, Z.eqb_neq.
  split.
  - intros [[H|[[[H|H]|H]|H]]|[i [Hi H]]]; try tauto.
    apply in_seq in Hi. rewrite orb_true_iff, !negb_true_iff, !Z.eqb_neq in H.
    do 5 right. exists i. split; [lia|done].
  - intros [H|[H|[H|[H|[H|[i [Hi H]]]]]]]; try tauto.
    right. exists i. split; [apply in_seq; lia|].
    by rewrite orb_true_iff, !negb_true_iff, !Z.eqb_neq.
Qed.

Lemma bch_extent_merge_unfold c l r :
  bch_extent_merge c l r =
  if (key_merging_disabled c
   || (negb (KEY_PTRS l =? KEY_PTRS r)%nat
          || negb (eqb (KEY_DELETED l) (KEY_DELETED r))
          || negb (eqb (KEY_CACHED l) (KEY_CACHED r))
          || negb (bkey_cmp l (START_KEY r) =? 0))
   || existsb (fun i =>
            negb (u64 (ptr_at l i + PTR 0 (KEY_SIZE l) 0) =? ptr_at r i)
            || negb (PTR_BUCKET_NR c l i =? PTR_BUCKET_NR c r i))
            (seq 0 (KEY_PTRS l)))
  then Ok (false, l, r)
  else if KEY_SIZE l + KEY_SIZE r >? USHRT_MAX then
    let l1 := SET_KEY_OFFSET l (KEY_OFFSET l + USHRT_MAX - KEY_SIZE l) in
    let l2 := SET_KEY_SIZE l1 USHRT_MAX in
    '(_, r') ← bch_cut_front l2 r;
    Ok (false, l2, r')
  else
    let l1 := if negb (KEY_CSUM l =? 0)
              then if negb (KEY_CSUM r =? 0)
                   then set_ptr l (KEY_PTRS l) (merge_chksums l r)
                   else SET_KEY_CSUM l 0
              else l in
    let l2 := SET_KEY_OFFSET l1 (KEY_OFFSET l1 + KEY_SIZE r) in
    let l3 := SET_KEY_SIZE l2 (KEY_SIZE l2 + KEY_SIZE r) in
    Ok (true, l3, r).
Proof.
  unfold bch_extent_merge.
  destruct (key_merging_disabled c); [done|]. cbn [orb].
  destruct (_ || _ || _ || _); [done|]. cbn [orb].
  destruct (existsb _ _); done.
Qed.

Lemma merge_passes c l r :
  ~ merge_precondition_fails c l r ->
  bch_extent_merge c l r =
  if KEY_SIZE l + KEY_SIZE r >? USHRT_MAX then
    let l1 := SET_KEY_OFFSET l (KEY_OFFSET l + USHRT_MAX - KEY_SIZE l) in
    let l2 := SET_KEY_SIZE l1 USHRT_MAX in
    '(_, r') ← bch_cut_front l2 r;
    Ok (false, l2, r')
  else
    let l1 := if negb (KEY_CSUM l =? 0)
              then if negb (KEY_CSUM r =? 0)
                   then set_ptr l (KEY_PTRS l) (merge_chksums l r)
                   else SET_KEY_CSUM l 0
              else l in
    let l2 := SET_KEY_OFFSET l1 (KEY_OFFSET l1 + KEY_SIZE r) in
    let l3 := SET_KEY_SIZE l2 (KEY_SIZE l2 + KEY_SIZE r) in
    Ok (true, l3, r).
Proof.
  intros H. rewrite bch_extent_merge_unfold.
  rewrite <- merge_checks_spec in H. apply not_true_is_false in H.
  by rewrite H.
Qed.

Lemma merge_adjacent c l r :
  field_ok l -> ~ merge_precondition_fails c l r -> KEY_OFFSET l = KEY_START r.
Proof.
  intros [Hl _] H. unfold merge_precondition_fails in H.
  destruct (decide (bkey_cmp l (START_KEY r) = 0)) as [E|E]; [|tauto].
  unfold bkey_cmp in E. rewrite KEY_OFFSET_START_KEY in E.
  unfold KEY_START in *. wrap_lia.
Qed.

Lemma merge_precondition_fails_dec c l r :
  merge_precondition_fails c l r \/ ~ merge_precondition_fails c l r.
Proof.
  rewrite <- merge_checks_spec.
  destruct (_ || _ || _); [by left|right; discriminate].
Qed.

(** ** Trimming *)

(** Cutting [c] sectors off the front of [k], [0 < c < KEY_SIZE k], where
    [w] lies [c] past the start of [k] in 64-bit arithmetic. *)
Lemma bch_cut_front_inside w k c :
  field_ok k -> 0 <= KEY_OFFSET w < 2 ^ 64 -> 0 < c < KEY_SIZE k ->
  KEY_OFFSET w = u64 (KEY_START k + c) ->
  exists k', bch_cut_front w k = Ok (true, k')
    /\ KEY_OFFSET k' = KEY_OFFSET k /\ KEY_SIZE k' = KEY_SIZE k - c
    /\ KEY_PTRS k' = KEY_PTRS k /\ KEY_DELETED k' = KEY_DELETED k
    /\ KEY_CACHED k' = KEY_CACHED k /\ KEY_CSUM k' = KEY_CSUM k.
Proof.
  intros [Hoff Hsz] Hwo Hc Hw. unfold USHRT_MAX, KEY_START in *.
  assert (bkey_cmp w k = c - KEY_SIZE k) as E1.
  { unfold bkey_cmp. wrap_lia. }
  assert (bkey_cmp w (START_KEY k) = c) as E2.
  { unfold bkey_cmp. rewrite KEY_OFFSET_START_KEY. unfold KEY_START. wrap_lia. }
  assert (u32 (KEY_OFFSET k - KEY_OFFSET w) = KEY_SIZE k - c) as E3.
  { wrap_lia. }
  unfold bch_cut_front, __bch_cut_front. rewrite E1, E2, E3.
  replace (c - KEY_SIZE k >? 0) with false by lia.
  replace (c <=? 0) with false by lia.
  replace (c - KEY_SIZE k <? 0) with true by lia.
  cbn [BUG_ON mbind result_bind].
  set (f := fun acc i => PTR_OFFSET acc i + KEY_SIZE acc - (KEY_SIZE k - c)).
  destruct (foldl_ptr_offset_fields f (seq 0 (KEY_PTRS k)) k)
    as (Ho & Hs & Hp & Hd & Hca & Hcs).
  cbv zeta in *. subst f. cbn beta in *.
  rewrite Hs. replace (KEY_SIZE k <? KEY_SIZE k - c) with false by lia.
  cbn [BUG_ON mbind result_bind].
  eexists. split; [reflexivity|]. cbn.
  rewrite Ho, Hp, Hd, Hca, Hcs. rewrite u16_small by lia. done.
Qed.

(** Cutting at or before the start of [k] changes nothing. *)
Lemma bch_cut_front_outside w k :
  bkey_cmp w k <= 0 -> bkey_cmp w (START_KEY k) <= 0 ->
  bch_cut_front w k = Ok (false, k).
Proof.
  intros H1 H2. unfold bch_cut_front, __bch_cut_front.
  replace (bkey_cmp w k >? 0) with false by lia.
  replace (bkey_cmp w (START_KEY k) <=? 0) with true by lia. done.
Qed.

(** ** Claims about [bch_extent_merge] *)

(** C7: when two adjacent mergeable extents have sizes summing to more than
    65535, [bch_extent_merge] returns false; L grows to size exactly 65535
    and its offset advances by the amount consumed; R keeps its end, its
    start advances by that amount and its size shrinks by it; both keys
    stay, L ends where R starts, and (when the sizes do not exceed the
    offsets) the two ranges do not overlap. *)
Theorem bch_extent_merge_overflow c l r :
  field_ok l -> field_ok r ->
  ~ merge_precondition_fails c l r ->
  KEY_SIZE l + KEY_SIZE r > USHRT_MAX ->
  exists l' r',
    bch_extent_merge c l r = Ok (false, l', r')
    /\ KEY_SIZE l' = USHRT_MAX
    /\ KEY_OFFSET l' = u64 (KEY_OFFSET l + (USHRT_MAX - KEY_SIZE l))
    /\ KEY_START l' = KEY_START l
    /\ KEY_OFFSET r' = KEY_OFFSET r
    /\ KEY_SIZE r' = KEY_SIZE r - (USHRT_MAX - KEY_SIZE l)
    /\ KEY_START r' = u64 (KEY_START r + (USHRT_MAX - KEY_SIZE l))
    /\ KEY_OFFSET l' = KEY_START r'
    /\ (KEY_SIZE l <= KEY_OFFSET l -> KEY_SIZE r <= KEY_OFFSET r ->
        KEY_OFFSET l' = KEY_OFFSET l + (USHRT_MAX - KEY_SIZE l)
        /\ KEY_START l' < KEY_OFFSET l' /\ KEY_START r' < KEY_OFFSET r').
Proof.
  intros Hl Hr Hpre Hsum.
  pose proof (merge_adjacent c l r Hl Hpre) as Hadj.
  rewrite (merge_passes _ _ _ Hpre).
  replace (KEY_SIZE l + KEY_SIZE r >? USHRT_MAX) with true by lia.
  cbv zeta.
  set (l2 := SET_KEY_SIZE (SET_KEY_OFFSET l _) _).
  destruct Hl as [Hlo Hls]. pose proof Hr as [Hro Hrs]. unfold USHRT_MAX in *.
  assert (KEY_OFFSET l2 = u64 (KEY_OFFSET l + (65535 - KEY_SIZE l))) as Eo.
  { cbn. f_equal. lia. }
  assert (KEY_SIZE l2 = 65535) as Es by done.
  destruct (decide (KEY_SIZE l = 65535)) as [Efull|Hnf].
  - (* nothing is consumed: R is left as it is *)
    rewrite bch_cut_front_outside.
    + cbn [mbind result_bind]. exists l2, r.
      split; [done|]. unfold KEY_START in *. rewrite Es, Eo.
      repeat split; try done; intros; wrap_lia.
    + unfold bkey_cmp. rewrite Eo. unfold KEY_START in *. wrap_lia.
    + unfold bkey_cmp. rewrite KEY_OFFSET_START_KEY, Eo. unfold KEY_START in *.
      wrap_lia.
  - destruct (bch_cut_front_inside l2 r (65535 - KEY_SIZE l))
      as (r' & -> & Ho' & Hs' & _); [done| |lia| |].
    { rewrite Eo. apply u64_range. }
    { rewrite Eo. unfold KEY_START in *. wrap_lia. }
    cbn [mbind result_bind]. exists l2, r'.
    split; [done|]. unfold KEY_START in *. rewrite Es, Eo, Ho', Hs'.
    repeat split; try done; intros; wrap_lia.
Qed.

Lemma bch_extent_merge_overflow_witness :
  exists l' r',
    bch_extent_merge (sample_cache_set 0 false)
      (extent 70000 65530) (extent 70020 20) = Ok (false, l', r')
    /\ KEY_SIZE l' = 65535 /\ KEY_OFFSET l' = 70005
    /\ KEY_SIZE r' = 15 /\ KEY_START r' = 70005.
Proof.
  destruct (bch_extent_merge_overflow (sample_cache_set 0 false)
              (extent 70000 65530) (extent 70020 20))
    as (l' & r' & E & Hs & Ho & _ & _ & Hs' & Hst & _).
  - unfold field_ok, USHRT_MAX. simpl. lia.
  - unfold field_ok, USHRT_MAX. simpl. lia.
  - intros H. apply merge_checks_spec in H. vm_compute in H. discriminate.
  - unfold USHRT_MAX. simpl. lia.
  - exists l', r'. rewrite E, Hs, Ho, Hs', Hst. vm_compute. done.
Defined.

(** C9: in a merge that goes through, where L carries a checksum: if R
    carries one too, L's checksum slot becomes the sum of the two taken
    modulo 2^64 with bit 63 cleared, a value below 2^63; if R carries none,
    L's checksum field is cleared. *)
Theorem bch_extent_merge_chksums c l r :
  ~ merge_precondition_fails c l r ->
  KEY_SIZE l + KEY_SIZE r <= USHRT_MAX ->
  KEY_CSUM l <> 0 ->
  (KEY_PTRS l < length (ptr l))%nat ->
  exists l',
    bch_extent_merge c l r = Ok (true, l', r)
    /\ (KEY_CSUM r <> 0 ->
        let s := ptr_at l' (KEY_PTRS l') in
        s = merge_chksums l r
        /\ s = (ptr_at l (KEY_PTRS l) + ptr_at r (KEY_PTRS r)) mod 2 ^ 63
        /\ Z.testbit s 63 = false
        /\ 0 <= s < 2 ^ 63
        /\ KEY_CSUM l' = KEY_CSUM l)
    /\ (KEY_CSUM r = 0 -> KEY_CSUM l' = 0).
Proof.
  intros Hpre Hsum Hcs Hslot.
  rewrite (merge_passes _ _ _ Hpre).
  replace (KEY_SIZE l + KEY_SIZE r >? USHRT_MAX) with false by lia.
  replace (negb (KEY_CSUM l =? 0)) with true by (symmetry; apply negb_true_iff; lia).
  eexists. split; [reflexivity|].
  assert (merge_chksums l r
          = (ptr_at l (KEY_PTRS l) + ptr_at r (KEY_PTRS r)) mod 2 ^ 63) as Em.
  { unfold merge_chksums, u64.
    change (Z.lxor (Z.ones 64) (Z.shiftl 1 63)) with (Z.ones 63).
    rewrite Z.land_ones by lia.
    apply Z.mod_mod_divide. exists (2 ^ 1). lia. }
  assert (0 <= merge_chksums l r < 2 ^ 63) as Hr.
  { rewrite Em. apply Z.mod_pos_bound. lia. }
  split.
  - intros Hr0.
    replace (negb (KEY_CSUM r =? 0)) with true by (symmetry; apply negb_true_iff; lia).
    intros s. assert (s = merge_chksums l r) as Hs.
    { subst s. unfold ptr_at at 1.
      cbn [KEY_PTRS ptr SET_KEY_SIZE SET_KEY_OFFSET set_ptr].
      rewrite nth_lookup, list_lookup_insert_eq by done. apply u64_small. lia. }
    rewrite Hs.
    repeat split; try lia; try done.
    rewrite Em. apply Z.mod_pow2_bits_high. lia.
  - intros Hr0. rewrite Hr0. done.
Qed.

Lemma bch_extent_merge_chksums_witness :
  exists l',
    bch_extent_merge (sample_cache_set 0 false)
      (mk_bkey 150 50 0 false false 1 [2 ^ 63 + 5])
      (mk_bkey 180 30 0 false false 1 [2 ^ 63 + 7])
    = Ok (true, l', mk_bkey 180 30 0 false false 1 [2 ^ 63 + 7])
    /\ ptr_at l' (KEY_PTRS l') = 12.
Proof.
  destruct (bch_extent_merge_chksums (sample_cache_set 0 false)
              (mk_bkey 150 50 0 false false 1 [2 ^ 63 + 5])
              (mk_bkey 180 30 0 false false 1 [2 ^ 63 + 7]))
    as (l' & E & H & _).
  - intros H. apply merge_checks_spec in H. vm_compute in H. discriminate.
  - unfold USHRT_MAX. simpl. lia.
  - simpl. lia.
  - simpl. lia.
  - exists l'. split; [exact E|].
    destruct H as (_ & -> & _); [simpl; lia|]. reflexivity.
Defined.

(** C10: when [bch_extent_merge] returns false because merging is
    disabled or one of the compatibility checks fails (pointer counts,
    deleted or cached flags, adjacency, or a pointer of r that is not the
    pointer of l advanced by l's size in the same bucket), both keys are
    left exactly as they were; a call that returns false with a key changed
    went through the size-overflow path. *)
Theorem bch_extent_merge_false_unchanged c l r :
  (merge_precondition_fails c l r ->
   bch_extent_merge c l r = Ok (false, l, r))
  /\ (forall l' r',
        bch_extent_merge c l r = Ok (false, l', r') ->
        (l', r') <> (l, r) ->
        ~ merge_precondition_fails c l r
        /\ KEY_SIZE l + KEY_SIZE r > USHRT_MAX).
Proof.
  split.
  - intros H. apply merge_checks_spec in H.
    rewrite bch_extent_merge_unfold. by rewrite H.
  - intros l' r' E Hne.
    destruct (merge_precondition_fails_dec c l r) as [H|H].
    { apply merge_checks_spec in H. rewrite bch_extent_merge_unfold, H in E.
      congruence. }
    split; [done|]. rewrite (merge_passes _ _ _ H) in E.
    destruct (Z.gtb_spec (KEY_SIZE l + KEY_SIZE r) USHRT_MAX); [lia|done].
Qed.

Lemma bch_extent_merge_false_unchanged_witness :
  bch_extent_merge (sample_cache_set 0 false) (extent 150 50) (extent 190 30)
  = Ok (false, extent 150 50, extent 190 30)
  /\ KEY_SIZE (extent 70000 65530) + KEY_SIZE (extent 70020 20) > USHRT_MAX.
Proof.
  split.
  - apply (proj1 (bch_extent_merge_false_unchanged (sample_cache_set 0 false)
                    (extent 150 50) (extent 190 30))).
    do 4 right. left. vm_compute. discriminate.
  - eapply (proj2 (bch_extent_merge_false_unchanged (sample_cache_set 0 false)
                    (extent 70000 65530) (extent 70020 20))).
    + vm_compute. reflexivity.
    + vm_compute. congruence.
Defined.

(** ** Claims about [bch_extent_bad] *)

Lemma bch_extent_bad_passes c k :
  passes_cheap_checks c k ->
  bch_extent_bad c k =
  if negb (expensive_debug_checks c) && negb (KEY_CACHED k) then (false, [])
  else bch_extent_bad_ptrs c k (seq 0 (KEY_PTRS k)).
Proof.
  intros (Hd & Hp & Hi & Ha). unfold bch_extent_bad.
  rewrite Hd. replace (KEY_PTRS k =? 0)%nat with false
    by (symmetry; apply Nat.eqb_neq; done).
  cbn [orb]. unfold bch_extent_invalid in *.
  destruct (KEY_SIZE k =? 0); [done|].
  destruct (KEY_SIZE k >? KEY_OFFSET k); [done|].
  destruct (__ptr_invalid c k); [done|].
  replace (existsb _ _) with false.
  2:{ symmetry. apply existsb_seq_false. intros i Hi'. by rewrite Ha. }
  destruct (negb _ && negb _); [done|].
  by destruct (bch_extent_bad_ptrs _ _ _).
Qed.

Lemma bch_extent_bad_ptrs_stale c k idxs i :
  i ∈ idxs -> ptr_stale c k i <> 0 ->
  (bch_extent_bad_ptrs c k idxs).1 = true.
Proof.
  intros Hin Hst. induction idxs as [|j idxs IH]; [by apply elem_of_nil in Hin|].
  cbn [bch_extent_bad_ptrs].
  destruct (Z.eqb_spec (ptr_stale c k j) 0) as [E|E]; cbn [negb]; [|done].
  destruct (if expensive_debug_checks c then _ else _) as [[] r3]; [done|].
  apply elem_of_cons in Hin as [->|Hin]; [done|].
  specialize (IH Hin). by destruct (bch_extent_bad_ptrs c k idxs).
Qed.

Lemma bch_extent_bad_ptrs_fresh c k idxs :
  expensive_debug_checks c = false ->
  (forall i, i ∈ idxs -> ptr_stale c k i = 0) ->
  bch_extent_bad_ptrs c k idxs = (false, []).
Proof.
  intros He Hf. induction idxs as [|j idxs IH]; [done|].
  cbn [bch_extent_bad_ptrs]. rewrite He.
  rewrite (Hf j) by apply list_elem_of_here. cbn.
  rewrite IH; [done|]. intros i Hi. apply Hf. by apply list_elem_of_further.
Qed.

Lemma bch_extent_bad_ptrs_dirty_report c k idxs i :
  i ∈ idxs -> ptr_stale c k i <> 0 ->
  KEY_CACHED k = false -> KEY_SIZE k <> 0 ->
  (bch_extent_bad_ptrs c k idxs).2 <> [].
Proof.
  intros Hin Hst Hc Hs. induction idxs as [|j idxs IH]; [by apply elem_of_nil in Hin|].
  cbn [bch_extent_bad_ptrs]. rewrite Hc.
  replace (KEY_SIZE k =? 0) with false by lia. cbn [negb andb].
  destruct (Z.eqb_spec (ptr_stale c k j) 0) as [E|E]; cbn [negb andb].
  - rewrite E. cbn [Z.gtb Z.compare app].
    apply elem_of_cons in Hin as [->|Hin]; [done|]. specialize (IH Hin).
    destruct (if expensive_debug_checks c then _ else _) as [b r3] eqn:Ee.
    destruct b.
    + cbn [snd]. intros ->.
      unfold bch_extent_bad_expensive in Ee.
      destruct (expensive_debug_checks c); [|done].
      destruct (bucket_lock_free c); [|done].
      destruct (gc_mark_valid c && _); done.
    + destruct (bch_extent_bad_ptrs c k idxs) as [b' r4]. cbn [snd] in *.
      intros Hnil. apply app_eq_nil in Hnil as [_ Hnil]. done.
  - cbn [snd]. by destruct (_ >? _).
Qed.

(** C3 (as the code has it): a cached extent with a pointer whose
    staleness distance is not 0 is bad, at distance 1 (bucket generation
    10, pointer generation 9) as at distance 97 (bucket generation 107,
    pointer generation 10); this holds of every cached key, so also of one
    that is not deleted, structurally valid and has an available pointer.
    For a cached key that gets past the cheap checks (not deleted, with
    pointers, structurally valid, every pointer available), with the
    expensive checks off, the key is reported good, and nothing is
    reported, exactly when every pointer has distance 0. *)
Theorem bch_extent_bad_cached_stale c k :
  KEY_CACHED k = true ->
  ((exists i, (i < KEY_PTRS k)%nat /\ ptr_stale c k i <> 0) ->
   (bch_extent_bad c k).1 = true)
  /\ (passes_cheap_checks c k -> expensive_debug_checks c = false ->
      ((forall i, (i < KEY_PTRS k)%nat -> ptr_stale c k i = 0) ->
       bch_extent_bad c k = (false, []))
      /\ ((bch_extent_bad c k).1 = false ->
          forall i, (i < KEY_PTRS k)%nat -> ptr_stale c k i = 0)).
Proof.
  intros Hc.
  assert ((exists i, (i < KEY_PTRS k)%nat /\ ptr_stale c k i <> 0) ->
          (bch_extent_bad c k).1 = true) as Hstale.
  { intros (i & Hi & Hst). unfold bch_extent_bad.
    destruct (KEY_DELETED k || _); [done|].
    destruct (bch_extent_invalid c k) as [[] r0]; [done|].
    destruct (existsb _ _); [done|]. rewrite Hc, andb_false_r.
    pose proof (bch_extent_bad_ptrs_stale c k (seq 0 (KEY_PTRS k)) i) as H.
    destruct (bch_extent_bad_ptrs c k (seq 0 (KEY_PTRS k))) as [b r].
    cbn [fst] in *. apply H; [|done]. apply list_elem_of_In, in_seq. lia. }
  split; [done|]. intros Hp He. split.
  - intros Hf. rewrite (bch_extent_bad_passes _ _ Hp), Hc, andb_false_r.
    apply bch_extent_bad_ptrs_fresh; [done|].
    intros i Hi. apply list_elem_of_In, in_seq in Hi. apply Hf. lia.
  - intros Hgood i Hi. destruct (decide (ptr_stale c k i = 0)) as [?|Hst]; [done|].
    rewrite Hstale in Hgood; [done|]. by exists i.
Qed.

Lemma sample_key_passes_10_9 :
  passes_cheap_checks (sample_cache_set 10 false) (sample_key true 9).
Proof.
  split; [reflexivity|]. split; [discriminate|]. split; [reflexivity|].
  intros i Hi. cbn in Hi. assert (i = 0%nat) as -> by lia. reflexivity.
Defined.

Lemma bch_extent_bad_cached_stale_witness :
  ptr_stale (sample_cache_set 107 false) (sample_key true 10) 0 = 97
  /\ (bch_extent_bad (sample_cache_set 107 false) (sample_key true 10)).1 = true
  /\ bch_extent_bad (sample_cache_set 10 false) (sample_key true 10)
     = (false, []).
Proof.
  assert (passes_cheap_checks (sample_cache_set 10 false) (sample_key true 10))
    as Hp.
  { split; [reflexivity|]. split; [discriminate|]. split; [reflexivity|].
    intros i Hi. cbn in Hi. assert (i = 0%nat) as -> by lia. reflexivity. }
  split; [reflexivity|]. split.
  - apply (proj1 (bch_extent_bad_cached_stale
                    (sample_cache_set 107 false) (sample_key true 10) eq_refl)).
    exists 0%nat. split; [cbn; lia|]. vm_compute. discriminate.
  - apply (proj1 (proj2 (bch_extent_bad_cached_stale
                    (sample_cache_set 10 false) (sample_key true 10) eq_refl)
                   Hp eq_refl)).
    intros i Hi. cbn in Hi. assert (i = 0%nat) as -> by lia. reflexivity.
Defined.

(** C3, the claim as it stands fails: bucket generation 10 and pointer
    generation 9 on a cached key give distance 1, and the key is bad. *)
Lemma bch_extent_bad_distance_1_counterexample :
  passes_cheap_checks (sample_cache_set 10 false) (sample_key true 9)
  /\ KEY_CACHED (sample_key true 9) = true
  /\ gen (PTR_BUCKET (sample_cache_set 10 false) (sample_key true 9) 0) = 10
  /\ PTR_GEN (sample_key true 9) 0 = 9
  /\ ptr_stale (sample_cache_set 10 false) (sample_key true 9) 0 = 1
  /\ bch_extent_bad (sample_cache_set 10 false) (sample_key true 9) = (true, []).
Proof.
  split; [exact sample_key_passes_10_9|]. repeat split; reflexivity.
Qed.

(** C4 (as the code has it): for a dirty extent of non-zero size that gets
    past the cheap checks and has a pointer with non-zero staleness
    distance, [bch_extent_bad] looks at staleness only when the expensive
    checks are enabled: then the key is bad and an inconsistency is
    reported; with the expensive checks disabled the key is reported good
    and nothing is reported. *)
Theorem bch_extent_bad_dirty_stale c k i :
  passes_cheap_checks c k ->
  KEY_CACHED k = false ->
  KEY_SIZE k <> 0 ->
  (i < KEY_PTRS k)%nat ->
  ptr_stale c k i <> 0 ->
  (expensive_debug_checks c = true ->
   (bch_extent_bad c k).1 = true /\ (bch_extent_bad c k).2 <> [])
  /\ (expensive_debug_checks c = false -> bch_extent_bad c k = (false, [])).
Proof.
  intros Hp Hc Hs Hi Hst. rewrite (bch_extent_bad_passes _ _ Hp), Hc.
  assert (i ∈ seq 0 (KEY_PTRS k)) as Hin by (apply list_elem_of_In, in_seq; lia).
  split; intros ->; cbn [negb andb]; [|done].
  split.
  - by eapply bch_extent_bad_ptrs_stale.
  - by eapply bch_extent_bad_ptrs_dirty_report.
Qed.

Lemma bch_extent_bad_dirty_stale_witness :
  (bch_extent_bad (sample_cache_set 10 true) (sample_key false 9)).1 = true
  /\ (bch_extent_bad (sample_cache_set 10 true) (sample_key false 9)).2 <> []
  /\ bch_extent_bad (sample_cache_set 10 false) (sample_key false 9) = (false, []).
Proof.
  assert (forall b, passes_cheap_checks (sample_cache_set 10 b) (sample_key false 9))
    as Hp.
  { intros b. split; [reflexivity|]. split; [discriminate|].
    split; [by destruct b|].
    intros i Hi. cbn in Hi. assert (i = 0%nat) as -> by lia. by destruct b. }
  assert (ptr_stale (sample_cache_set 10 true) (sample_key false 9) 0 <> 0) as H1
    by (vm_compute; discriminate).
  assert (ptr_stale (sample_cache_set 10 false) (sample_key false 9) 0 <> 0) as H2
    by (vm_compute; discriminate).
  assert (KEY_SIZE (sample_key false 9) <> 0) as H3 by (vm_compute; discriminate).
  assert (0 < KEY_PTRS (sample_key false 9))%nat as H4 by (cbn; lia).
  destruct (proj1 (bch_extent_bad_dirty_stale _ _ 0%nat (Hp true) eq_refl H3 H4 H1)
              eq_refl) as [Ha Hb].
  split; [exact Ha|]. split; [exact Hb|].
  exact (proj2 (bch_extent_bad_dirty_stale _ _ 0%nat (Hp false) eq_refl H3 H4 H2)
           eq_refl).
Defined.

(** C4, the claim as it stands fails: with the expensive checks off, a
    dirty key whose pointer is stale is not classified bad and nothing is
    reported. *)
Lemma bch_extent_bad_dirty_counterexample :
  passes_cheap_checks (sample_cache_set 10 false) (sample_key false 9)
  /\ KEY_CACHED (sample_key false 9) = false
  /\ KEY_SIZE (sample_key false 9) = 8
  /\ ptr_stale (sample_cache_set 10 false) (sample_key false 9) 0 = 1
  /\ expensive_debug_checks (sample_cache_set 10 false) = false
  /\ bch_extent_bad (sample_cache_set 10 false) (sample_key false 9) = (false, []).
Proof.
  split.
  { split; [reflexivity|]. split; [discriminate|]. split; [reflexivity|].
    intros i Hi. cbn in Hi. assert (i = 0%nat) as -> by lia. reflexivity. }
  repeat split; reflexivity.
Qed.

(** ** The heap *)

Lemma heap_swap_length d i j : length (heap_swap d i j) = length d.
Proof. unfold heap_swap. by rewrite !length_insert. Qed.

Lemma heap_swap_lookup_l d i j :
  (i < length d)%nat -> (j < length d)%nat -> heap_swap d i j !!! i = d !!! j.
Proof.
  intros. unfold heap_swap.
  rewrite list_lookup_total_insert_eq; [done|by rewrite length_insert].
Qed.

Lemma heap_swap_lookup_r d i j :
  (i < length d)%nat -> (j < length d)%nat -> heap_swap d i j !!! j = d !!! i.
Proof.
  intros. unfold heap_swap. destruct (decide (i = j)) as [->|].
  - rewrite list_lookup_total_insert_eq; [done|by rewrite length_insert].
  - rewrite list_lookup_total_insert_ne by done.
    by rewrite list_lookup_total_insert_eq.
Qed.

Lemma heap_swap_lookup_ne d i j x :
  x <> i -> x <> j -> heap_swap d i j !!! x = d !!! x.
Proof.
  intros. unfold heap_swap. by rewrite !list_lookup_total_insert_ne.
Qed.

Lemma heap_swap_perm d i j :
  (i < length d)%nat -> (j < length d)%nat -> heap_swap d i j ≡ₚ d.
Proof.
  intros Hi Hj. unfold heap_swap.
  apply Permutation_insert_swap; by apply list_lookup_lookup_total_lt.
Qed.

Lemma sift_child_lt (cmp : btree_iter_set -> btree_iter_set -> bool) d j :
  (j * 2 + 1 < length d)%nat ->
  let r := if (j * 2 + 1 + 1 <? length d)%nat
              && cmp (d !!! (j * 2 + 1)%nat) (d !!! (j * 2 + 1 + 1)%nat)
           then (j * 2 + 1 + 1)%nat else (j * 2 + 1)%nat in
  (r < length d)%nat /\ (j < r)%nat.
Proof.
  intros Hj. cbv zeta.
  destruct (Nat.ltb_spec (j * 2 + 1 + 1) (length d)); cbn [andb].
  - destruct (cmp _ _); lia.
  - lia.
Qed.

Lemma heap_sift_loop_length (cmp : btree_iter_set -> btree_iter_set -> bool) fuel d j :
  length (heap_sift_loop fuel cmp d j) = length d.
Proof.
  revert d j. induction fuel as [|fuel IH]; intros d j; [done|].
  cbn [heap_sift_loop].
  destruct (j * 2 + 1 <? length d)%nat; [|done].
  set (r := if _ && _ then _ else _).
  destruct (cmp (d !!! r) _); [done|]. by rewrite IH, heap_swap_length.
Qed.

Lemma heap_sift_loop_perm (cmp : btree_iter_set -> btree_iter_set -> bool) fuel d j :
  heap_sift_loop fuel cmp d j ≡ₚ d.
Proof.
  revert d j. induction fuel as [|fuel IH]; intros d j; [done|].
  cbn [heap_sift_loop].
  destruct (Nat.ltb_spec (j * 2 + 1) (length d)) as [Hj|]; [|done].
  destruct (sift_child_lt cmp d j Hj) as (Hr & Hjr).
  set (r := if _ && _ then _ else _) in *.
  destruct (cmp (d !!! r) _); [done|]. rewrite IH.
  apply heap_swap_perm; lia.
Qed.

(** Entries in front of the sifted one stay where they are. *)
Lemma heap_sift_loop_before (cmp : btree_iter_set -> btree_iter_set -> bool) fuel d j x :
  (x < j)%nat -> heap_sift_loop fuel cmp d j !!! x = d !!! x.
Proof.
  revert d j. induction fuel as [|fuel IH]; intros d j Hx; [done|].
  cbn [heap_sift_loop].
  destruct (Nat.ltb_spec (j * 2 + 1) (length d)) as [Hj|]; [|done].
  destruct (sift_child_lt cmp d j Hj) as (Hr & Hjr).
  set (r := if _ && _ then _ else _) in *.
  destruct (cmp (d !!! r) _); [done|]. rewrite IH by lia.
  apply heap_swap_lookup_ne; lia.
Qed.

Section heap.
Variable cmp : btree_iter_set -> btree_iter_set -> bool.
Hypothesis cmp_asym : forall a b, cmp a b = true -> cmp b a = false.
Hypothesis cmp_trans :
  forall a b c, cmp a b = false -> cmp b c = false -> cmp a c = false.

Lemma cmp_refl a : cmp a a = false.
Proof. destruct (cmp a a) eqn:E; [|done]. by rewrite (cmp_asym _ _ E) in E. Qed.

(** The child the sift compares with: the one that sorts first. *)
Lemma sift_child_spec d j :
  (j * 2 + 1 < length d)%nat ->
  let r := if (j * 2 + 1 + 1 <? length d)%nat
              && cmp (d !!! (j * 2 + 1)%nat) (d !!! (j * 2 + 1 + 1)%nat)
           then (j * 2 + 1 + 1)%nat else (j * 2 + 1)%nat in
  (r < length d)%nat /\ heap_child j r /\ (j < r)%nat
  /\ forall c, (c < length d)%nat -> heap_child j c ->
       cmp (d !!! r) (d !!! c) = false.
Proof.
  intros Hj. cbv zeta. unfold heap_child.
  destruct (Nat.ltb_spec (j * 2 + 1 + 1) (length d)) as [H2|H2]; cbn [andb].
  - destruct (cmp _ _) eqn:E.
    + split; [lia|]. split; [lia|]. split; [lia|]. intros c Hc [->| ->].
      * replace (2 * j + 1)%nat with (j * 2 + 1)%nat by lia. by apply cmp_asym.
      * replace (2 * j + 2)%nat with (j * 2 + 1 + 1)%nat by lia. apply cmp_refl.
    + split; [lia|]. split; [lia|]. split; [lia|]. intros c Hc [->| ->].
      * replace (2 * j + 1)%nat with (j * 2 + 1)%nat by lia. apply cmp_refl.
      * replace (2 * j + 2)%nat with (j * 2 + 1 + 1)%nat by lia. done.
  - split; [lia|]. split; [lia|]. split; [lia|]. intros c Hc [->| ->]; [|lia].
    replace (2 * j + 1)%nat with (j * 2 + 1)%nat by lia. apply cmp_refl.
Qed.

(** Sifting [j] down repairs a heap whose only fault is at [j]. *)
Lemma heap_sift_loop_heap fuel lo d j :
  (lo <= j)%nat -> (length d <= fuel + j)%nat ->
  (forall p c, (lo <= p)%nat -> p <> j -> (c < length d)%nat ->
     heap_child p c -> cmp (d !!! p) (d !!! c) = false) ->
  (forall p c, (lo <= p)%nat -> heap_child p j -> (c < length d)%nat ->
     heap_child j c -> cmp (d !!! p) (d !!! c) = false) ->
  heap_from cmp lo (heap_sift_loop fuel cmp d j).
Proof.
  revert d j. induction fuel as [|fuel IH]; intros d j Hlo Hfuel H1 H2.
  { intros p c Hp Hc Hpc. cbn [heap_sift_loop]. apply H1; try done.
    unfold heap_child in Hpc. cbn in Hc. lia. }
  cbn [heap_sift_loop].
  destruct (Nat.ltb_spec (j * 2 + 1) (length d)) as [Hj|Hj].
  2:{ intros p c Hp Hc Hpc. apply H1; try done. unfold heap_child in Hpc. lia. }
  destruct (sift_child_spec d j Hj) as (Hr & Hjr & Hlt & Hmin).
  set (r := if _ && _ then _ else _) in *. clearbody r.
  destruct (cmp (d !!! r) (d !!! j)) eqn:E.
  - (* [j] sorts no later than its smaller child *)
    intros p c Hp Hc Hpc. destruct (decide (p = j)) as [->|Hne].
    + eapply cmp_trans; [by apply cmp_asym|]. by apply Hmin.
    + by apply H1.
  - apply IH.
    + lia.
    + rewrite heap_swap_length. lia.
    + rewrite heap_swap_length. intros p c Hp Hpr Hc Hpc.
      destruct (decide (p = j)) as [->|Hpj].
      * (* the children of [j], now below the old [d !!! r] *)
        rewrite heap_swap_lookup_r by lia.
        destruct (decide (c = r)) as [->|Hcr].
        -- by rewrite heap_swap_lookup_l by lia.
        -- rewrite heap_swap_lookup_ne; [by apply Hmin| |].
           ++ done.
           ++ unfold heap_child in Hpc. lia.
      * rewrite (heap_swap_lookup_ne _ _ _ p) by done.
        destruct (decide (c = j)) as [->|Hcj].
        -- rewrite heap_swap_lookup_r by lia. by apply (H2 p r).
        -- destruct (decide (c = r)) as [->|Hcr].
           { unfold heap_child in *. lia. }
           rewrite heap_swap_lookup_ne by done. by apply H1.
    + rewrite heap_swap_length. intros p c Hp Hpr Hc Hrc.
      assert (p = j) as -> by (unfold heap_child in *; lia).
      rewrite heap_swap_lookup_r by lia.
      rewrite heap_swap_lookup_ne.
      * apply H1; try done; lia.
      * unfold heap_child in *. lia.
      * unfold heap_child in *. lia.
Qed.

Lemma heap_sift_heap lo d j :
  (lo <= j)%nat ->
  (forall p c, (lo <= p)%nat -> p <> j -> (c < length d)%nat ->
     heap_child p c -> cmp (d !!! p) (d !!! c) = false) ->
  (forall p c, (lo <= p)%nat -> heap_child p j -> (c < length d)%nat ->
     heap_child j c -> cmp (d !!! p) (d !!! c) = false) ->
  heap_from cmp lo (heap_sift cmp d j).
Proof. intros. apply heap_sift_loop_heap; try done. lia. Qed.

(** The root sorts no later than any entry. *)
Lemma heap_root_min d x :
  is_heap cmp d -> (x < length d)%nat -> cmp (d !!! 0%nat) (d !!! x) = false.
Proof.
  intros Hh. induction x as [x IH] using lt_wf_ind. intros Hx.
  destruct x as [|x]; [apply cmp_refl|].
  assert (exists p, heap_child p (S x)) as [p Hp].
  { exists (x / 2)%nat. unfold heap_child.
    pose proof (Nat.div_mod_eq x 2). pose proof (Nat.mod_upper_bound x 2). lia. }
  eapply cmp_trans; [apply (IH p)|apply Hh; try done; lia].
  - unfold heap_child in Hp. lia.
  - unfold heap_child in Hp. lia.
Qed.

(** The smaller child of the root sorts no later than any entry but the
    root. *)
Lemma heap_second_min d x :
  is_heap cmp d -> (0 < x < length d)%nat ->
  cmp (d !!! fixup_second cmp d) (d !!! x) = false.
Proof.
  intros Hh. induction x as [x IH] using lt_wf_ind. intros Hx.
  assert (2 <= length d)%nat as Hlen by lia.
  destruct (sift_child_spec d 0) as (_ & _ & _ & Hmin); [lia|].
  cbn [Nat.mul Nat.add] in Hmin.
  unfold fixup_second.
  destruct (decide (x <= 2)%nat) as [Hle|Hgt].
  - apply Hmin; [lia|]. unfold heap_child. lia.
  - assert (exists p, heap_child p x /\ (0 < p < x)%nat) as (p & Hp & Hpx).
    { exists ((x - 1) / 2)%nat. unfold heap_child.
      pose proof (Nat.div_mod_eq (x - 1) 2).
      pose proof (Nat.mod_upper_bound (x - 1) 2). lia. }
    eapply cmp_trans; [apply (IH p); lia|]. apply Hh; try done; lia.
Qed.

End heap.

(** Sifting only looks at the entries of the heap, so two comparisons that
    agree on them sift alike. *)
Lemma heap_sift_loop_ext cmp cmp' fuel d j :
  (forall a b, a ∈ d -> b ∈ d -> cmp a b = cmp' a b) ->
  heap_sift_loop fuel cmp d j = heap_sift_loop fuel cmp' d j.
Proof.
  revert d j. induction fuel as [|fuel IH]; intros d j Hext; [done|].
  cbn [heap_sift_loop].
  destruct (Nat.ltb_spec (j * 2 + 1) (length d)) as [Hj|]; [|done].
  assert (forall x y, (x < length d)%nat -> (y < length d)%nat ->
            cmp (d !!! x) (d !!! y) = cmp' (d !!! x) (d !!! y)) as Hx.
  { intros x y Hx Hy. apply Hext; by apply list_elem_of_lookup_total_2. }
  assert ((if (j * 2 + 1 + 1 <? length d)%nat
              && cmp (d !!! (j * 2 + 1)%nat) (d !!! (j * 2 + 1 + 1)%nat)
           then (j * 2 + 1 + 1)%nat else (j * 2 + 1)%nat)
          = (if (j * 2 + 1 + 1 <? length d)%nat
              && cmp' (d !!! (j * 2 + 1)%nat) (d !!! (j * 2 + 1 + 1)%nat)
           then (j * 2 + 1 + 1)%nat else (j * 2 + 1)%nat)) as ->.
  { destruct (Nat.ltb_spec (j * 2 + 1 + 1) (length d)); [|done].
    cbn [andb]. rewrite Hx by lia. done. }
  set (r := if _ && _ then _ else _).
  assert (r < length d)%nat as Hr.
  { subst r. destruct (Nat.ltb_spec (j * 2 + 1 + 1) (length d)); cbn [andb].
    - destruct (cmp' _ _); lia.
    - lia. }
  rewrite Hx by lia. destruct (cmp' (d !!! r) (d !!! j)); [done|].
  apply IH. intros a b Ha Hb. apply Hext.
  - by rewrite <- (heap_swap_perm d r j) by lia.
  - by rewrite <- (heap_swap_perm d r j) by lia.
Qed.

Lemma heap_sift_ext cmp cmp' d j :
  (forall a b, a ∈ d -> b ∈ d -> cmp a b = cmp' a b) ->
  heap_sift cmp d j = heap_sift cmp' d j.
Proof. apply heap_sift_loop_ext. Qed.

Lemma heap_from_ext cmp cmp' lo d :
  (forall a b, a ∈ d -> b ∈ d -> cmp a b = cmp' a b) ->
  heap_from cmp lo d -> heap_from cmp' lo d.
Proof.
  intros Hext Hh p c Hp Hc Hpc. rewrite <- Hext.
  - by apply Hh.
  - apply list_elem_of_lookup_total_2. unfold heap_child in Hpc. lia.
  - by apply list_elem_of_lookup_total_2.
Qed.

(** *** The ideal comparison *)

Lemma cmp_by_asym ord m a b : cmp_by ord m a b = true -> cmp_by ord m b a = false.
Proof.
  unfold cmp_by.
  destruct (Z.eqb_spec (ord (key_at m a) - ord (key_at m b)) 0),
           (Z.eqb_spec (ord (key_at m b) - ord (key_at m a)) 0);
    cbn [negb]; try lia.
  rewrite !Nat.ltb_lt, Nat.ltb_ge. lia.
Qed.

Lemma cmp_by_trans ord m a b c :
  cmp_by ord m a b = false -> cmp_by ord m b c = false ->
  cmp_by ord m a c = false.
Proof.
  unfold cmp_by.
  destruct (Z.eqb_spec (ord (key_at m a) - ord (key_at m b)) 0),
           (Z.eqb_spec (ord (key_at m b) - ord (key_at m c)) 0),
           (Z.eqb_spec (ord (key_at m a) - ord (key_at m c)) 0);
    cbn [negb]; rewrite ?Nat.ltb_ge; try lia.
Qed.

(** [cmp_by ord m a b = false]: [a] sorts no later than [b]. *)
Lemma cmp_by_false ord m a b :
  cmp_by ord m a b = false <->
  ord (key_at m a) < ord (key_at m b)
  \/ (ord (key_at m a) = ord (key_at m b) /\ (iter_k b <= iter_k a)%nat).
Proof.
  unfold cmp_by.
  destruct (Z.eqb_spec (ord (key_at m a) - ord (key_at m b)) 0);
    cbn [negb]; rewrite ?Nat.ltb_ge; lia.
Qed.

Lemma cmp_by_ext ord m m' a b :
  ord (key_at m' a) = ord (key_at m a) ->
  ord (key_at m' b) = ord (key_at m b) ->
  cmp_by ord m' a b = cmp_by ord m a b.
Proof. unfold cmp_by. by intros -> ->. Qed.

Lemma key_ok_start k : key_ok k -> KEY_START k = KEY_OFFSET k - KEY_SIZE k.
Proof. intros (? & ? & ?). unfold KEY_START. apply u64_small. lia. Qed.

Lemma key_ok_start_range k : key_ok k -> 0 <= KEY_START k <= KEY_OFFSET k.
Proof. intros H. rewrite (key_ok_start _ H). destruct H as (? & ? & ?). lia. Qed.

Lemma bkey_cmp_ok a b :
  0 <= KEY_OFFSET a < 2 ^ 63 -> 0 <= KEY_OFFSET b < 2 ^ 63 ->
  bkey_cmp a b = KEY_OFFSET a - KEY_OFFSET b.
Proof. intros. unfold bkey_cmp. apply s64_small. lia. Qed.

Lemma START_KEY_range k : key_ok k -> 0 <= KEY_OFFSET (START_KEY k) < 2 ^ 63.
Proof.
  intros H. rewrite KEY_OFFSET_START_KEY. pose proof (key_ok_start_range _ H).
  destruct H as (? & ? & ?). lia.
Qed.

Lemma key_ok_offset_range k : key_ok k -> 0 <= KEY_OFFSET k < 2 ^ 63.
Proof. intros (? & ? & ?). lia. Qed.

Lemma bch_extent_sort_cmp_ok m a b :
  key_ok (key_at m a) -> key_ok (key_at m b) ->
  bch_extent_sort_cmp m a b = cmp_by KEY_START m a b.
Proof.
  intros Ha Hb. unfold bch_extent_sort_cmp, cmp_by.
  rewrite bkey_cmp_ok by by apply START_KEY_range.
  by rewrite !KEY_OFFSET_START_KEY.
Qed.

Lemma bch_key_sort_cmp_ok m a b :
  key_ok (key_at m a) -> key_ok (key_at m b) ->
  bch_key_sort_cmp m a b = cmp_by KEY_OFFSET m a b.
Proof.
  intros Ha Hb. unfold bch_key_sort_cmp, cmp_by.
  by rewrite bkey_cmp_ok by by apply key_ok_offset_range.
Qed.

(** *** Building the heap *)

Lemma heapify_loop_heap cmp d n :
  (forall a b, cmp a b = true -> cmp b a = false) ->
  (forall a b c, cmp a b = false -> cmp b c = false -> cmp a c = false) ->
  heap_from cmp n d ->
  heap_from cmp 0 (foldl (heap_sift cmp) d (rev (seq 0 n)))
  /\ foldl (heap_sift cmp) d (rev (seq 0 n)) ≡ₚ d.
Proof.
  intros Hasym Htrans. revert d. induction n as [|n IH]; intros d Hh; [done|].
  rewrite seq_S, rev_app_distr. cbn [rev app foldl Nat.add].
  destruct (IH (heap_sift cmp d n)) as [H1 H2].
  - apply heap_sift_heap; try done.
    + intros p c Hp Hne Hc Hpc. apply Hh; try done. lia.
    + intros p c Hp Hpn. unfold heap_child in Hpn. lia.
  - split; [done|]. rewrite H2. by apply heap_sift_loop_perm.
Qed.

Lemma heapify_heap cmp d :
  (forall a b, cmp a b = true -> cmp b a = false) ->
  (forall a b c, cmp a b = false -> cmp b c = false -> cmp a c = false) ->
  is_heap cmp (heapify cmp d) /\ heapify cmp d ≡ₚ d.
Proof.
  intros Hasym Htrans. apply heapify_loop_heap; try done.
  intros p c Hp Hc Hpc. unfold heap_child in Hpc.
  pose proof (Nat.div_mod_eq (length d) 2).
  pose proof (Nat.mod_upper_bound (length d) 2). lia.
Qed.

Lemma heapify_ext cmp cmp' d :
  (forall a b, a ∈ d -> b ∈ d -> cmp a b = cmp' a b) ->
  heapify cmp d = heapify cmp' d.
Proof.
  intros Hext. unfold heapify. generalize (rev (seq 0 (length d / 2))).
  intros idxs. revert d Hext. induction idxs as [|i idxs IH]; intros d Hext; [done|].
  cbn [foldl]. rewrite (heap_sift_ext cmp cmp') by done.
  apply IH. intros a b Ha Hb.
  apply Hext; by rewrite <- (heap_sift_loop_perm cmp' (length d) d i).
Qed.

(** ** Cursors and the store *)

Lemma keys_of_cons m s :
  (iter_k s < iter_end s <= length m)%nat ->
  keys_of m s = key_at m s :: keys_of m (cursor_next s).
Proof.
  intros Hs. unfold keys_of, key_at, cursor_next, bkey_next. cbn [iter_k iter_end].
  rewrite (drop_S m (m !!! iter_k s) (iter_k s)).
  - replace (iter_end s - iter_k s)%nat with (S (iter_end s - S (iter_k s))) by lia.
    done.
  - apply list_lookup_lookup_total_lt. lia.
Qed.

Lemma keys_of_insert_out m s a x :
  (a < iter_k s \/ iter_end s <= a)%nat ->
  keys_of (<[a := x]> m) s = keys_of m s.
Proof.
  intros Ha. unfold keys_of.
  destruct (decide (a < iter_k s)%nat).
  - by rewrite drop_insert_lt.
  - rewrite drop_insert_ge by lia. apply take_insert_ge. lia.
Qed.

Lemma key_at_insert_ne m s a x :
  a <> iter_k s -> key_at (<[a := x]> m) s = key_at m s.
Proof. intros. unfold key_at. by apply list_lookup_total_insert_ne. Qed.

Lemma key_at_insert_eq m s x :
  (iter_k s < length m)%nat -> key_at (<[iter_k s := x]> m) s = x.
Proof. intros. unfold key_at. by apply list_lookup_total_insert_eq. Qed.

Lemma keys_of_insert_head m s x :
  (iter_k s < iter_end s <= length m)%nat ->
  keys_of (<[iter_k s := x]> m) s = x :: keys_of m (cursor_next s).
Proof.
  intros Hs. rewrite keys_of_cons by by rewrite length_insert.
  rewrite key_at_insert_eq by lia. f_equal.
  apply keys_of_insert_out. unfold cursor_next, bkey_next. cbn. lia.
Qed.

Lemma keys_of_nil m s : (iter_end s <= iter_k s)%nat -> keys_of m s = [].
Proof.
  intros. unfold keys_of.
  replace (iter_end s - iter_k s)%nat with 0%nat by lia. done.
Qed.

Lemma cursor_weight_cons m s :
  (iter_k s < iter_end s <= length m)%nat ->
  cursor_weight m s
  = (key_weight (key_at m s) + cursor_weight m (cursor_next s))%nat.
Proof. intros. unfold cursor_weight. by rewrite keys_of_cons. Qed.

(** *** Chains *)

Section chains.
Variables ord nxt : bkey -> Z.
Hypothesis ord_nxt : forall k, key_ok k -> ord k <= nxt k.

Lemma chain_weaken lo lo' ks :
  lo' <= lo -> chain ord nxt lo ks -> chain ord nxt lo' ks.
Proof.
  destruct ks; cbn; [done|]. intros ? (? & ? & ?). split; [done|]. split; [lia|done].
Qed.

(** A chain may start later than it was allowed to. *)
Lemma chain_raise lo lo' k ks :
  lo' <= ord k -> chain ord nxt lo (k :: ks) -> chain ord nxt lo' (k :: ks).
Proof. cbn. intros ? (? & ? & ?). done. Qed.

Lemma chain_tail lo lo' k ks :
  lo' <= nxt k -> chain ord nxt lo (k :: ks) -> chain ord nxt lo' ks.
Proof. cbn. intros ? (? & ? & ?). by eapply chain_weaken. Qed.

Lemma chain_head_ok lo k ks : chain ord nxt lo (k :: ks) -> key_ok k /\ lo <= ord k.
Proof. cbn. tauto. Qed.

(** The second key of a chain sorts no earlier than the first. *)
Lemma chain_second lo k k' ks :
  chain ord nxt lo (k :: k' :: ks) -> ord k <= ord k' /\ nxt k <= ord k'.
Proof. cbn. intros (Hk & ? & ? & ? & ?). pose proof (ord_nxt _ Hk). lia. Qed.

(** Replacing the head by a key that sorts no earlier and is followed no
    later. *)
Lemma chain_replace_head lo k k' ks :
  key_ok k' -> lo <= ord k' -> nxt k' <= nxt k ->
  chain ord nxt lo (k :: ks) -> chain ord nxt lo (k' :: ks).
Proof.
  cbn. intros ? ? ? (? & ? & ?). split; [done|]. split; [done|].
  by eapply chain_weaken.
Qed.

Lemma chain_app lo ks ks' :
  chain ord nxt lo (ks ++ ks') <->
  chain ord nxt lo ks /\ chain ord nxt (foldl (fun _ k => nxt k) lo ks) ks'.
Proof.
  revert lo. induction ks as [|k ks IH]; intros lo; cbn; [tauto|].
  rewrite IH. tauto.
Qed.

End chains.

(** *** Heap updates made by the merge *)

Lemma take_swap_lookup d i x :
  (i < length d)%nat -> (x < length d - 1)%nat ->
  take (length d - 1) (heap_swap d i (length d - 1)) !!! x
  = if decide (x = i) then d !!! (length d - 1)%nat else d !!! x.
Proof.
  intros Hi Hx. rewrite lookup_total_take_lt by done.
  destruct (decide (x = i)) as [->|Hne].
  - apply heap_swap_lookup_l; lia.
  - apply heap_swap_lookup_ne; [done|lia].
Qed.

Lemma take_swap_length d i :
  length (take (length d - 1) (heap_swap d i (length d - 1))) = (length d - 1)%nat.
Proof. rewrite length_take, heap_swap_length. lia. Qed.

Lemma take_swap_perm d i :
  (i < length d)%nat ->
  take (length d - 1) (heap_swap d i (length d - 1)) ≡ₚ delete i d.
Proof.
  intros Hi.
  assert (heap_swap d i (length d - 1)
          = take (length d - 1) (heap_swap d i (length d - 1)) ++ [d !!! i]) as E.
  { rewrite <- (take_drop (length d - 1) (heap_swap d i (length d - 1))) at 1.
    f_equal. apply list_eq. intros [|x].
    - rewrite lookup_drop. cbn. rewrite Nat.add_0_r.
      rewrite list_lookup_lookup_total_lt by (rewrite heap_swap_length; lia).
      by rewrite heap_swap_lookup_r by lia.
    - rewrite lookup_drop. cbn. apply lookup_ge_None_2.
      rewrite heap_swap_length. lia. }
  pose proof (heap_swap_perm d i (length d - 1) Hi ltac:(lia)) as Hp.
  rewrite E in Hp.
  apply (Permutation_cons_inv (a := d !!! i)).
  rewrite <- (delete_Permutation d i (d !!! i))
    by by apply list_lookup_lookup_total_lt.
  by rewrite Permutation_cons_append.
Qed.

Lemma sort_key_next_spec d i :
  (i < length d)%nat ->
  sort_key_next d i =
  if decide (S (iter_k (d !!! i)) = iter_end (d !!! i))
  then take (length d - 1) (heap_swap d i (length d - 1))
  else <[i := cursor_next (d !!! i)]> d.
Proof.
  intros Hi. unfold sort_key_next, bkey_next. cbn [iter_k iter_end].
  destruct (Nat.eqb_spec (S (iter_k (d !!! i))) (iter_end (d !!! i))) as [E|E].
  - rewrite decide_True by done. unfold heap_swap.
    destruct (decide (i = length d - 1)%nat) as [->|Hne].
    + rewrite list_insert_insert_eq.
      by rewrite !take_insert_ge by lia.
    + rewrite !take_insert_lt by lia. f_equal.
      by rewrite take_insert_ge by lia.
  - by rewrite decide_False by done.
Qed.

Section heap_updates.
Variable cmp : btree_iter_set -> btree_iter_set -> bool.
Hypothesis cmp_asym : forall a b, cmp a b = true -> cmp b a = false.
Hypothesis cmp_trans :
  forall a b c, cmp a b = false -> cmp b c = false -> cmp a c = false.

(** A child of the root is replaced by an entry that sorts no earlier than
    the root, and re-sifted. *)
Lemma heap_replace_child d i x :
  is_heap cmp d -> heap_child 0 i -> (i < length d)%nat ->
  cmp (d !!! 0%nat) x = false ->
  is_heap cmp (heap_sift cmp (<[i := x]> d) i).
Proof.
  intros Hh Hi Hlt Hx. apply heap_sift_heap; try done; [lia| |].
  - rewrite length_insert. intros p c _ Hp Hc Hpc.
    rewrite (list_lookup_total_insert_ne _ _ p) by done.
    destruct (decide (c = i)) as [->|Hne].
    + rewrite list_lookup_total_insert_eq by done.
      assert (p = 0)%nat as -> by (unfold heap_child in *; lia). done.
    + rewrite list_lookup_total_insert_ne by done. apply Hh; [lia|done|done].
  - rewrite length_insert. intros p c _ Hp Hc Hic.
    assert (p = 0)%nat as -> by (unfold heap_child in *; lia).
    rewrite !list_lookup_total_insert_ne by (unfold heap_child in *; lia).
    by apply heap_root_min.
Qed.

(** A child of the root is overwritten by the last entry, the heap shrinks
    by one, and the entry is re-sifted. *)
Lemma heap_remove_child d i :
  is_heap cmp d -> heap_child 0 i -> (i < length d)%nat ->
  is_heap cmp
    (heap_sift cmp (take (length d - 1) (heap_swap d i (length d - 1))) i).
Proof.
  intros Hh Hi Hlt. apply heap_sift_heap; try done; [lia| |].
  - rewrite take_swap_length. intros p c _ Hp Hc Hpc.
    rewrite !take_swap_lookup by (unfold heap_child in *; lia).
    rewrite (decide_False (P := p = i)) by done.
    destruct (decide (c = i)) as [->|Hne].
    + assert (p = 0)%nat as -> by (unfold heap_child in *; lia).
      apply heap_root_min; try done. lia.
    + apply Hh; [lia|lia|done].
  - rewrite take_swap_length. intros p c _ Hp Hc Hic.
    assert (p = 0)%nat as -> by (unfold heap_child in *; lia).
    rewrite !take_swap_lookup by (unfold heap_child in *; lia).
    rewrite !decide_False by (unfold heap_child in *; lia).
    apply heap_root_min; try done. lia.
Qed.

(** The root is replaced by any entry and re-sifted. *)
Lemma heap_replace_root d x :
  is_heap cmp d -> is_heap cmp (heap_sift cmp (<[0%nat := x]> d) 0).
Proof.
  intros Hh. apply heap_sift_heap; try done.
  - rewrite length_insert. intros p c _ Hp Hc Hpc.
    rewrite !list_lookup_total_insert_ne by (unfold heap_child in *; lia).
    apply Hh; [lia|done|done].
  - intros p c _ Hp. unfold heap_child in Hp. lia.
Qed.

Lemma heap_pop_heap d : is_heap cmp d -> is_heap cmp (heap_pop cmp d).
Proof.
  intros Hh. unfold heap_pop. apply heap_sift_heap; try done.
  - rewrite take_swap_length. intros p c _ Hp Hc Hpc.
    destruct (decide (0 < length d)%nat); [|lia].
    rewrite !take_swap_lookup by (unfold heap_child in *; lia).
    rewrite !decide_False by (unfold heap_child in *; lia).
    apply Hh; [lia|lia|done].
  - intros p c _ Hp. unfold heap_child in Hp. lia.
Qed.

(** The comparison changes for one child of the root only, which now sorts
    no earlier than the root; the child is re-sifted. *)
Lemma heap_change_child cmp0 d i :
  is_heap cmp0 d ->
  heap_child 0 i -> (i < length d)%nat ->
  (forall x y, (x < length d)%nat -> (y < length d)%nat -> x <> i -> y <> i ->
     cmp (d !!! x) (d !!! y) = cmp0 (d !!! x) (d !!! y)) ->
  cmp (d !!! 0%nat) (d !!! i) = false ->
  (forall c, (c < length d)%nat -> cmp0 (d !!! 0%nat) (d !!! c) = false) ->
  is_heap cmp (heap_sift cmp d i).
Proof.
  intros Hh Hi Hlt Hsame Htop Hmin. apply heap_sift_heap; try done; [lia| |].
  - intros p c _ Hp Hc Hpc. destruct (decide (c = i)) as [->|Hne].
    + assert (p = 0)%nat as -> by (unfold heap_child in *; lia). done.
    + rewrite Hsame; try done; [|unfold heap_child in *; lia].
      apply Hh; [lia|done|done].
  - intros p c _ Hp Hc Hic.
    assert (p = 0)%nat as -> by (unfold heap_child in *; lia).
    rewrite Hsame; try done; try (unfold heap_child in *; lia).
    by apply Hmin.
Qed.

End heap_updates.

(** ** Cursors that keep apart *)

Lemma insert_perm {A} (l : list A) i x y :
  l !! i = Some y -> <[i := x]> l ≡ₚ x :: delete i l.
Proof.
  intros Hi. rewrite insert_take_drop by (by eapply lookup_lt_Some).
  rewrite delete_take_drop. by rewrite <- Permutation_middle.
Qed.

Lemma cursors_apart_perm d d' :
  d ≡ₚ d' -> cursors_apart d -> cursors_apart d'.
Proof.
  intros Hp [Hnd Hd]. split.
  - by rewrite <- Hp.
  - intros s t Hs Ht. apply Hd; by rewrite Hp.
Qed.

Lemma cursors_apart_tail s d : cursors_apart (s :: d) -> cursors_apart d.
Proof.
  intros [Hnd Hd]. split.
  - rewrite fmap_cons in Hnd. by apply NoDup_cons_1_2 in Hnd.
  - intros a b Ha Hb. apply Hd; by apply list_elem_of_further.
Qed.

Lemma cursors_apart_next s d :
  (S (iter_k s) < iter_end s)%nat ->
  cursors_apart (s :: d) -> cursors_apart (cursor_next s :: d).
Proof.
  intros Hs [Hnd Hd]. split; [done|].
  assert (forall t, t ∈ d ->
            iter_end s = iter_end t
            \/ (iter_end s <= iter_k t)%nat \/ (iter_end t <= iter_k s)%nat) as Hst.
  { intros t Ht. apply Hd; [apply list_elem_of_here|by apply list_elem_of_further]. }
  intros a b Ha Hb. apply elem_of_cons in Ha as [->|Ha], Hb as [->|Hb].
  - by left.
  - destruct (Hst b Hb) as [?|[?|?]]; cbn; [by left|by right; left|].
    right; right. unfold bkey_next. lia.
  - destruct (Hst a Ha) as [?|[?|?]]; cbn; [by left|by right; right|].
    right; left. unfold bkey_next. lia.
  - apply Hd; by apply list_elem_of_further.
Qed.

(** The head of the list keeps away from every other cursor. *)
Lemma cursors_apart_head s d t :
  cursors_apart (s :: d) -> t ∈ d ->
  (iter_end s <= iter_k t)%nat \/ (iter_end t <= iter_k s)%nat.
Proof.
  intros [Hnd Hd] Ht. rewrite fmap_cons in Hnd. apply NoDup_cons_1_1 in Hnd as Hn.
  destruct (Hd s t) as [E|?]; [apply list_elem_of_here|by apply list_elem_of_further| |done].
  exfalso. apply Hn. rewrite E. by apply list_elem_of_fmap_2.
Qed.

Lemma cursors_apart_lookup d x y :
  cursors_apart d -> x <> y -> (x < length d)%nat -> (y < length d)%nat ->
  (iter_end (d !!! x) <= iter_k (d !!! y))%nat
  \/ (iter_end (d !!! y) <= iter_k (d !!! x))%nat.
Proof.
  intros [Hnd Hd] Hne Hx Hy.
  destruct (Hd (d !!! x) (d !!! y)) as [E|?];
    [by apply list_elem_of_lookup_total_2..| |done].
  exfalso. apply Hne. eapply (NoDup_lookup _ _ _ _ Hnd).
  - rewrite list_lookup_fmap, list_lookup_lookup_total_lt by done. done.
  - rewrite list_lookup_fmap, list_lookup_lookup_total_lt by done. cbn. by rewrite E.
Qed.

(** Advancing the cursor at [i], in the two shapes the code gives it. *)
Lemma advance_perm d i :
  (i < length d)%nat ->
  (if decide (S (iter_k (d !!! i)) = iter_end (d !!! i))
   then take (length d - 1) (heap_swap d i (length d - 1))
   else <[i := cursor_next (d !!! i)]> d)
  ≡ₚ (if decide (S (iter_k (d !!! i)) = iter_end (d !!! i))
      then delete i d
      else cursor_next (d !!! i) :: delete i d).
Proof.
  intros Hi. destruct (decide _).
  - by apply take_swap_perm.
  - eapply insert_perm. by apply list_lookup_lookup_total_lt.
Qed.

Lemma lookup_total_perm_head (d : list btree_iter_set) i :
  (i < length d)%nat -> d ≡ₚ d !!! i :: delete i d.
Proof. intros. apply delete_Permutation. by apply list_lookup_lookup_total_lt. Qed.

Lemma Forall_cursors (P : btree_iter_set -> Prop) d :
  (forall j, (j < length d)%nat -> P (d !!! j)) -> Forall P d.
Proof.
  intros H. apply Forall_lookup. intros j t Hj.
  rewrite <- (list_lookup_total_correct _ _ _ Hj). apply H.
  by eapply lookup_lt_Some.
Qed.

Lemma Forall_delete_index {A} `{!Inhabited A} (P : A -> Prop) (d : list A) i :
  (forall x, (x < length d)%nat -> x <> i -> P (d !!! x)) ->
  Forall P (delete i d).
Proof.
  intros H. apply Forall_lookup. intros j t Hj.
  rewrite list_lookup_delete in Hj. destruct (decide (j < i)%nat).
  - rewrite <- (list_lookup_total_correct _ _ _ Hj). apply H; [|lia].
    by eapply lookup_lt_Some.
  - rewrite <- (list_lookup_total_correct _ _ _ Hj). apply H; [|lia].
    by eapply lookup_lt_Some.
Qed.

(** ** Invariants under the steps shared by both merges *)

Section merge.
Variables ord nxt : bkey -> Z.
Hypothesis ord_nxt : forall k, key_ok k -> ord k <= nxt k.
Variable ccmp : list bkey -> btree_iter_set -> btree_iter_set -> bool.
Hypothesis ccmp_ok : forall m a b,
  key_ok (key_at m a) -> key_ok (key_at m b) -> ccmp m a b = cmp_by ord m a b.

Lemma cursor_ok_head lo m s :
  cursor_ok ord nxt lo m s -> key_ok (key_at m s) /\ lo <= ord (key_at m s).
Proof.
  intros [Hr Hc]. rewrite keys_of_cons in Hc by done. by eapply chain_head_ok.
Qed.

Lemma cursor_ok_raise lo lo' m s :
  cursor_ok ord nxt lo m s -> lo' <= ord (key_at m s) ->
  cursor_ok ord nxt lo' m s.
Proof.
  intros [Hr Hc] Hlo. split; [done|]. rewrite keys_of_cons in * by done.
  by eapply chain_raise.
Qed.

Lemma cursor_ok_next lo lo' m s :
  cursor_ok ord nxt lo m s -> S (iter_k s) <> iter_end s ->
  lo' <= nxt (key_at m s) ->
  cursor_ok ord nxt lo' m (cursor_next s).
Proof.
  intros [Hr Hc] Hne Hlo. split; [unfold cursor_next, bkey_next; cbn [iter_k iter_end]; lia|].
  rewrite keys_of_cons in Hc by done. by eapply chain_tail.
Qed.

Lemma cursor_next_ord lo m s :
  cursor_ok ord nxt lo m s -> S (iter_k s) <> iter_end s ->
  ord (key_at m s) <= ord (key_at m (cursor_next s))
  /\ nxt (key_at m s) <= ord (key_at m (cursor_next s)).
Proof.
  intros [Hr Hc] Hne. rewrite keys_of_cons in Hc by done.
  rewrite (keys_of_cons m (cursor_next s)) in Hc by (unfold cursor_next, bkey_next; cbn [iter_k iter_end]; lia).
  by eapply chain_second.
Qed.

(** Advancing a cursor does not move it in front of a cursor it was
    behind. *)
Lemma cmp_by_next lo m s t :
  cursor_ok ord nxt lo m s -> S (iter_k s) <> iter_end s ->
  (iter_end s <= iter_k t)%nat \/ (iter_end t <= iter_k s)%nat ->
  (iter_k t < iter_end t)%nat ->
  cmp_by ord m t s = false -> cmp_by ord m t (cursor_next s) = false.
Proof.
  intros Hs Hne Hap Ht. destruct (cursor_next_ord _ _ _ Hs Hne) as [Ho _].
  destruct Hs as [Hr _]. rewrite !cmp_by_false. cbn [cursor_next iter_k].
  unfold bkey_next. lia.
Qed.

Lemma sift_ccmp m d j :
  Forall (fun s => key_ok (key_at m s)) d ->
  heap_sift (ccmp m) d j = heap_sift (cmp_by ord m) d j.
Proof.
  intros Hd. apply heap_sift_ext. intros a b Ha Hb.
  rewrite Forall_forall in Hd. apply ccmp_ok; by apply Hd.
Qed.

Lemma inv_heads_ok lo iter :
  iter_inv ord nxt lo iter ->
  Forall (fun s => key_ok (key_at (store iter) s)) (data iter).
Proof.
  intros [Hc _ _]. eapply Forall_impl; [exact Hc|].
  intros s Hs. by apply cursor_ok_head in Hs as [? _].
Qed.

Lemma inv_cursor_at lo iter x :
  iter_inv ord nxt lo iter -> (x < used iter)%nat ->
  cursor_ok ord nxt lo (store iter) (data iter !!! x).
Proof. intros [Hc _ _] Hx. by apply Forall_lookup_total_1. Qed.

(** The cursor at [i], the root or one of its children, moves on by one
    key and is re-sifted. *)
Lemma advance_inv lo lo' m d i d1 :
  iter_inv ord nxt lo (mk_iter m d) ->
  (i < length d)%nat -> (i = 0%nat \/ heap_child 0 i) ->
  d1 = (if decide (S (iter_k (d !!! i)) = iter_end (d !!! i))
        then take (length d - 1) (heap_swap d i (length d - 1))
        else <[i := cursor_next (d !!! i)]> d) ->
  lo' <= nxt (key_at m (d !!! i)) ->
  (forall x, (x < length d)%nat -> x <> i -> lo' <= ord (key_at m (d !!! x))) ->
  let d' := heap_sift (ccmp m) d1 i in
  iter_inv ord nxt lo' (mk_iter m d')
  /\ (iter_weight (mk_iter m d') + key_weight (key_at m (d !!! i))
      = iter_weight (mk_iter m d))%nat
  /\ d' ≡ₚ advanced (d !!! i) (delete i d)
  /\ ((0 < i)%nat -> d' !!! 0%nat = d !!! 0%nat).
Proof.
  intros Hinv Hi Hroot Hd1 Hlo' Hothers d'.
  pose proof Hinv as [Hc Hap Hh]. cbn [store data] in *.
  set (s := d !!! i) in *.
  assert (cursor_ok ord nxt lo m s) as Hs by by apply Forall_lookup_total_1.
  pose proof (lookup_total_perm_head d i Hi) as Hperm. fold s in Hperm.
  assert (Forall (cursor_ok ord nxt lo' m) (delete i d)) as Hrest.
  { apply Forall_delete_index. intros x Hx Hne.
    eapply cursor_ok_raise; [by apply Forall_lookup_total_1|by apply Hothers]. }
  assert (d1 ≡ₚ (if decide (S (iter_k s) = iter_end s)
                 then delete i d else cursor_next s :: delete i d)) as Hp1.
  { rewrite Hd1. by apply advance_perm. }
  assert (Forall (cursor_ok ord nxt lo' m) d1) as Hc1.
  { rewrite Hp1. destruct (decide _); [done|].
    apply Forall_cons. split; [|done]. by eapply cursor_ok_next. }
  assert (Forall (fun s => key_ok (key_at m s)) d1) as Hok1.
  { eapply Forall_impl; [exact Hc1|]. intros t Ht.
    by apply cursor_ok_head in Ht as [? _]. }
  assert (d' ≡ₚ d1) as Hp'.
  { subst d'. apply heap_sift_loop_perm. }
  split; [|split; [|split]].
  - split; cbn [store data].
    + by rewrite Hp'.
    + apply (cursors_apart_perm d1); [done|].
      apply (cursors_apart_perm _ _ Hperm) in Hap.
      eapply cursors_apart_perm; [symmetry; exact Hp1|].
      destruct (decide _).
      * by eapply cursors_apart_tail.
      * apply cursors_apart_next; [|done]. destruct Hs as [? _]. lia.
    + subst d'. rewrite sift_ccmp by done. rewrite Hd1.
      destruct Hroot as [->|Hchild].
      * destruct (decide _).
        -- apply heap_pop_heap; [apply cmp_by_asym|apply cmp_by_trans|done].
        -- apply heap_replace_root; [apply cmp_by_asym|apply cmp_by_trans|done].
      * destruct (decide _).
        -- apply heap_remove_child;
             [apply cmp_by_asym|apply cmp_by_trans|done|done|done].
        -- apply heap_replace_child;
             [apply cmp_by_asym|apply cmp_by_trans|done|done|done|].
           assert (0 <> i)%nat as H0i by (unfold heap_child in Hchild; lia).
           eapply cmp_by_next; [exact Hs|done| | |].
           ++ destruct (cursors_apart_lookup d i 0 Hap) as [?|?];
                [lia|lia|lia|by left|by right].
           ++ assert (cursor_ok ord nxt lo m (d !!! 0%nat)) as [? _]; [|lia].
              apply Forall_lookup_total_1; [done|lia].
           ++ apply heap_root_min;
                [apply cmp_by_asym|apply cmp_by_trans|done|done].
  - unfold iter_weight. cbn [store data]. rewrite Hp', Hp1, Hperm.
    cbn [sum_list_with]. rewrite (cursor_weight_cons m s) by apply Hs.
    destruct (decide _) as [E|E]; cbn [sum_list_with].
    + unfold cursor_weight at 2.
      rewrite (keys_of_nil m (cursor_next s))
        by (unfold cursor_next, bkey_next; cbn [iter_k iter_end]; lia).
      cbn [sum_list_with]. lia.
    + lia.
  - by rewrite Hp', Hp1.
  - intros H0. subst d'. unfold heap_sift.
    rewrite heap_sift_loop_before by done. rewrite Hd1.
    destruct (decide _).
    + rewrite take_swap_lookup by lia. by rewrite decide_False by lia.
    + by rewrite list_lookup_total_insert_ne by lia.
Qed.

(** The key under the cursor at [i] is rewritten in the store. *)
Lemma update_head_inv lo m d i x :
  iter_inv ord nxt lo (mk_iter m d) -> (i < length d)%nat ->
  key_ok x -> lo <= ord x -> nxt x <= nxt (key_at m (d !!! i)) ->
  let m' := <[iter_k (d !!! i) := x]> m in
  Forall (cursor_ok ord nxt lo m') d
  /\ key_at m' (d !!! i) = x
  /\ (forall j, (j < length d)%nat -> j <> i ->
        key_at m' (d !!! j) = key_at m (d !!! j))
  /\ (iter_weight (mk_iter m' d) + key_weight (key_at m (d !!! i))
      = iter_weight (mk_iter m d) + key_weight x)%nat.
Proof.
  intros [Hc Hap Hh] Hi Hx Hlo Hnxt m'. cbn [store data] in *.
  set (s := d !!! i) in *.
  assert (cursor_ok ord nxt lo m s) as [Hr Hch] by by apply Forall_lookup_total_1.
  assert (forall j, (j < length d)%nat -> j <> i ->
            (iter_k s < iter_k (d !!! j) \/ iter_end (d !!! j) <= iter_k s)%nat)
    as Hout.
  { intros j Hj Hne.
    destruct (cursors_apart_lookup d i j Hap) as [?|?]; try done; subst s; lia. }
  assert (forall j, (j < length d)%nat -> j <> i ->
            keys_of m' (d !!! j) = keys_of m (d !!! j)) as Hframe.
  { intros j Hj Hne. apply keys_of_insert_out. by apply Hout. }
  assert (keys_of m' s = x :: keys_of m (cursor_next s)) as Hhead
    by by apply keys_of_insert_head.
  split; [|split; [|split]].
  - apply Forall_cursors. intros j Hj. split.
    + subst m'. rewrite length_insert.
      by assert (cursor_ok ord nxt lo m (d !!! j)) as [? _]
        by by apply Forall_lookup_total_1.
    + destruct (decide (j = i)) as [->|Hne].
      * fold s. rewrite Hhead. rewrite keys_of_cons in Hch by done.
        by eapply chain_replace_head.
      * rewrite Hframe by done.
        by assert (cursor_ok ord nxt lo m (d !!! j)) as [_ ?]
          by by apply Forall_lookup_total_1.
  - apply key_at_insert_eq. lia.
  - intros j Hj Hne. apply key_at_insert_ne.
    assert (cursor_ok ord nxt lo m (d !!! j)) as [? _]
      by by apply Forall_lookup_total_1.
    specialize (Hout j Hj Hne). lia.
  - unfold iter_weight. cbn [store data].
    rewrite !(sum_list_with_Permutation_proper _ _ _ (lookup_total_perm_head d i Hi)).
    fold s. cbn [sum_list_with].
    assert (sum_list_with (cursor_weight m') (delete i d)
            = sum_list_with (cursor_weight m) (delete i d)) as ->.
    { assert (Forall (fun t => cursor_weight m' t = cursor_weight m t) (delete i d))
        as Hsame.
      { apply Forall_delete_index. intros j Hj Hne. unfold cursor_weight.
        by rewrite Hframe. }
      induction Hsame as [|t l Ht _ IH]; [done|]. cbn [sum_list_with].
      by rewrite Ht, IH. }
    unfold cursor_weight at 1 3. rewrite Hhead, (keys_of_cons m s) by done.
    cbn [sum_list_with]. lia.
Qed.

(** Taking the next key off the top cursor. *)
Lemma iter_next_inv lo lo' iter :
  iter_inv ord nxt lo iter -> (0 < used iter)%nat ->
  let m := store iter in
  let d := data iter in
  lo' <= nxt (key_at m (d !!! 0%nat)) ->
  (forall x, (0 < x < used iter)%nat -> lo' <= ord (key_at m (d !!! x))) ->
  let r := bch_btree_iter_next ccmp iter in
  r.1 = iter_k (d !!! 0%nat)
  /\ store r.2 = m
  /\ iter_inv ord nxt lo' r.2
  /\ (iter_weight r.2 + key_weight (key_at m (d !!! 0%nat))
      = iter_weight iter)%nat
  /\ data r.2 ≡ₚ advanced (d !!! 0%nat) (delete 0%nat d).
Proof.
  intros Hinv Hused m d Hlo' Hothers r. destruct iter as [m0 d0].
  unfold used in *. cbn [store data] in *. subst m d.
  destruct (advance_inv lo lo' m0 d0 0 _ Hinv Hused (or_introl eq_refl) eq_refl Hlo')
    as (Hinv' & Hw & Hp & _).
  { intros x Hx Hne. apply Hothers. lia. }
  cbv zeta in *. subst r. unfold bch_btree_iter_next. cbn [fst snd store data].
  assert ((if (iter_k (mk_iter_set (bkey_next (iter_k (d0 !!! 0%nat)))
                         (iter_end (d0 !!! 0%nat)))
               =? iter_end (mk_iter_set (bkey_next (iter_k (d0 !!! 0%nat)))
                              (iter_end (d0 !!! 0%nat))))%nat
           then heap_pop (ccmp m0) d0
           else heap_sift (ccmp m0)
                  (<[0%nat := mk_iter_set (bkey_next (iter_k (d0 !!! 0%nat)))
                                (iter_end (d0 !!! 0%nat))]> d0) 0)
          = heap_sift (ccmp m0)
              (if decide (S (iter_k (d0 !!! 0%nat)) = iter_end (d0 !!! 0%nat))
               then take (length d0 - 1) (heap_swap d0 0 (length d0 - 1))
               else <[0%nat := cursor_next (d0 !!! 0%nat)]> d0) 0) as ->.
  { cbn [iter_k iter_end]. unfold bkey_next.
    destruct (Nat.eqb_spec (S (iter_k (d0 !!! 0%nat))) (iter_end (d0 !!! 0%nat)));
      [by rewrite decide_True by done|by rewrite decide_False by done]. }
  done.
Qed.

End merge.

(** ** The extent fixup *)

Lemma fixup_second_spec cmp d :
  (1 < length d)%nat ->
  (fixup_second cmp d < length d)%nat /\ heap_child 0 (fixup_second cmp d)
  /\ (0 < fixup_second cmp d)%nat.
Proof.
  intros Hd. unfold fixup_second, heap_child.
  destruct (Nat.ltb_spec 2 (length d)); cbn [andb]; [|lia].
  destruct (cmp _ _); lia.
Qed.

Lemma fixup_second_ext cmp cmp' d :
  (forall a b, a ∈ d -> b ∈ d -> cmp a b = cmp' a b) ->
  fixup_second cmp d = fixup_second cmp' d.
Proof.
  intros Hext. unfold fixup_second.
  destruct (Nat.ltb_spec 2 (length d)); cbn [andb]; [|done].
  rewrite Hext; [done|apply list_elem_of_lookup_total_2; lia..].
Qed.

(** Cutting [k] back to [w], a point strictly inside it. *)
Lemma bch_cut_back_inside w k :
  key_ok k -> KEY_START k < KEY_OFFSET w < KEY_OFFSET k ->
  exists k', bch_cut_back w k = Ok (true, k')
    /\ KEY_OFFSET k' = KEY_OFFSET w
    /\ KEY_SIZE k' = KEY_OFFSET w - KEY_START k
    /\ KEY_PTRS k' = KEY_PTRS k /\ KEY_DELETED k' = KEY_DELETED k
    /\ KEY_CACHED k' = KEY_CACHED k /\ KEY_CSUM k' = KEY_CSUM k
    /\ ptr k' = ptr k.
Proof.
  intros Hk Hw. pose proof (key_ok_start _ Hk) as Hst.
  pose proof (key_ok_start_range _ Hk) as Hsr.
  destruct Hk as (Hsz & Hso & Hoff). unfold USHRT_MAX in *.
  assert (bkey_cmp w (START_KEY k) = KEY_OFFSET w - KEY_START k) as E1.
  { unfold bkey_cmp. rewrite KEY_OFFSET_START_KEY. apply s64_small. lia. }
  assert (bkey_cmp w k = KEY_OFFSET w - KEY_OFFSET k) as E2.
  { unfold bkey_cmp. apply s64_small. lia. }
  unfold bch_cut_back, __bch_cut_back. rewrite E1, E2.
  replace (KEY_OFFSET w - KEY_START k <? 0) with false by lia.
  replace (KEY_OFFSET w - KEY_OFFSET k >=? 0) with false by lia.
  replace (KEY_OFFSET w - KEY_START k >? 0) with true by lia.
  cbn [BUG_ON mbind result_bind bkey_copy_key SET_KEY_OFFSET KEY_SIZE].
  assert (u32 (KEY_OFFSET w - KEY_START k) = KEY_OFFSET w - KEY_START k) as ->
    by wrap_lia.
  replace (KEY_SIZE k <? KEY_OFFSET w - KEY_START k) with false by lia.
  cbn [BUG_ON mbind result_bind].
  eexists. split; [reflexivity|]. cbn.
  rewrite u64_small by lia. rewrite u16_small by lia. done.
Qed.

(** Cutting the front of [k] off at [w], a point strictly inside it. *)
Lemma bch_cut_front_ok w k :
  key_ok k -> KEY_START k < KEY_OFFSET w < KEY_OFFSET k ->
  exists k', bch_cut_front w k = Ok (true, k')
    /\ KEY_OFFSET k' = KEY_OFFSET k
    /\ KEY_SIZE k' = KEY_OFFSET k - KEY_OFFSET w
    /\ KEY_START k' = KEY_OFFSET w
    /\ key_ok k'.
Proof.
  intros Hk Hw. pose proof (key_ok_start _ Hk) as Hst.
  pose proof Hk as (Hsz & Hso & Hoff). unfold USHRT_MAX in *.
  destruct (bch_cut_front_inside w k (KEY_OFFSET w - KEY_START k))
    as (k' & E & Ho & Hs & _).
  - split; unfold USHRT_MAX; lia.
  - lia.
  - lia.
  - rewrite u64_small; lia.
  - exists k'. split; [done|]. split; [done|].
    assert (key_ok k') as Hk'.
    { split; [|split]; unfold USHRT_MAX; lia. }
    split; [lia|]. split; [|done].
    rewrite (key_ok_start _ Hk'). lia.
Qed.

Lemma ord_nxt_extent k : key_ok k -> KEY_START k <= KEY_OFFSET k.
Proof. intros H. by apply key_ok_start_range in H as [_ ?]. Qed.

Lemma key_weight_lt k k' :
  0 <= KEY_SIZE k' < KEY_SIZE k -> (key_weight k' < key_weight k)%nat.
Proof. intros. unfold key_weight. lia. Qed.

(** One round of the extent fixup, on an iterator that satisfies the
    invariant: either the loop stops, with the top key ending at or before
    the start of every other cursor's key, or one cursor is trimmed or
    moved on and the invariant holds again with less left to do. *)
Lemma bch_extent_sort_fixup_body_spec lo iter :
  iter_inv KEY_START KEY_OFFSET lo iter -> (1 < used iter)%nat ->
  let m := store iter in
  let d := data iter in
  (bch_extent_sort_fixup_body iter = Ok Break
   /\ forall x, (0 < x < used iter)%nat ->
        KEY_OFFSET (key_at m (d !!! 0%nat)) <= KEY_START (key_at m (d !!! x)))
  \/ exists iter' s,
       bch_extent_sort_fixup_body iter = Ok (Continue iter')
       /\ iter_inv KEY_START KEY_OFFSET lo iter'
       /\ (iter_weight iter' < iter_weight iter)%nat
       /\ (0 < used iter')%nat
       /\ fixup_touches empty_extent iter iter' s.
Proof.
  intros Hinv Hused m d. destruct iter as [m0 d0]. unfold used in *.
  cbn [store data] in *. subst m d. rename m0 into m, d0 into d.
  pose proof Hinv as [Hc Hap Hh]. cbn [store data] in *.
  pose proof (inv_heads_ok _ _ _ _ Hinv) as Hok. cbn [store data] in Hok.
  assert (fixup_second (bch_extent_sort_cmp m) d
          = fixup_second (cmp_by KEY_START m) d) as Hsec.
  { apply fixup_second_ext. intros a b Ha Hb. rewrite Forall_forall in Hok.
    apply bch_extent_sort_cmp_ok; by apply Hok. }
  destruct (fixup_second_spec (cmp_by KEY_START m) d Hused) as (Hi & Hchild & Hpos).
  unfold bch_extent_sort_fixup_body. cbn [store data]. rewrite Hsec.
  set (i := fixup_second (cmp_by KEY_START m) d) in *.
  set (top := d !!! 0%nat). set (si := d !!! i).
  assert (cursor_ok KEY_START KEY_OFFSET lo m top) as Htop
    by (apply Forall_lookup_total_1; [done|lia]).
  assert (cursor_ok KEY_START KEY_OFFSET lo m si) as Hsi
    by by apply Forall_lookup_total_1.
  destruct (cursor_ok_head _ _ _ _ _ Htop) as [Hkt Hlot].
  destruct (cursor_ok_head _ _ _ _ _ Hsi) as [Hki Hloi].
  pose proof (key_ok_start _ Hkt) as Hst. pose proof (key_ok_start _ Hki) as Hsti.
  pose proof Hkt as (Hszt & Hsot & Hofft). pose proof Hki as (Hszi & Hsoi & Hoffi).
  assert (cmp_by KEY_START m top si = false) as Hle
    by (apply heap_root_min; [apply cmp_by_asym|apply cmp_by_trans|done|done]).
  apply cmp_by_false in Hle.
  assert (forall x, (0 < x < length d)%nat ->
            KEY_START (key_at m si) <= KEY_START (key_at m (d !!! x))) as Hmin.
  { intros x Hx.
    pose proof (heap_second_min _ (cmp_by_asym _ m) (cmp_by_trans _ m) d x Hh Hx) as H.
    apply cmp_by_false in H. fold i si in H. lia. }
  assert ((iter_end top <= iter_k si)%nat \/ (iter_end si <= iter_k top)%nat)
    as Hapart by (apply cursors_apart_lookup; [done|lia|lia|done]).
  assert (iter_k top < iter_end top)%nat as Hrt by apply Htop.
  assert (iter_k si < iter_end si)%nat as Hrs by apply Hsi.
  assert (bkey_cmp (key_at m top) (START_KEY (key_at m si))
          = KEY_OFFSET (key_at m top) - KEY_START (key_at m si)) as ->.
  { rewrite bkey_cmp_ok, KEY_OFFSET_START_KEY; [done|lia|by apply START_KEY_range]. }
  destruct (Z.leb_spec (KEY_OFFSET (key_at m top) - KEY_START (key_at m si)) 0)
    as [Hbrk|Hover].
  { left. split; [done|]. intros x Hx. specialize (Hmin x Hx). lia. }
  right.
  (* dropping the second cursor's key *)
  assert (forall (Hwhy : empty_extent (key_at m si) \/ older_than_some d si),
    exists iter' s,
      Ok (Continue (mk_iter m
            (heap_sift (bch_extent_sort_cmp m) (sort_key_next d i) i)))
      = Ok (Continue iter')
      /\ iter_inv KEY_START KEY_OFFSET lo iter'
      /\ (iter_weight iter' < iter_weight (mk_iter m d))%nat
      /\ (0 < used iter')%nat
      /\ fixup_touches empty_extent (mk_iter m d) iter' s) as Hdrop.
  { intros Hwhy. rewrite sort_key_next_spec by done.
    edestruct (advance_inv KEY_START KEY_OFFSET ord_nxt_extent
                 bch_extent_sort_cmp bch_extent_sort_cmp_ok lo lo m d i)
      as (Hinv' & Hw & Hp & _); [exact Hinv|done|by right|reflexivity| | |].
    - fold si. lia.
    - intros x Hx _.
      by assert (cursor_ok KEY_START KEY_OFFSET lo m (d !!! x)) as [_ ?]%cursor_ok_head
        by by apply Forall_lookup_total_1.
    - eexists _, si. split; [reflexivity|]. split; [exact Hinv'|].
      split; [unfold key_weight in Hw; lia|].
      split.
      { assert (0 < length (delete i d))%nat as Hlen
          by (rewrite length_delete by (apply lookup_lt_is_Some_2; lia); lia).
        unfold used. cbn [data]. rewrite Hp. unfold advanced.
        destruct (decide _); cbn [length]; lia. }
      split; [by apply list_elem_of_lookup_total_2|]. split; [done|].
      right. split; [exact Hwhy|]. split; [done|]. exists (delete i d).
      split; [by apply lookup_total_perm_head|done]. }
  destruct (Z.eqb_spec (KEY_SIZE (key_at m si)) 0) as [Hz|Hnz].
  { apply Hdrop. by left. }
  destruct (Nat.ltb_spec (iter_k si) (iter_k top)) as [Hnewer|Holder].
  - assert (bkey_cmp (key_at m top) (key_at m si)
            = KEY_OFFSET (key_at m top) - KEY_OFFSET (key_at m si)) as ->
      by (apply bkey_cmp_ok; lia).
    destruct (Z.geb_spec (KEY_OFFSET (key_at m top) - KEY_OFFSET (key_at m si)) 0)
      as [Hcov|Hpart].
    { apply Hdrop. right. exists top. split; [|done].
      apply (list_elem_of_lookup_total_2 d 0). lia. }
    (* the top key is newer and ends inside the second: cut its front *)
    destruct (bch_cut_front_ok (key_at m top) (key_at m si) Hki)
      as (ki' & -> & Ho' & Hs' & Hst' & Hki'); [lia|].
    cbn [mbind result_bind].
    destruct (update_head_inv KEY_START KEY_OFFSET lo m d i ki' Hinv Hi Hki')
      as (Hc' & Hat & Hothers & Hw); [fold si; lia|fold si; lia|].
    fold si in Hc', Hat, Hothers, Hw. set (m' := <[iter_k si := ki']> m) in *.
    assert (Forall (fun s => key_ok (key_at m' s)) d) as Hok'.
    { eapply Forall_impl; [exact Hc'|]. intros t Ht.
      by apply cursor_ok_head in Ht as [? _]. }
    rewrite (sift_ccmp _ _ bch_extent_sort_cmp_ok) by done.
    exists (mk_iter m' (heap_sift (cmp_by KEY_START m') d i)), si.
    split; [done|].
    assert (heap_sift (cmp_by KEY_START m') d i ≡ₚ d) as Hp
      by apply heap_sift_loop_perm.
    split; [|split; [|split]].
    + split; cbn [store data].
      * by rewrite Hp.
      * by apply (cursors_apart_perm d).
      * apply (heap_change_child _ (cmp_by_asym _ m') (cmp_by_trans _ m')
                 (cmp_by KEY_START m)); try done.
        -- intros x y Hx Hy Hxi Hyi. apply cmp_by_ext; by rewrite Hothers.
        -- pose proof (Hothers 0%nat ltac:(lia) ltac:(lia)) as H0.
           apply cmp_by_false. fold top si in H0 |- *. rewrite Hat, Hst', H0. lia.
        -- intros c Hc0. apply heap_root_min;
             [apply cmp_by_asym|apply cmp_by_trans|done|done].
    + unfold iter_weight in *. cbn [store data] in *. rewrite Hp.
      pose proof (key_weight_lt (key_at m si) ki'). lia.
    + unfold used. cbn [data]. rewrite Hp. lia.
    + split; [by apply list_elem_of_lookup_total_2|]. cbn [store data].
      split; [apply length_insert|]. left. split; [|split; [|done]].
      * exists top. split; [|done]. apply (list_elem_of_lookup_total_2 d 0). lia.
      * intros a Ha. by apply list_lookup_insert_ne.
  - (* the top key is older: cut it back to the start of the second *)
    assert (bkey_cmp (START_KEY (key_at m top)) (START_KEY (key_at m si))
            = KEY_START (key_at m top) - KEY_START (key_at m si)) as ->.
    { rewrite bkey_cmp_ok, !KEY_OFFSET_START_KEY;
        [done|by apply START_KEY_range..]. }
    assert (KEY_START (key_at m top) < KEY_START (key_at m si)) as Hlt by lia.
    replace (KEY_START (key_at m top) - KEY_START (key_at m si) =? 0)
      with false by lia.
    cbn [BUG_ON mbind result_bind].
    destruct (bch_cut_back_inside (START_KEY (key_at m si)) (key_at m top) Hkt)
      as (kt' & -> & Ho' & Hs' & _).
    { rewrite KEY_OFFSET_START_KEY. lia. }
    rewrite KEY_OFFSET_START_KEY in Ho', Hs'.
    cbn [mbind result_bind].
    assert (key_ok kt') as Hkt'.
    { split; [|split]; unfold USHRT_MAX in *; lia. }
    pose proof (key_ok_start _ Hkt') as Hst'.
    destruct (update_head_inv KEY_START KEY_OFFSET lo m d 0 kt' Hinv)
      as (Hc' & Hat & Hothers & Hw); [lia|done|fold top; lia|fold top; lia|].
    fold top in Hc', Hat, Hothers, Hw. set (m' := <[iter_k top := kt']> m) in *.
    exists (mk_iter m' d), top. split; [done|]. split; [|split; [|split]].
    + split; cbn [store data]; [done|done|].
      apply (heap_from_ext (cmp_by KEY_START m)); [|done].
      intros a b Ha Hb.
      assert (forall c, c ∈ d ->
                KEY_START (key_at m' c) = KEY_START (key_at m c)) as Hsame.
      { intros c [x Hx]%list_elem_of_lookup.
        rewrite <- (list_lookup_total_correct _ _ _ Hx).
        apply lookup_lt_Some in Hx.
        destruct (decide (x = 0%nat)) as [->|Hne].
        - fold top. rewrite Hat. lia.
        - by rewrite Hothers. }
      symmetry. apply cmp_by_ext; by apply Hsame.
    + unfold iter_weight in *. cbn [store data] in *.
      pose proof (key_weight_lt (key_at m top) kt'). lia.
    + unfold used. cbn [data]. lia.
    + split; [apply (list_elem_of_lookup_total_2 d 0); lia|]. cbn [store data].
      split; [apply length_insert|]. left. split; [|split; [|done]].
      * exists si. split; [by apply list_elem_of_lookup_total_2|]. lia.
      * intros a Ha. by apply list_lookup_insert_ne.
Qed.

Lemma bch_extent_sort_fixup_spec (Q : btree_iter -> Prop) lo fuel iter :
  kept_by_fixup empty_extent KEY_START KEY_OFFSET lo Q ->
  iter_inv KEY_START KEY_OFFSET lo iter -> Q iter ->
  (iter_weight iter < fuel)%nat ->
  exists iter',
    bch_extent_sort_fixup fuel iter = Ok iter'
    /\ iter_inv KEY_START KEY_OFFSET lo iter' /\ Q iter'
    /\ (iter_weight iter' <= iter_weight iter)%nat
    /\ ((0 < used iter)%nat -> (0 < used iter')%nat)
    /\ forall x, (0 < x < used iter')%nat ->
         KEY_OFFSET (key_at (store iter') (data iter' !!! 0%nat))
         <= KEY_START (key_at (store iter') (data iter' !!! x)).
Proof.
  intros HQ. revert iter. induction fuel as [|fuel IH]; intros iter Hinv Hq Hw; [lia|].
  cbn [bch_extent_sort_fixup].
  destruct (Nat.ltb_spec 1 (used iter)) as [Hused|Hused].
  2:{ exists iter. do 5 (split; [done|]). intros x Hx. lia. }
  destruct (bch_extent_sort_fixup_body_spec lo iter Hinv Hused)
    as [[-> Hsep]|(iter' & s & -> & Hinv' & Hw' & Hu' & Ht)];
    cbn [mbind result_bind].
  - exists iter. by do 5 (split; [done|]).
  - destruct (IH iter') as (iter'' & E & Hinv'' & Hq'' & Hw'' & Hu'' & Hsep);
      [done|exact (HQ iter iter' s Hinv Hq Ht)|lia|].
    exists iter''. do 3 (split; [done|]). split; [lia|]. split; [|done].
    intros _. by apply Hu''.
Qed.

(** ** The merge loop *)

Section driver.
Variables ord nxt sep : bkey -> Z.
Hypothesis ord_nxt : forall k, key_ok k -> ord k <= nxt k.
Hypothesis sep_nxt : forall k, key_ok k -> sep k <= nxt k.
Variable ccmp : list bkey -> btree_iter_set -> btree_iter_set -> bool.
Hypothesis ccmp_ok : forall m a b,
  key_ok (key_at m a) -> key_ok (key_at m b) -> ccmp m a b = cmp_by ord m a b.
Variable fixup : nat -> btree_iter -> result btree_iter.
Variable Q : btree_iter -> list (nat * bkey) -> Prop.

Hypothesis fixup_spec : forall lo fuel iter out,
  iter_inv ord nxt lo iter -> Q iter out -> (iter_weight iter < fuel)%nat ->
  exists iter',
    fixup fuel iter = Ok iter'
    /\ iter_inv ord nxt lo iter' /\ Q iter' out
    /\ (iter_weight iter' <= iter_weight iter)%nat
    /\ ((0 < used iter)%nat -> (0 < used iter')%nat)
    /\ forall x, (0 < x < used iter')%nat ->
         sep (key_at (store iter') (data iter' !!! 0%nat))
         <= ord (key_at (store iter') (data iter' !!! x)).

Hypothesis emit_spec : forall lo iter out,
  iter_inv ord nxt lo iter -> Q iter out -> (0 < used iter)%nat ->
  (forall x, (0 < x < used iter)%nat ->
     sep (key_at (store iter) (data iter !!! 0%nat))
     <= ord (key_at (store iter) (data iter !!! x))) ->
  forall iter2,
    store iter2 = store iter ->
    data iter2 ≡ₚ advanced (data iter !!! 0%nat) (delete 0%nat (data iter)) ->
    Q iter2 (out ++ [(iter_k (data iter !!! 0%nat),
                      key_at (store iter) (data iter !!! 0%nat))]).

Lemma btree_mergesort_loop_spec fuel lo iter out :
  iter_inv ord nxt lo iter -> Q iter out ->
  chain ord sep 0 out.*2 -> foldl (fun _ k => sep k) 0 out.*2 = lo ->
  (iter_weight iter < fuel)%nat ->
  exists out' iter',
    btree_mergesort_loop fuel ccmp fixup iter out = Ok out'
    /\ chain ord sep 0 out'.*2
    /\ used iter' = 0%nat /\ Q iter' out'.
Proof.
  revert lo iter out.
  induction fuel as [|fuel IH]; intros lo iter out Hinv Hq Hch Hlo Hw; [lia|].
  cbn [btree_mergesort_loop].
  destruct (Nat.eqb_spec (used iter) 0) as [Hused|Hused].
  { by exists out, iter. }
  destruct (fixup_spec lo (S fuel) iter out Hinv Hq Hw)
    as (iter1 & -> & Hinv1 & Hq1 & Hw1 & Hused1 & Hsep).
  cbn [mbind result_bind]. specialize (Hused1 ltac:(lia)).
  set (top := data iter1 !!! 0%nat) in *.
  assert (cursor_ok ord nxt lo (store iter1) top) as Htop
    by by apply inv_cursor_at.
  destruct (cursor_ok_head _ _ _ _ _ Htop) as [Hkt Hlot].
  destruct (iter_next_inv ord nxt ord_nxt ccmp ccmp_ok lo
              (sep (key_at (store iter1) top)) iter1 Hinv1 Hused1)
    as (Hk & Hst & Hinv2 & Hw2 & Hp2); [by apply sep_nxt|done|].
  destruct (bch_btree_iter_next ccmp iter1) as [k iter2].
  cbn [fst snd] in *. subst k.
  change (store iter1 !!! iter_k (data iter1 !!! 0%nat))
    with (key_at (store iter1) (data iter1 !!! 0%nat)).
  fold top in Hw2, Hp2 |- *.
  eapply IH; [exact Hinv2| | | |].
  - by eapply emit_spec.
  - rewrite fmap_app. apply chain_app. split; [done|]. cbn. rewrite Hlo. done.
  - rewrite fmap_app, foldl_app. done.
  - unfold key_weight in Hw2. lia.
Qed.

End driver.

(** ** Setting up the iterator *)

Lemma cursors_apart_nil : cursors_apart [].
Proof.
  split; [cbn; apply NoDup_nil_2|]. intros s t Hs. by apply elem_of_nil in Hs.
Qed.

Lemma cursors_apart_cons s d :
  cursors_apart d ->
  Forall (fun t => (iter_end s <= iter_k t)%nat /\ (iter_k t < iter_end t)%nat) d ->
  cursors_apart (s :: d).
Proof.
  intros [Hnd Hd] Hall. rewrite Forall_forall in Hall. split.
  - rewrite fmap_cons. apply NoDup_cons_2; [|done].
    intros (t & E & Ht)%list_elem_of_fmap. specialize (Hall t Ht). lia.
  - intros a b Ha Hb. apply elem_of_cons in Ha as [->|Ha], Hb as [->|Hb].
    + by left.
    + right; left. by apply Hall.
    + right; right. by apply Hall.
    + by apply Hd.
Qed.

Lemma iter_sets_app base l1 l2 :
  iter_sets base (l1 ++ l2)
  = iter_sets base l1 ++ iter_sets (base + length (concat l1)) l2.
Proof.
  revert base. induction l1 as [|r l1 IH]; intros base; cbn.
  - by rewrite Nat.add_0_r.
  - rewrite length_app, IH, Nat.add_assoc. by destruct (length r =? 0)%nat.
Qed.

Lemma iter_sets_bounds base runs :
  Forall (fun s => (base <= iter_k s)%nat /\ (iter_k s < iter_end s)%nat
                   /\ (iter_end s <= base + length (concat runs))%nat)
         (iter_sets base runs).
Proof.
  revert base. induction runs as [|r runs IH]; intros base; cbn; [done|].
  rewrite length_app.
  assert (Forall (fun s => (base <= iter_k s)%nat /\ (iter_k s < iter_end s)%nat
            /\ (iter_end s <= base + (length r + length (concat runs)))%nat)
            (iter_sets (base + length r) runs)) as Hrest.
  { eapply Forall_impl; [apply IH|]. cbn. intros s. lia. }
  destruct (Nat.eqb_spec (length r) 0); [done|].
  apply Forall_cons. split; [cbn; lia|done].
Qed.

Section init.
Variables ord nxt : bkey -> Z.

Lemma iter_sets_spec lo pre runs :
  Forall (chain ord nxt lo) runs ->
  let m := pre ++ concat runs in
  let d := iter_sets (length pre) runs in
  Forall (cursor_ok ord nxt lo m) d
  /\ cursors_apart d
  /\ sum_list_with (cursor_weight m) d = runs_weight runs.
Proof.
  revert pre. induction runs as [|r runs IH]; intros pre Hwf.
  { cbn. split; [done|]. split; [apply cursors_apart_nil|done]. }
  apply Forall_cons in Hwf as [Hr Hwf].
  destruct (IH (pre ++ r) Hwf) as (Hc & Hap & Hw). cbv zeta in *.
  rewrite length_app, <- app_assoc in *. cbn [concat iter_sets].
  unfold runs_weight in *. cbn [sum_list_with].
  destruct (Nat.eqb_spec (length r) 0) as [E|E].
  { apply nil_length_inv in E as ->. cbn [sum_list_with]. done. }
  set (s := mk_iter_set (length pre) (length pre + length r)).
  assert (keys_of (pre ++ r ++ concat runs) s = r) as Hks.
  { unfold keys_of, s. cbn [iter_k iter_end].
    rewrite drop_app_length.
    replace (length pre + length r - length pre)%nat with (length r) by lia.
    by rewrite take_app_length. }
  split; [|split].
  - apply Forall_cons. split; [|done]. split.
    + cbn [iter_k iter_end s]. rewrite !length_app. lia.
    + by rewrite Hks.
  - apply cursors_apart_cons; [done|].
    eapply Forall_impl; [apply iter_sets_bounds|]. cbn. intros t. lia.
  - cbn [sum_list_with]. rewrite Hw. unfold cursor_weight. by rewrite Hks.
Qed.

Variable ccmp : list bkey -> btree_iter_set -> btree_iter_set -> bool.
Hypothesis ccmp_ok : forall m a b,
  key_ok (key_at m a) -> key_ok (key_at m b) -> ccmp m a b = cmp_by ord m a b.

Lemma bch_btree_iter_init_spec runs :
  Forall (chain ord nxt 0) runs ->
  let iter := bch_btree_iter_init ccmp runs in
  iter_inv ord nxt 0 iter
  /\ store iter = concat runs
  /\ data iter ≡ₚ iter_sets 0 runs
  /\ iter_weight iter = runs_weight runs.
Proof.
  intros Hwf. destruct (iter_sets_spec 0 [] runs Hwf) as (Hc & Hap & Hw).
  cbn [app length] in *. unfold bch_btree_iter_init.
  set (m := concat runs) in *. set (d := iter_sets 0 runs) in *.
  assert (heapify (ccmp m) d = heapify (cmp_by ord m) d) as ->.
  { apply heapify_ext. intros a b Ha Hb. rewrite Forall_forall in Hc.
    apply ccmp_ok; eapply cursor_ok_head; by apply Hc. }
  destruct (heapify_heap (cmp_by ord m) d (cmp_by_asym _ m) (cmp_by_trans _ m))
    as [Hh Hp].
  split; [|split; [done|split; [done|]]].
  - split; cbn [store data]; [by rewrite Hp| |done].
    by apply (cursors_apart_perm d).
  - unfold iter_weight. cbn [store data]. by rewrite Hp.
Qed.

End init.

(** ** Chains are disjoint *)

Lemma extent_chain_lower lo ks k :
  extent_chain lo ks -> k ∈ ks -> key_ok k /\ lo <= KEY_START k.
Proof.
  revert lo. induction ks as [|a ks IH]; intros lo Hch Hk;
    [by apply elem_of_nil in Hk|].
  destruct Hch as (Ha & Hlo & Hch). apply elem_of_cons in Hk as [->|Hk]; [done|].
  destruct (IH _ Hch Hk) as [? ?]. split; [done|].
  pose proof (ord_nxt_extent _ Ha). lia.
Qed.

Lemma extent_chain_ordered lo ks i j a b :
  extent_chain lo ks -> (i < j)%nat -> ks !! i = Some a -> ks !! j = Some b ->
  KEY_OFFSET a <= KEY_START b.
Proof.
  revert lo i j. induction ks as [|c ks IH]; intros lo i j Hch Hij Hi Hj; [done|].
  destruct Hch as (Hc & Hlo & Hch). destruct j as [|j]; [lia|]. cbn in Hj.
  destruct i as [|i].
  - cbn in Hi. injection Hi as ->.
    eapply extent_chain_lower; [exact Hch|]. by eapply list_elem_of_lookup_2.
  - cbn in Hi. eapply (IH _ i j); try done. lia.
Qed.

Lemma extent_chain_disjoint lo ks : extent_chain lo ks -> pairwise_disjoint ks.
Proof.
  intros Hch i j a b x Hne Hi Hj [Ha Hb]. unfold covers in *.
  destruct (decide (i < j)%nat).
  - pose proof (extent_chain_ordered _ _ _ _ _ _ Hch ltac:(done) Hi Hj). lia.
  - pose proof (extent_chain_ordered _ _ j i _ _ Hch ltac:(lia) Hj Hi). lia.
Qed.

(** ** Keys of the newest run are never trimmed or dropped *)

Lemma cursors_apart_ends d s t :
  cursors_apart d -> s ∈ d -> t ∈ d -> iter_end s = iter_end t -> s = t.
Proof.
  intros [Hnd _] [i Hi]%list_elem_of_lookup [j Hj]%list_elem_of_lookup E.
  assert (i = j) as ->; [|congruence].
  eapply (NoDup_lookup _ _ _ _ Hnd).
  - by rewrite list_lookup_fmap, Hi.
  - rewrite list_lookup_fmap, Hj. cbn. by rewrite E.
Qed.

Lemma elem_of_advanced t s rest :
  t ∈ advanced s rest <->
  t ∈ rest \/ (t = cursor_next s /\ S (iter_k s) <> iter_end s).
Proof.
  unfold advanced. destruct (decide _).
  - split; [by left|]. intros [?|[_ ?]]; done.
  - rewrite elem_of_cons. tauto.
Qed.

Section newest.
Variable exempt : bkey -> Prop.
Variables ord nxt : bkey -> Z.
Variables (B : nat) (m0 : list bkey).

Lemma not_newest lo iter out s :
  iter_inv ord nxt lo iter -> newest_kept exempt B m0 iter out ->
  s ∈ data iter -> older_than_some (data iter) s ->
  (iter_end s <= B)%nat.
Proof.
  intros [Hc Hap _] (_ & _ & Hcur & _) Hs (t & Ht & Hst).
  destruct (Hcur s Hs) as [?|[HB He]]; [done|]. exfalso.
  rewrite Forall_forall in Hc. destruct (Hc t Ht) as [Hrt _].
  destruct (Hcur t Ht) as [?|[_ He']]; [lia|].
  assert (s = t) as -> by (eapply cursors_apart_ends; [done..|congruence]). lia.
Qed.

Lemma newest_kept_advanced lo iter out s rest d' out' :
  iter_inv ord nxt lo iter -> newest_kept exempt B m0 iter out ->
  data iter ≡ₚ s :: rest -> d' ≡ₚ advanced s rest ->
  (forall a k, (a, k) ∈ out -> (a, k) ∈ out') ->
  (forall k, (B <= iter_k s)%nat -> m0 !! iter_k s = Some k -> ~ exempt k ->
     (iter_k s, k) ∈ out') ->
  newest_kept exempt B m0 (mk_iter (store iter) d') out'.
Proof.
  intros [Hc Hap _] (Hlen & Hst & Hcur & Hcov) Hp Hp' Hout Hhead.
  assert (s ∈ data iter) as Hs by (rewrite Hp; apply list_elem_of_here).
  rewrite Forall_forall in Hc. destruct (Hc s Hs) as [Hrs _].
  split; [done|]. split; [done|]. cbn [data]. split.
  - intros t Ht. rewrite Hp' in Ht. apply elem_of_advanced in Ht as [Ht|[-> Hne]].
    + apply Hcur. rewrite Hp. by apply list_elem_of_further.
    + cbn [cursor_next iter_k iter_end]. unfold bkey_next.
      destruct (Hcur s Hs) as [?|[? ?]]; [by left|right; split; [lia|done]].
  - intros a k Ha Hk Hex. destruct (Hcov a k Ha Hk Hex) as [?|(t & Ht & Hat)].
    { left. by apply Hout. }
    rewrite Hp in Ht. apply elem_of_cons in Ht as [->|Ht].
    + destruct (decide (a = iter_k s)) as [->|Hne].
      * left. by apply Hhead.
      * right. exists (cursor_next s). split.
        -- rewrite Hp'. apply elem_of_advanced. right. split; [done|lia].
        -- cbn [cursor_next iter_k iter_end]. unfold bkey_next. lia.
    + right. exists t. split; [|done]. rewrite Hp'. apply elem_of_advanced. by left.
Qed.

Lemma newest_kept_fixup lo out :
  kept_by_fixup exempt ord nxt lo (fun it => newest_kept exempt B m0 it out).
Proof.
  intros it it' s Hinv Hq (Hs & Hlen & [(Hold & Hst & Hp)|(Hwhy & Hst & rest & Hp & Hp')]).
  - (* an older key was trimmed *)
    pose proof (not_newest _ _ _ _ Hinv Hq Hs Hold) as HsB.
    destruct Hinv as [Hc _ _]. rewrite Forall_forall in Hc.
    destruct (Hc s Hs) as [Hrs _].
    destruct Hq as (Hlen0 & Hst0 & Hcur & Hcov).
    split; [congruence|]. split; [|split].
    + intros a Ha. rewrite Hst by lia. by apply Hst0.
    + intros t Ht. apply Hcur. by rewrite <- Hp.
    + intros a k Ha Hk Hex. destruct (Hcov a k Ha Hk Hex) as [?|(t & Ht & Hat)];
        [by left|]. right. exists t. by rewrite Hp.
  - (* a key was dropped *)
    assert (it' = mk_iter (store it) (data it')) as ->
      by (destruct it'; cbn in *; congruence).
    eapply newest_kept_advanced; try done.
    intros k HB Hk Hex. exfalso. destruct Hwhy as [He|Hold].
    + destruct Hq as (_ & Hst0 & _). rewrite <- Hst0 in Hk by done.
      apply list_lookup_total_correct in Hk. unfold key_at in He. congruence.
    + pose proof (not_newest _ _ _ _ Hinv Hq Hs Hold) as HsB.
      destruct Hinv as [Hc _ _]. rewrite Forall_forall in Hc.
      destruct (Hc s Hs) as [Hrs _]. lia.
Qed.

Lemma newest_kept_emit lo iter out iter2 :
  iter_inv ord nxt lo iter -> newest_kept exempt B m0 iter out ->
  (0 < used iter)%nat ->
  store iter2 = store iter ->
  data iter2 ≡ₚ advanced (data iter !!! 0%nat) (delete 0%nat (data iter)) ->
  newest_kept exempt B m0 iter2
    (out ++ [(iter_k (data iter !!! 0%nat),
              key_at (store iter) (data iter !!! 0%nat))]).
Proof.
  intros Hinv Hq Hused Hst Hp.
  assert (iter2 = mk_iter (store iter) (data iter2)) as ->
    by (destruct iter2; cbn in *; congruence).
  eapply newest_kept_advanced; try done.
  - by apply lookup_total_perm_head.
  - intros a k Hin. apply elem_of_app. by left.
  - intros k HB Hk Hex. apply elem_of_app. right. apply list_elem_of_singleton.
    f_equal. destruct Hq as (_ & Hst0 & _). rewrite <- Hst0 in Hk by done.
    apply list_lookup_total_correct in Hk. by rewrite <- Hk.
Qed.

End newest.

Lemma newest_kept_init exempt older newest :
  let runs := older ++ [newest] in
  forall iter,
    store iter = concat runs -> data iter ≡ₚ iter_sets 0 runs ->
    newest_kept exempt (length (concat older)) (concat runs) iter [].
Proof.
  intros runs iter Hst Hp. subst runs.
  rewrite iter_sets_app in Hp. cbn [Nat.add] in Hp.
  assert (length (concat (older ++ [newest]))
          = (length (concat older) + length newest)%nat) as Hlen.
  { rewrite concat_app, length_app. cbn. by rewrite app_nil_r. }
  split; [by rewrite Hst|]. split; [intros a _; by rewrite Hst|]. split.
  - intros s Hs. rewrite Hp in Hs. apply elem_of_app in Hs as [Hs|Hs].
    + left. pose proof (iter_sets_bounds 0 older) as Hb.
      rewrite Forall_forall in Hb. specialize (Hb s Hs). lia.
    + right. cbn in Hs. destruct (length newest =? 0)%nat; [by apply elem_of_nil in Hs|].
      apply list_elem_of_singleton in Hs as ->. cbn. rewrite Hlen. lia.
  - intros a k Ha Hk _. right.
    apply lookup_lt_Some in Hk. rewrite Hlen in Hk.
    exists (mk_iter_set (length (concat older))
              (length (concat older) + length newest)).
    split; [|cbn; lia]. rewrite Hp. apply elem_of_app. right. cbn.
    destruct (Nat.eqb_spec (length newest) 0); [lia|]. apply list_elem_of_here.
Qed.

(** ** Merging extents: the whole run *)

(** With more fuel than the runs weigh, the merge of well-formed runs runs
    to the end without hitting a [BUG_ON]; what it emits is in order, each
    extent ending at or before the start of the next; and any [Q] that the
    fixup rounds and the emissions keep holds at the end. *)
Lemma extent_mergesort_run (Q : btree_iter -> list (nat * bkey) -> Prop)
    runs fuel :
  wf_runs runs -> (runs_weight runs < fuel)%nat ->
  (forall lo out,
     kept_by_fixup empty_extent KEY_START KEY_OFFSET lo (fun it => Q it out)) ->
  (forall lo iter out iter2,
     iter_inv KEY_START KEY_OFFSET lo iter -> Q iter out ->
     (0 < used iter)%nat -> store iter2 = store iter ->
     data iter2 ≡ₚ advanced (data iter !!! 0%nat) (delete 0%nat (data iter)) ->
     Q iter2 (out ++ [(iter_k (data iter !!! 0%nat),
                       key_at (store iter) (data iter !!! 0%nat))])) ->
  Q (bch_btree_iter_init bch_extent_sort_cmp runs) [] ->
  exists out iter',
    extent_mergesort fuel runs = Ok out
    /\ extent_chain 0 out.*2
    /\ used iter' = 0%nat /\ Q iter' out.
Proof.
  intros Hwf Hfuel Hfix Hemit Hinit.
  destruct (bch_btree_iter_init_spec KEY_START KEY_OFFSET
              bch_extent_sort_cmp bch_extent_sort_cmp_ok runs Hwf)
    as (Hinv & _ & _ & Hw).
  unfold extent_mergesort, btree_mergesort.
  apply (btree_mergesort_loop_spec KEY_START KEY_OFFSET KEY_OFFSET
           ord_nxt_extent (fun k _ => Z.le_refl (KEY_OFFSET k))
           bch_extent_sort_cmp bch_extent_sort_cmp_ok
           bch_extent_sort_fixup Q) with (lo := 0); try done.
  - intros lo fuel' iter out Hi Hq Hlt.
    by apply (bch_extent_sort_fixup_spec (fun it => Q it out)).
  - intros lo iter out Hi Hq Hu _ iter2. by apply (Hemit lo).
  - lia.
Qed.

(** ** Claims about the extent merge *)

(** C1 (as the code has it): for every set of runs in which each run's
    extents are in order and do not overlap one another, the extent
    sort-fixup driving the heap merge, given more fuel than the runs weigh,
    emits all keys without hitting a [BUG_ON], and the emitted extents are
    in order, each ending at or before the start of the next, so that their
    half-open ranges are pairwise disjoint. *)
Theorem extent_mergesort_disjoint runs fuel :
  wf_runs runs -> (runs_weight runs < fuel)%nat ->
  exists out,
    extent_mergesort fuel runs = Ok out
    /\ extent_chain 0 out.*2
    /\ pairwise_disjoint out.*2.
Proof.
  intros Hwf Hfuel.
  destruct (extent_mergesort_run (fun _ _ => True) runs fuel Hwf Hfuel)
    as (out & _ & E & Hch & _); try done.
  exists out. split; [done|]. split; [done|]. by eapply extent_chain_disjoint.
Qed.

Lemma extent_mergesort_disjoint_witness :
  exists out,
    extent_mergesort 300
      [[extent 80 10]; [extent 100 100]; [extent 60 10; extent 120 20]]
    = Ok out
    /\ pairwise_disjoint out.*2.
Proof.
  assert (wf_runs
            [[extent 80 10]; [extent 100 100]; [extent 60 10; extent 120 20]])
    as Hwf.
  { repeat (apply Forall_cons_2 || apply Forall_nil_2).
    all: vm_compute; repeat split; discriminate. }
  assert (runs_weight
            [[extent 80 10]; [extent 100 100]; [extent 60 10; extent 120 20]]
          < 300)%nat as Hfuel by (vm_compute; lia).
  pose proof (extent_mergesort_disjoint _ 300 Hwf Hfuel) as (out & E & _ & Hd).
  exists out. split; [exact E|exact Hd].
Defined.

(** C1, the claim as it stands fails: the fixup only compares keys of
    different runs, so two overlapping extents of one run are emitted as
    they are. *)
Lemma extent_mergesort_overlap_counterexample :
  extent_mergesort 100 [[extent 10 10; extent 15 10]]
  = Ok [(0%nat, extent 10 10); (1%nat, extent 15 10)]
  /\ ~ pairwise_disjoint [(0%nat, extent 10 10); (1%nat, extent 15 10)].*2.
Proof.
  split; [vm_compute; reflexivity|]. intros H.
  apply (H 0%nat 1%nat (extent 10 10) (extent 15 10) 7); [done..|].
  unfold covers. vm_compute. repeat split; discriminate.
Qed.

(** C2 (as the code has it): for every set of well-formed runs and every
    logical address covered by an extent of the newest run, the merge emits
    that key from the newest run with nothing changed, and it is the only
    emitted extent that covers the address: keys of the newest run are never
    trimmed or dropped in favour of older ones. *)
Theorem extent_mergesort_newest_wins older newest fuel :
  wf_runs (older ++ [newest]) ->
  (runs_weight (older ++ [newest]) < fuel)%nat ->
  exists out,
    extent_mergesort fuel (older ++ [newest]) = Ok out
    /\ forall j k x, newest !! j = Some k -> covers k x ->
         ((length (concat older) + j)%nat, k) ∈ out
         /\ forall a k', (a, k') ∈ out -> covers k' x ->
              a = (length (concat older) + j)%nat /\ k' = k.
Proof.
  intros Hwf Hfuel. set (runs := older ++ [newest]) in *.
  set (B := length (concat older)).
  destruct (bch_btree_iter_init_spec KEY_START KEY_OFFSET
              bch_extent_sort_cmp bch_extent_sort_cmp_ok runs Hwf)
    as (_ & Hst & Hp & _).
  destruct (extent_mergesort_run
              (newest_kept empty_extent B (concat runs)) runs fuel Hwf Hfuel)
    as (out & iter' & E & Hch & Hused & Hq).
  - intros lo out. apply newest_kept_fixup.
  - intros lo iter out iter2 Hinv Hq Hu Hs Hd. by eapply newest_kept_emit.
  - by apply newest_kept_init.
  - exists out. split; [done|]. intros j k x Hj Hx.
    assert (key_ok k) as Hk.
    { apply Forall_app in Hwf as [_ Hn]. apply Forall_cons in Hn as [Hn _].
      eapply extent_chain_lower; [exact Hn|]. by eapply list_elem_of_lookup_2. }
    assert (((B + j)%nat, k) ∈ out) as Hin.
    { destruct Hq as (_ & _ & _ & Hcov).
      destruct (Hcov (B + j)%nat k) as [?|(s & Hs & _)]; [lia| | |done|].
      - subst runs B. rewrite concat_app, lookup_app_r by lia.
        replace (length (concat older) + j - length (concat older))%nat
          with j by lia.
        cbn. by rewrite app_nil_r.
      - unfold empty_extent, covers in *. rewrite (key_ok_start _ Hk) in Hx. lia.
      - unfold used in Hused. apply nil_length_inv in Hused.
        rewrite Hused in Hs. by apply elem_of_nil in Hs. }
    split; [done|]. intros a k' Hin' Hx'.
    apply list_elem_of_lookup in Hin as [i Hi], Hin' as [i' Hi'].
    destruct (decide (i = i')) as [->|Hne]; [by simplify_eq|].
    exfalso. apply (extent_chain_disjoint _ _ Hch i i' k k' x Hne).
    + by rewrite list_lookup_fmap, Hi.
    + by rewrite list_lookup_fmap, Hi'.
    + done.
Qed.

Lemma extent_mergesort_newest_wins_witness :
  exists out,
    extent_mergesort 300 ([[extent 80 10]; [extent 100 100]] ++ [[extent 60 10]])
    = Ok out
    /\ (2%nat, extent 60 10) ∈ out.
Proof.
  assert (wf_runs ([[extent 80 10]; [extent 100 100]] ++ [[extent 60 10]])) as Hwf.
  { repeat (apply Forall_cons_2 || apply Forall_nil_2).
    all: vm_compute; repeat split; discriminate. }
  assert (runs_weight ([[extent 80 10]; [extent 100 100]] ++ [[extent 60 10]])
          < 300)%nat as Hfuel by (vm_compute; lia).
  assert (covers (extent 60 10) 55) as Hcov
    by (unfold covers; vm_compute; repeat split; discriminate).
  pose proof (extent_mergesort_newest_wins
                [[extent 80 10]; [extent 100 100]] [extent 60 10] 300 Hwf Hfuel)
    as (out & E & H).
  exists out. split; [exact E|].
  exact (proj1 (H 0%nat (extent 60 10) 55 eq_refl Hcov)).
Defined.

(** C2, the claim as it stands fails: the key of the middle run that
    covered address 75 is cut back to make room for the newest run, and the
    extent emitted at 75 is the one of the oldest run. *)
Lemma extent_mergesort_older_wins_counterexample :
  extent_mergesort 300 [[extent 80 10]; [extent 100 100]; [extent 60 10]]
  = Ok [(1%nat, extent 50 50); (2%nat, extent 60 10); (0%nat, extent 80 10)]
  /\ covers (extent 80 10) 75
  /\ covers (extent 100 100) 75.
Proof.
  split; [vm_compute; reflexivity|]. unfold covers. vm_compute.
  repeat split; discriminate.
Qed.

(** ** The size-0 key in second position *)

(** C5 (as the code has it): in a round of the extent fixup on a
    well-formed iterator whose second position (the smaller child of the
    root) holds a size-0 key, the key is dropped, its cursor moved on and
    the heap re-sifted with nothing else changed, exactly when the top key
    ends past the size-0 key's offset; when the top key ends at or before
    it, the loop stops first and the size-0 key stays where it is. *)
Theorem bch_extent_sort_fixup_zero_size lo iter :
  iter_inv KEY_START KEY_OFFSET lo iter -> (1 < used iter)%nat ->
  let m := store iter in
  let d := data iter in
  let i := fixup_second (bch_extent_sort_cmp m) d in
  let top := d !!! 0%nat in
  let si := d !!! i in
  KEY_SIZE (key_at m si) = 0 ->
  (KEY_OFFSET (key_at m top) <= KEY_OFFSET (key_at m si) ->
     bch_extent_sort_fixup_body iter = Ok Break)
  /\ (KEY_OFFSET (key_at m si) < KEY_OFFSET (key_at m top) ->
      exists iter',
        bch_extent_sort_fixup_body iter = Ok (Continue iter')
        /\ store iter' = m
        /\ data iter' ≡ₚ advanced si (delete i d)
        /\ iter_inv KEY_START KEY_OFFSET lo iter').
Proof.
  intros Hinv Hused m d i top si Hz. destruct iter as [m0 d0]. unfold used in *.
  cbn [store data] in *. subst m d top si i. rename m0 into m, d0 into d.
  pose proof Hinv as [Hc Hap Hh]. cbn [store data] in *.
  pose proof (inv_heads_ok _ _ _ _ Hinv) as Hok. cbn [store data] in Hok.
  assert (fixup_second (bch_extent_sort_cmp m) d
          = fixup_second (cmp_by KEY_START m) d) as Hsec.
  { apply fixup_second_ext. intros a b Ha Hb. rewrite Forall_forall in Hok.
    apply bch_extent_sort_cmp_ok; by apply Hok. }
  destruct (fixup_second_spec (cmp_by KEY_START m) d Hused) as (Hi & Hchild & Hpos).
  unfold bch_extent_sort_fixup_body. cbn [store data]. rewrite Hsec in Hz |- *.
  set (i := fixup_second (cmp_by KEY_START m) d) in *.
  set (top := d !!! 0%nat). set (si := d !!! i) in *.
  assert (cursor_ok KEY_START KEY_OFFSET lo m top) as Htop
    by (apply Forall_lookup_total_1; [done|lia]).
  assert (cursor_ok KEY_START KEY_OFFSET lo m si) as Hsi
    by by apply Forall_lookup_total_1.
  destruct (cursor_ok_head _ _ _ _ _ Htop) as [Hkt Hlot].
  destruct (cursor_ok_head _ _ _ _ _ Hsi) as [Hki Hloi].
  pose proof (key_ok_start _ Hkt) as Hst. pose proof (key_ok_start _ Hki) as Hsti.
  pose proof Hkt as (Hszt & Hsot & Hofft). pose proof Hki as (Hszi & Hsoi & Hoffi).
  assert (bkey_cmp (key_at m top) (START_KEY (key_at m si))
          = KEY_OFFSET (key_at m top) - KEY_START (key_at m si)) as ->.
  { rewrite bkey_cmp_ok, KEY_OFFSET_START_KEY; [done|lia|by apply START_KEY_range]. }
  split; intros Hcmp.
  - destruct (Z.leb_spec (KEY_OFFSET (key_at m top) - KEY_START (key_at m si)) 0);
      [done|lia].
  - destruct (Z.leb_spec (KEY_OFFSET (key_at m top) - KEY_START (key_at m si)) 0);
      [lia|].
    rewrite Hz. cbn [Z.eqb]. rewrite sort_key_next_spec by done.
    edestruct (advance_inv KEY_START KEY_OFFSET ord_nxt_extent
                 bch_extent_sort_cmp bch_extent_sort_cmp_ok lo lo m d i)
      as (Hinv' & _ & Hp & _); [exact Hinv|done|by right|reflexivity| | |].
    + fold si. lia.
    + intros x Hx _.
      by assert (cursor_ok KEY_START KEY_OFFSET lo m (d !!! x)) as [_ ?]%cursor_ok_head
        by by apply Forall_lookup_total_1.
    + eexists. split; [reflexivity|]. split; [done|]. split; [exact Hp|exact Hinv'].
Qed.

(** The first round of the merge of the runs [{offset 500, size 0}] and
    [{offset 600, size 200}]: the size-0 key lies inside the other and is
    dropped. *)
Lemma bch_extent_sort_fixup_zero_size_witness :
  let iter := bch_btree_iter_init bch_extent_sort_cmp
                [[extent 500 0]; [extent 600 200]] in
  exists iter',
    bch_extent_sort_fixup_body iter = Ok (Continue iter')
    /\ store iter' = store iter
    /\ data iter' ≡ₚ [mk_iter_set 1 2].
Proof.
  intros iter.
  assert (wf_runs [[extent 500 0]; [extent 600 200]]) as Hwf.
  { repeat (apply Forall_cons_2 || apply Forall_nil_2).
    all: vm_compute; repeat split; discriminate. }
  pose proof (bch_btree_iter_init_spec KEY_START KEY_OFFSET
                bch_extent_sort_cmp bch_extent_sort_cmp_ok _ Hwf) as (Hinv & _).
  assert (1 < used iter)%nat as Hused by (vm_compute; lia).
  pose proof (bch_extent_sort_fixup_zero_size 0 iter Hinv Hused eq_refl)
    as [_ Hdrop].
  destruct Hdrop as (iter' & E & Hst & Hp & _); [vm_compute; reflexivity|].
  exists iter'. split; [exact E|]. split; [exact Hst|exact Hp].
Defined.

(** C5, the claim as it stands fails: the test that stops the loop comes
    before the one for size 0, so a size-0 key past the end of the top key
    is left in the heap and emitted. *)
Lemma extent_mergesort_zero_size_counterexample :
  let iter := bch_btree_iter_init bch_extent_sort_cmp
                [[extent 100 100]; [extent 500 0]] in
  key_at (store iter)
    (data iter !!! fixup_second (bch_extent_sort_cmp (store iter)) (data iter))
  = extent 500 0
  /\ bch_extent_sort_fixup_body iter = Ok Break
  /\ extent_mergesort 100 [[extent 100 100]; [extent 500 0]]
     = Ok [(0%nat, extent 100 100); (1%nat, extent 500 0)].
Proof. vm_compute. by repeat split. Qed.

(** ** Merging a single run *)

(** With a single cursor left, no fixup has anything to compare: the keys
    of the run are emitted one after the other, as they are. *)
Lemma btree_mergesort_loop_single cmp fixup m n :
  (forall f it, (used it <= 1)%nat -> fixup (S f) it = Ok it) ->
  forall k e out fuel,
    e = (k + S n)%nat -> (S n < fuel)%nat ->
    btree_mergesort_loop fuel cmp fixup (mk_iter m [mk_iter_set k e]) out
    = Ok (out ++ ((fun a => (a, m !!! a)) <$> seq k (S n))).
Proof.
  intros Hfix. induction n as [|n IH]; intros k e out fuel -> Hfuel.
  - destruct fuel as [|[|fuel]]; [lia..|].
    cbn [btree_mergesort_loop used data length Nat.eqb].
    rewrite Hfix by (cbn; lia). cbn [mbind result_bind].
    unfold bch_btree_iter_next, bkey_next. cbn [store data iter_k iter_end].
    change ([mk_iter_set k (k + 1)] !!! 0%nat) with (mk_iter_set k (k + 1)).
    cbn [iter_k iter_end]. replace (k + 1)%nat with (S k) by lia.
    rewrite Nat.eqb_refl. by cbn.
  - destruct fuel as [|fuel]; [lia|].
    cbn [btree_mergesort_loop used data length Nat.eqb].
    rewrite Hfix by (cbn; lia). cbn [mbind result_bind].
    unfold bch_btree_iter_next, bkey_next. cbn [store data iter_k iter_end].
    change ([mk_iter_set k (k + S (S n))] !!! 0%nat)
      with (mk_iter_set k (k + S (S n))).
    cbn [iter_k iter_end].
    destruct (Nat.eqb_spec (S k) (k + S (S n))) as [?|_]; [lia|].
    change (heap_sift (cmp m) (<[0%nat:=mk_iter_set (S k) (k + S (S n))]>
                                 [mk_iter_set k (k + S (S n))]) 0)
      with [mk_iter_set (S k) (k + S (S n))].
    rewrite (IH (S k) (k + S (S n))%nat) by lia.
    by rewrite <- app_assoc.
Qed.

Lemma bch_extent_sort_fixup_single f it :
  (used it <= 1)%nat -> bch_extent_sort_fixup (S f) it = Ok it.
Proof.
  intros H. cbn [bch_extent_sort_fixup].
  by destruct (Nat.ltb_spec 1 (used it)); [lia|].
Qed.

Lemma extent_mergesort_single l fuel :
  (length l < fuel)%nat ->
  extent_mergesort fuel [l] = Ok (zip (seq 0 (length l)) l).
Proof.
  intros Hfuel. unfold extent_mergesort, btree_mergesort, bch_btree_iter_init.
  cbn [iter_sets concat]. rewrite app_nil_r.
  destruct l as [|k0 l].
  - destruct fuel; [lia|]. done.
  - cbn [length Nat.eqb Nat.add].
    change (heapify (bch_extent_sort_cmp (k0 :: l))
              [mk_iter_set 0 (S (length l))])
      with [mk_iter_set 0 (S (length l))].
    rewrite (btree_mergesort_loop_single _ _ _ (length l)
               bch_extent_sort_fixup_single 0%nat) by (done || lia).
    cbn [app]. f_equal. apply list_eq. intros i.
    rewrite list_lookup_fmap.
    destruct (decide (i < S (length l))%nat) as [Hi|Hi].
    + rewrite lookup_seq_lt by done. cbn [fmap option_fmap option_map Nat.add].
      symmetry. apply lookup_zip_with_Some. exists i, ((k0 :: l) !!! i).
      split; [done|]. split; [by apply lookup_seq_lt|].
      apply list_lookup_lookup_total_lt. cbn. lia.
    + rewrite lookup_seq_ge by lia. symmetry. apply lookup_ge_None.
      rewrite length_zip_with, length_seq. cbn [length]. lia.
Qed.

(** C6: whatever a merge of extents has emitted, merging it again as a
    single run emits every key once more, in the same order and with
    nothing changed: the second pass drops and trims nothing. *)
Theorem extent_mergesort_idempotent runs fuel out :
  extent_mergesort fuel runs = Ok out ->
  extent_mergesort (S (length out)) [out.*2]
  = Ok (zip (seq 0 (length out)) out.*2).
Proof.
  intros _. rewrite <- (length_fmap snd out) at 2.
  apply extent_mergesort_single. rewrite length_fmap. lia.
Qed.

Lemma extent_mergesort_idempotent_witness :
  extent_mergesort 4
    [[(1%nat, extent 50 50); (2%nat, extent 60 10); (0%nat, extent 80 10)].*2]
  = Ok [(0%nat, extent 50 50); (1%nat, extent 60 10); (2%nat, extent 80 10)].
Proof.
  assert (extent_mergesort 300 [[extent 80 10]; [extent 100 100]; [extent 60 10]]
          = Ok [(1%nat, extent 50 50); (2%nat, extent 60 10);
                (0%nat, extent 80 10)]) as E by (vm_compute; reflexivity).
  exact (extent_mergesort_idempotent _ 300 _ E).
Defined.

(** ** The pointer-key fixup *)








(** ** Claims about the pointer-key merge *)


(** * Properties of the rest of the file *)

(** ** Structural checks *)

Lemma __ptr_invalid_false c k :
  __ptr_invalid c k = false <->
  forall i, (i < KEY_PTRS k)%nat -> ptr_available c k i = true -> ptr_fits c k i.
Proof.
  unfold __ptr_invalid. rewrite existsb_seq_false. unfold ptr_fits.
  split; intros H i Hi.
  - intros Ha. specialize (H i Hi). rewrite Ha in H. cbn [andb] in H.
    apply orb_false_iff in H as [H H3]. apply orb_false_iff in H as [H1 H2].
    lia.
  - destruct (ptr_available c k i) eqn:Ha; [|done]. cbn [andb].
    destruct (H i Hi Ha) as [H1 [H2 H3]].
    apply orb_false_iff. split; [apply orb_false_iff; split|]; lia.
Qed.

(** X1: [__ptr_invalid] rejects a key exactly when the data behind one of its
    available pointers would run past the end of the bucket, or when that
    bucket is not one of the device's; a pointer to a device that is not
    there is not looked at. *)
Theorem __ptr_invalid_spec c k :
  __ptr_invalid c k = true <->
  exists i, (i < KEY_PTRS k)%nat /\ ptr_available c k i = true
            /\ ~ ptr_fits c k i.
Proof.
  split.
  - unfold __ptr_invalid. rewrite existsb_exists. intros (i & Hi & H).
    apply in_seq in Hi. apply andb_true_iff in H as [Ha H]. exists i.
    split; [lia|]. split; [done|]. unfold ptr_fits. intros [H1 [H2 H3]].
    apply orb_true_iff in H as [H|H]; [apply orb_true_iff in H as [H|H]|]; lia.
  - intros (i & Hi & Ha & Hf). apply not_false_iff_true. intros E.
    apply Hf. by eapply __ptr_invalid_false.
Qed.

(** ** Good extents *)

Lemma bch_extent_bad_expensive_false c k i r :
  bch_extent_bad_expensive c k i = (false, r) ->
  r = []
  /\ (bucket_lock_free c = true -> gc_mark_valid c = true ->
      GC_MARK (PTR_BUCKET c k i) <> GC_MARK_METADATA
      /\ (KEY_CACHED k = false -> GC_MARK (PTR_BUCKET c k i) = GC_MARK_DIRTY)).
Proof.
  unfold bch_extent_bad_expensive.
  destruct (bucket_lock_free c); [|by intros [= <-]].
  destruct (gc_mark_valid c); cbn [andb]; [|by intros [= <-]].
  destruct (bool_decide_reflect (GC_MARK (PTR_BUCKET c k i) = GC_MARK_METADATA))
    as [E|E]; [by rewrite orb_true_r|].
  rewrite orb_false_r.
  destruct (bool_decide_reflect (GC_MARK (PTR_BUCKET c k i) = GC_MARK_DIRTY))
    as [E'|E']; cbn [negb andb].
  - intros [= <-]. done.
  - destruct (KEY_CACHED k); cbn [negb]; [|done]. intros [= <-]. done.
Qed.

Lemma bch_extent_bad_ptrs_false c k idxs r :
  bch_extent_bad_ptrs c k idxs = (false, r) ->
  r = []
  /\ forall i, i ∈ idxs ->
       ptr_stale c k i = 0
       /\ (expensive_debug_checks c = true ->
           bch_extent_bad_expensive c k i = (false, [])).
Proof.
  revert r. induction idxs as [|j idxs IH]; intros r.
  { intros [= <-]. split; [done|]. intros i Hi. by apply elem_of_nil in Hi. }
  cbn [bch_extent_bad_ptrs].
  destruct (Z.eqb_spec (ptr_stale c k j) 0) as [E|E]; cbn [negb andb]; [|done].
  rewrite E. cbn [Z.gtb Z.compare app].
  destruct (if expensive_debug_checks c then _ else _) as [[] r3] eqn:Ee; [done|].
  destruct (bch_extent_bad_ptrs c k idxs) as [b' r4]. intros [= -> <-].
  destruct (IH r4 eq_refl) as [-> Hrest].
  assert (r3 = [] /\ (expensive_debug_checks c = true ->
                      bch_extent_bad_expensive c k j = (false, []))) as [-> Hj].
  { destruct (expensive_debug_checks c); [|by injection Ee as <-].
    destruct (bch_extent_bad_expensive_false _ _ _ _ Ee) as [-> _]. done. }
  split; [done|]. intros i [->|Hi]%elem_of_cons; [done|by apply Hrest].
Qed.

Lemma bch_extent_bad_false c k r :
  bch_extent_bad c k = (false, r) ->
  r = []
  /\ KEY_DELETED k = false /\ (0 < KEY_PTRS k)%nat
  /\ KEY_SIZE k <> 0 /\ KEY_SIZE k <= KEY_OFFSET k
  /\ forall i, (i < KEY_PTRS k)%nat ->
       ptr_available c k i = true /\ ptr_fits c k i
       /\ (KEY_CACHED k = true \/ expensive_debug_checks c = true ->
           ptr_stale c k i = 0)
       /\ (expensive_debug_checks c = true -> bucket_lock_free c = true ->
           gc_mark_valid c = true ->
           GC_MARK (PTR_BUCKET c k i) <> GC_MARK_METADATA
           /\ (KEY_CACHED k = false ->
               GC_MARK (PTR_BUCKET c k i) = GC_MARK_DIRTY)).
Proof.
  unfold bch_extent_bad, bch_extent_invalid.
  destruct (KEY_DELETED k); [done|]. cbn [orb].
  destruct (Nat.eqb_spec (KEY_PTRS k) 0) as [?|Hp]; [done|].
  destruct (Z.eqb_spec (KEY_SIZE k) 0) as [?|Hs]; [done|].
  destruct (Z.gtb_spec (KEY_SIZE k) (KEY_OFFSET k)) as [?|Hso]; [done|].
  destruct (__ptr_invalid c k) eqn:Hinv; [done|].
  destruct (existsb _ _) eqn:Hav; [done|].
  rewrite existsb_seq_false in Hav.
  pose proof (proj1 (__ptr_invalid_false c k) Hinv) as Hfit.
  assert (forall i, (i < KEY_PTRS k)%nat -> ptr_available c k i = true) as Ha.
  { intros i Hi. specialize (Hav i Hi). by apply negb_false_iff in Hav. }
  destruct (negb (expensive_debug_checks c) && negb (KEY_CACHED k)) eqn:Hskip.
  - intros [= <-]. apply andb_true_iff in Hskip as [He Hc].
    apply negb_true_iff in He, Hc.
    split; [done|]. do 4 (split; [done || lia|]). intros i Hi.
    split; [by apply Ha|]. split; [by apply Hfit; [|apply Ha]|].
    split; [intros [?|?]; congruence|congruence].
  - destruct (bch_extent_bad_ptrs c k (seq 0 (KEY_PTRS k))) as [b r'] eqn:Hl.
    intros [= -> <-]. destruct (bch_extent_bad_ptrs_false _ _ _ _ Hl) as [-> Hall].
    split; [done|]. do 4 (split; [done || lia|]). intros i Hi.
    destruct (Hall i) as [Hst Hexp]; [apply list_elem_of_In, in_seq; lia|].
    split; [by apply Ha|]. split; [by apply Hfit; [|apply Ha]|].
    split; [done|]. intros He Hlock Hgc.
    by eapply bch_extent_bad_expensive_false; [apply Hexp|..].
Qed.

(** X2: An extent that [bch_extent_bad] lets through: nothing was reported; the
    key is not deleted, has pointers, a size that is not 0 and not more
    than its offset; every pointer is available and fits its bucket; when
    the staleness loop ran (a cached key, or the expensive checks on) every
    pointer is fresh; and when the expensive checks ran under the bucket
    lock with valid marks, no bucket is marked metadata and a dirty key's
    buckets are marked dirty. *)
Theorem bch_extent_bad_good c k :
  (bch_extent_bad c k).1 = false ->
  (bch_extent_bad c k).2 = []
  /\ KEY_DELETED k = false /\ (0 < KEY_PTRS k)%nat
  /\ KEY_SIZE k <> 0 /\ KEY_SIZE k <= KEY_OFFSET k
  /\ forall i, (i < KEY_PTRS k)%nat ->
       ptr_available c k i = true /\ ptr_fits c k i
       /\ (KEY_CACHED k = true \/ expensive_debug_checks c = true ->
           ptr_stale c k i = 0)
       /\ (expensive_debug_checks c = true -> bucket_lock_free c = true ->
           gc_mark_valid c = true ->
           GC_MARK (PTR_BUCKET c k i) <> GC_MARK_METADATA
           /\ (KEY_CACHED k = false ->
               GC_MARK (PTR_BUCKET c k i) = GC_MARK_DIRTY)).
Proof.
  destruct (bch_extent_bad c k) as [b r] eqn:E. cbn [fst snd]. intros ->.
  exact (bch_extent_bad_false c k r E).
Qed.

Lemma bch_extent_bad_good_witness :
  ptr_stale (sample_cache_set 9 true) (sample_key false 9) 0 = 0
  /\ GC_MARK (PTR_BUCKET (sample_cache_set 9 true) (sample_key false 9) 0)
     = GC_MARK_DIRTY.
Proof.
  assert ((bch_extent_bad (sample_cache_set 9 true) (sample_key false 9)).1
          = false) as E by (vm_compute; reflexivity).
  destruct (bch_extent_bad_good _ _ E) as (_ & _ & _ & _ & _ & H).
  destruct (H 0%nat) as (_ & _ & Hst & Hm); [simpl; lia|].
  split; [apply Hst; by right|].
  by apply Hm.
Defined.

(** The staleness loop up to the first pointer that is not fresh, with the
    expensive checks off. *)
Lemma bch_extent_bad_ptrs_first_stale c k pre i post :
  expensive_debug_checks c = false ->
  (forall j, j ∈ pre -> ptr_stale c k j = 0) ->
  ptr_stale c k i <> 0 ->
  bch_extent_bad_ptrs c k (pre ++ i :: post) =
  (true,
   (if ptr_stale c k i >? 96 then [key_too_stale (ptr_stale c k i)] else [])
   ++ (if negb (KEY_CACHED k) && negb (KEY_SIZE k =? 0)
       then [stale_dirty_pointer] else [])).
Proof.
  intros He Hpre Hst. induction pre as [|j pre IH]; cbn [app bch_extent_bad_ptrs].
  - destruct (Z.eqb_spec (ptr_stale c k i) 0); [done|]. done.
  - rewrite (Hpre j) by apply list_elem_of_here. rewrite He.
    cbn [Z.eqb negb andb Z.gtb Z.compare app].
    rewrite IH; [done|]. intros x Hx. apply Hpre. by apply list_elem_of_further.
Qed.

(** X3: A cached extent past the cheap checks, with the expensive checks off,
    whose first pointer that is not fresh is [i]: the key is bad, and
    [key too stale] is reported exactly when the distance is more than 96;
    nothing else is reported. *)
Theorem bch_extent_bad_too_stale c k i :
  passes_cheap_checks c k -> KEY_CACHED k = true ->
  expensive_debug_checks c = false ->
  (i < KEY_PTRS k)%nat ->
  (forall j, (j < i)%nat -> ptr_stale c k j = 0) ->
  ptr_stale c k i <> 0 ->
  bch_extent_bad c k =
  (true, if ptr_stale c k i >? 96 then [key_too_stale (ptr_stale c k i)]
         else []).
Proof.
  intros Hp Hc He Hi Hpre Hst. rewrite (bch_extent_bad_passes _ _ Hp), Hc.
  rewrite andb_false_r.
  replace (seq 0 (KEY_PTRS k))
    with (seq 0 i ++ i :: seq (S i) (KEY_PTRS k - S i)).
  2:{ change (i :: seq (S i) (KEY_PTRS k - S i))
        with (seq i (S (KEY_PTRS k - S i))).
      rewrite <- (Nat.add_0_l i) at 2. rewrite <- seq_app. f_equal. lia. }
  rewrite bch_extent_bad_ptrs_first_stale; [|done| |done].
  - rewrite Hc. cbn [negb andb]. by rewrite app_nil_r.
  - intros j Hj. apply list_elem_of_In, in_seq in Hj. apply Hpre. lia.
Qed.

Lemma bch_extent_bad_too_stale_witness :
  bch_extent_bad (sample_cache_set 107 false) (sample_key true 10)
  = (true, [key_too_stale 97])
  /\ bch_extent_bad (sample_cache_set 106 false) (sample_key true 10)
     = (true, []).
Proof.
  assert (forall g, passes_cheap_checks (sample_cache_set g false)
                      (sample_key true 10)) as Hp.
  { intros g. split; [reflexivity|]. split; [discriminate|].
    split; [reflexivity|].
    intros i Hi. cbn in Hi. assert (i = 0%nat) as -> by lia. reflexivity. }
  split.
  - apply (bch_extent_bad_too_stale _ _ 0%nat (Hp 107) eq_refl eq_refl);
      [simpl; lia|intros j Hj; lia|vm_compute; discriminate].
  - apply (bch_extent_bad_too_stale _ _ 0%nat (Hp 106) eq_refl eq_refl);
      [simpl; lia|intros j Hj; lia|vm_compute; discriminate].
Defined.

(** X4: [bch_extent_invalid] accepts a key exactly when its size is not 0 and
    not more than its offset and every available pointer fits its bucket.
    A key of size 0 is rejected without a word; any other rejected key is
    reported once. *)
Theorem bch_extent_invalid_spec c k :
  ((bch_extent_invalid c k).1 = false <->
   KEY_SIZE k <> 0 /\ KEY_SIZE k <= KEY_OFFSET k
   /\ forall i, (i < KEY_PTRS k)%nat -> ptr_available c k i = true ->
        ptr_fits c k i)
  /\ (bch_extent_invalid c k).2 =
     (if (bch_extent_invalid c k).1 && negb (KEY_SIZE k =? 0)
      then [spotted_extent k] else []).
Proof.
  unfold bch_extent_invalid. rewrite <- __ptr_invalid_false.
  destruct (Z.eqb_spec (KEY_SIZE k) 0) as [Hs|Hs].
  { split; [|done]. cbn. split; [done|]. by intros [? _]. }
  destruct (Z.gtb_spec (KEY_SIZE k) (KEY_OFFSET k)) as [Hso|Hso].
  { split; [|done]. cbn. split; [done|]. lia. }
  destruct (__ptr_invalid c k); cbn; (split; [|done]).
  - split; [done|]. by intros (_ & _ & ?).
  - split; [|done]. intros _. split; [done|]. split; [lia|done].
Qed.

(** ** Btree pointers *)

Lemma bkey_cmp_ZERO_KEY k : bkey_cmp k ZERO_KEY = s64 (KEY_OFFSET k).
Proof.
  unfold bkey_cmp. change (KEY_OFFSET ZERO_KEY) with 0. by rewrite Z.sub_0_r.
Qed.

Lemma __bch_btree_ptr_invalid_report c k :
  (__bch_btree_ptr_invalid c k).2 =
  if (__bch_btree_ptr_invalid c k).1 then [spotted_btree_ptr k] else [].
Proof.
  unfold __bch_btree_ptr_invalid.
  by repeat (match goal with |- context [if ?b then _ else _] =>
                               destruct b; cbn [fst snd] end).
Qed.

Lemma __bch_btree_ptr_invalid_false c k :
  (__bch_btree_ptr_invalid c k).1 = false <->
  KEY_CACHED k = false
  /\ (KEY_DELETED k = true \/ (0 < KEY_PTRS k)%nat)
  /\ (bkey_cmp k ZERO_KEY = 0 \/ KEY_SIZE k <> 0)
  /\ forall i, (i < KEY_PTRS k)%nat -> ptr_available c k i = true ->
       ptr_fits c k i.
Proof.
  unfold __bch_btree_ptr_invalid. rewrite <- __ptr_invalid_false.
  destruct (KEY_CACHED k); [cbn; split; [done|by intros [? _]]|].
  destruct (KEY_DELETED k), (Nat.eqb_spec (KEY_PTRS k) 0) as [Hp|Hp];
    cbn [negb andb fst];
    destruct (Z.eqb_spec (bkey_cmp k ZERO_KEY) 0) as [Hz|Hz],
             (Z.eqb_spec (KEY_SIZE k) 0) as [Hs|Hs];
    cbn [negb andb fst]; try destruct (__ptr_invalid c k); cbn [fst];
    split; try done; try (intros (_ & H1 & H2 & H3); try done; lia);
    intros _; (split; [done|]); (split; [tauto || (right; lia)|]);
    (split; [tauto|done]).
Qed.

(** X5: [__bch_btree_ptr_invalid] accepts a key exactly when it is not cached,
    is deleted or has a pointer, sits at offset 0 or has a size other than
    0, and every available pointer fits its bucket.  Every key it rejects
    is reported once, and no other. *)
Theorem __bch_btree_ptr_invalid_spec c k :
  ((bch_btree_ptr_invalid c k).1 = false <->
   KEY_CACHED k = false
   /\ (KEY_DELETED k = true \/ (0 < KEY_PTRS k)%nat)
   /\ (bkey_cmp k ZERO_KEY = 0 \/ KEY_SIZE k <> 0)
   /\ forall i, (i < KEY_PTRS k)%nat -> ptr_available c k i = true ->
        ptr_fits c k i)
  /\ (bch_btree_ptr_invalid c k).2 =
     (if (bch_btree_ptr_invalid c k).1 then [spotted_btree_ptr k] else []).
Proof.
  unfold bch_btree_ptr_invalid.
  split; [apply __bch_btree_ptr_invalid_false|apply __bch_btree_ptr_invalid_report].
Qed.

Lemma find_seq_none (f : nat -> bool) n :
  find f (seq 0 n) = None <-> forall i, (i < n)%nat -> f i = false.
Proof.
  split.
  - intros H i Hi. eapply find_none; [exact H|]. apply in_seq. lia.
  - intros H. destruct (find f (seq 0 n)) as [i|] eqn:E; [|done].
    apply find_some in E as [Hi E]. apply in_seq in Hi.
    rewrite H in E by lia. done.
Qed.

Lemma btree_ptr_bad_expensive_false c k r :
  btree_ptr_bad_expensive c k = (false, r) ->
  r = []
  /\ (bucket_lock_free c = true ->
      forall i, (i < KEY_PTRS k)%nat -> btree_ptr_inconsistent c k i = false).
Proof.
  unfold btree_ptr_bad_expensive.
  destruct (bucket_lock_free c); [|by intros [= <-]].
  destruct (find _ _) eqn:E; [done|]. intros [= <-]. split; [done|].
  intros _. by apply find_seq_none.
Qed.

Lemma bch_btree_ptr_bad_false c k r :
  bch_btree_ptr_bad c k = (false, r) ->
  r = []
  /\ KEY_DELETED k = false /\ KEY_CACHED k = false
  /\ KEY_OFFSET k <> 0 /\ KEY_SIZE k <> 0 /\ (0 < KEY_PTRS k)%nat
  /\ forall i, (i < KEY_PTRS k)%nat ->
       ptr_available c k i = true /\ ptr_fits c k i
       /\ (expensive_debug_checks c = true -> bucket_lock_free c = true ->
           gc_mark_valid c = true ->
           GC_MARK (PTR_BUCKET c k i) = GC_MARK_METADATA).
Proof.
  unfold bch_btree_ptr_bad.
  destruct (KEY_DELETED k) eqn:Hd; [done|]. cbn [orb].
  destruct (Z.eqb_spec (bkey_cmp k ZERO_KEY) 0) as [?|Hz]; [done|].
  pose proof (__bch_btree_ptr_invalid_report c k) as Hrep.
  pose proof (__bch_btree_ptr_invalid_false c k) as Hinv.
  destruct (__bch_btree_ptr_invalid c k) as [[] r0]; [done|].
  cbn [fst snd] in *. subst r0.
  destruct (proj1 Hinv eq_refl) as (Hc & Hp & Hs & Hfit).
  destruct (existsb _ _) eqn:Hav; [done|]. rewrite existsb_seq_false in Hav.
  assert (forall i, (i < KEY_PTRS k)%nat -> ptr_available c k i = true) as Ha.
  { intros i Hi. specialize (Hav i Hi). by apply negb_false_iff in Hav. }
  assert (KEY_OFFSET k <> 0) as Ho.
  { intros E. apply Hz. rewrite bkey_cmp_ZERO_KEY, E. done. }
  assert (r = [] /\ (expensive_debug_checks c = true ->
                     bucket_lock_free c = true ->
                     forall i, (i < KEY_PTRS k)%nat ->
                       btree_ptr_inconsistent c k i = false) ->
          r = []
          /\ false = false /\ KEY_CACHED k = false
          /\ KEY_OFFSET k <> 0 /\ KEY_SIZE k <> 0 /\ (0 < KEY_PTRS k)%nat
          /\ forall i, (i < KEY_PTRS k)%nat ->
               ptr_available c k i = true /\ ptr_fits c k i
               /\ (expensive_debug_checks c = true -> bucket_lock_free c = true ->
                   gc_mark_valid c = true ->
                   GC_MARK (PTR_BUCKET c k i) = GC_MARK_METADATA)) as Hfin.
  { intros [-> Hexp]. split; [done|]. do 2 (split; [done|]).
    split; [done|]. split; [tauto|]. split; [destruct Hp; [congruence|done]|].
    intros i Hi. split; [by apply Ha|]. split; [by apply Hfit; [|apply Ha]|].
    intros He Hl Hg. specialize (Hexp He Hl i Hi).
    unfold btree_ptr_inconsistent in Hexp. rewrite (Ha i Hi), Hc, Hg in Hexp.
    cbn [andb orb] in Hexp. apply negb_false_iff in Hexp.
    by apply bool_decide_eq_true in Hexp. }
  destruct (expensive_debug_checks c).
  - destruct (btree_ptr_bad_expensive c k) as [b r'] eqn:Ee.
    intros [= -> <-]. apply Hfin.
    destruct (btree_ptr_bad_expensive_false _ _ _ Ee) as [-> H]. split; [done|].
    intros _. exact H.
  - intros [= <-]. apply Hfin. split; [done|]. done.
Qed.

(** X6: A btree pointer that [bch_btree_ptr_bad] lets through: nothing was
    reported; the key is neither deleted nor cached, is not at offset 0,
    has a size other than 0 and at least one pointer; every pointer is
    available and fits its bucket; and when the expensive checks ran under
    the bucket lock with valid marks, every bucket is marked metadata. *)
Theorem bch_btree_ptr_bad_good c k :
  (bch_btree_ptr_bad c k).1 = false ->
  (bch_btree_ptr_bad c k).2 = []
  /\ KEY_DELETED k = false /\ KEY_CACHED k = false
  /\ KEY_OFFSET k <> 0 /\ KEY_SIZE k <> 0 /\ (0 < KEY_PTRS k)%nat
  /\ forall i, (i < KEY_PTRS k)%nat ->
       ptr_available c k i = true /\ ptr_fits c k i
       /\ (expensive_debug_checks c = true -> bucket_lock_free c = true ->
           gc_mark_valid c = true ->
           GC_MARK (PTR_BUCKET c k i) = GC_MARK_METADATA).
Proof.
  destruct (bch_btree_ptr_bad c k) as [b r] eqn:E. cbn [fst snd]. intros ->.
  exact (bch_btree_ptr_bad_false c k r E).
Qed.

Lemma bch_btree_ptr_bad_good_witness :
  GC_MARK
    (PTR_BUCKET
       (mk_cache_set 1024 10
          [Some (mk_cache 1 16 (replicate 16 (mk_bucket 0 GC_MARK_METADATA 0)))]
          true true false true)
       (mk_bkey 2048 8 1 false false 0 [PTR 0 2048 0]) 0)
  = GC_MARK_METADATA.
Proof.
  set (c := mk_cache_set 1024 10
              [Some (mk_cache 1 16 (replicate 16 (mk_bucket 0 GC_MARK_METADATA 0)))]
              true true false true).
  set (k := mk_bkey 2048 8 1 false false 0 [PTR 0 2048 0]).
  assert ((bch_btree_ptr_bad c k).1 = false) as E by (vm_compute; reflexivity).
  destruct (bch_btree_ptr_bad_good c k E) as (_ & _ & _ & _ & _ & _ & H).
  destruct (H 0%nat) as (_ & _ & Hm); [simpl; lia|].
  apply Hm; reflexivity.
Defined.

(** X7: When [bch_btree_ptr_bad] reports an inconsistent pointer, the key is
    bad, it is the key and one of its pointers that are named, and the
    cause is the mark of the bucket: the test of the cached flag in
    [btree_ptr_bad_expensive] never decides, since a cached key does not
    get that far. *)
Theorem bch_btree_ptr_bad_inconsistent c k k' i :
  inconsistent_btree_pointer k' i ∈ (bch_btree_ptr_bad c k).2 ->
  (bch_btree_ptr_bad c k).1 = true
  /\ k' = k /\ (i < KEY_PTRS k)%nat
  /\ KEY_CACHED k = false
  /\ expensive_debug_checks c = true /\ bucket_lock_free c = true
  /\ gc_mark_valid c = true
  /\ GC_MARK (PTR_BUCKET c k i) <> GC_MARK_METADATA.
Proof.
  unfold bch_btree_ptr_bad.
  destruct (KEY_DELETED k || _); [by intros ?%elem_of_nil|].
  pose proof (__bch_btree_ptr_invalid_report c k) as Hrep.
  pose proof (__bch_btree_ptr_invalid_false c k) as Hinv.
  destruct (__bch_btree_ptr_invalid c k) as [[] r0]; cbn [fst snd] in *; subst r0.
  { intros [=]%list_elem_of_singleton. }
  destruct (proj1 Hinv eq_refl) as (Hc & _).
  destruct (existsb _ _); [by intros ?%elem_of_nil|].
  destruct (expensive_debug_checks c); [|by intros ?%elem_of_nil].
  unfold btree_ptr_bad_expensive.
  destruct (bucket_lock_free c); [|by intros ?%elem_of_nil].
  destruct (find _ _) as [j|] eqn:E; [|by intros ?%elem_of_nil].
  cbn [fst snd app]. intros [= -> ->]%list_elem_of_singleton.
  apply find_some in E as [Hj E]. apply in_seq in Hj.
  unfold btree_ptr_inconsistent in E. rewrite Hc in E. cbn [orb] in E.
  apply andb_true_iff in E as [_ E]. apply andb_true_iff in E as [Hg E].
  apply negb_true_iff, bool_decide_eq_false in E.
  split; [done|]. split; [done|]. split; [lia|]. done.
Qed.

Lemma bch_btree_ptr_bad_inconsistent_witness :
  (bch_btree_ptr_bad (sample_cache_set 0 true)
     (mk_bkey 2048 8 1 false false 0 [PTR 0 2048 0])).1 = true.
Proof.
  refine (proj1 (bch_btree_ptr_bad_inconsistent (sample_cache_set 0 true)
                   (mk_bkey 2048 8 1 false false 0 [PTR 0 2048 0])
                   (mk_bkey 2048 8 1 false false 0 [PTR 0 2048 0]) 0 _)).
  vm_compute. apply list_elem_of_here.
Defined.

(** X8: With the expensive checks on, the bucket lock free and the marks
    valid, no key is good both as an extent and as a btree pointer: the
    one wants no bucket marked metadata, the other all of them. *)
Theorem bch_extent_bad_btree_ptr_bad c k :
  expensive_debug_checks c = true -> bucket_lock_free c = true ->
  gc_mark_valid c = true ->
  (bch_extent_bad c k).1 = false -> (bch_btree_ptr_bad c k).1 = true.
Proof.
  intros He Hl Hg Hgood.
  destruct (bch_extent_bad c k) as [b r] eqn:E. cbn [fst] in Hgood. subst b.
  destruct (bch_extent_bad_false _ _ _ E) as (_ & _ & Hp & _ & _ & Hall).
  destruct (Hall 0%nat Hp) as (Ha & _ & _ & Hm).
  destruct (Hm He Hl Hg) as [Hmeta _].
  destruct (bch_btree_ptr_bad c k) as [[] r'] eqn:E'; [done|]. exfalso.
  destruct (bch_btree_ptr_bad_false _ _ _ E') as (_ & _ & _ & _ & _ & _ & Hall').
  destruct (Hall' 0%nat Hp) as (_ & _ & Hm'). by apply Hmeta, Hm'.
Qed.

Lemma bch_extent_bad_btree_ptr_bad_witness :
  (bch_btree_ptr_bad (sample_cache_set 9 true) (sample_key false 9)).1 = true.
Proof.
  apply bch_extent_bad_btree_ptr_bad; vm_compute; reflexivity.
Defined.

(** ** More on [bch_extent_merge] *)

Lemma ptr_at_set_ptr_ne k n v i : i <> n -> ptr_at (set_ptr k n v) i = ptr_at k i.
Proof.
  intros Hne. unfold ptr_at, set_ptr. cbn [ptr].
  rewrite !nth_lookup. by rewrite list_lookup_insert_ne.
Qed.

(** The merge proper, past the checks and the size test. *)
Lemma merge_success c l r :
  field_ok l -> field_ok r ->
  ~ merge_precondition_fails c l r ->
  KEY_SIZE l + KEY_SIZE r <= USHRT_MAX ->
  exists l',
    bch_extent_merge c l r = Ok (true, l', r)
    /\ KEY_START l' = KEY_START l
    /\ KEY_OFFSET l' = KEY_OFFSET r
    /\ KEY_SIZE l' = KEY_SIZE l + KEY_SIZE r
    /\ KEY_PTRS l' = KEY_PTRS l
    /\ KEY_DELETED l' = KEY_DELETED l /\ KEY_CACHED l' = KEY_CACHED l
    /\ forall i, (i < KEY_PTRS l)%nat -> ptr_at l' i = ptr_at l i.
Proof.
  intros Hl Hr Hpre Hsum.
  pose proof (merge_adjacent c l r Hl Hpre) as Hadj.
  rewrite (merge_passes _ _ _ Hpre).
  replace (KEY_SIZE l + KEY_SIZE r >? USHRT_MAX) with false by lia.
  cbv zeta. set (l1 := if negb (KEY_CSUM l =? 0) then _ else _).
  assert (KEY_OFFSET l1 = KEY_OFFSET l /\ KEY_SIZE l1 = KEY_SIZE l
          /\ KEY_PTRS l1 = KEY_PTRS l /\ KEY_DELETED l1 = KEY_DELETED l
          /\ KEY_CACHED l1 = KEY_CACHED l
          /\ forall i, (i < KEY_PTRS l)%nat -> ptr_at l1 i = ptr_at l i)
    as (Ho & Hs & Hp & Hd & Hc & Hptr).
  { subst l1. destruct (negb (KEY_CSUM l =? 0)); [|done].
    destruct (negb (KEY_CSUM r =? 0)); [|done].
    do 5 (split; [done|]). intros i Hi. apply ptr_at_set_ptr_ne. lia. }
  clearbody l1. eexists. split; [reflexivity|].
  destruct Hl as [Hlo Hls], Hr as [Hro Hrs]. unfold USHRT_MAX in *.
  unfold KEY_START in *. cbn. rewrite Ho, Hs.
  assert (u16 (KEY_SIZE l + KEY_SIZE r) = KEY_SIZE l + KEY_SIZE r) as ->
    by (apply u16_small; lia).
  split; [wrap_lia|]. split; [wrap_lia|]. split; [done|].
  do 3 (split; [done|]). intros i Hi. rewrite <- (Hptr i Hi). done.
Qed.

(** The overflow path: both keys stay, the left one full. *)
Lemma merge_overflow c l r :
  field_ok l -> field_ok r ->
  ~ merge_precondition_fails c l r ->
  KEY_SIZE l + KEY_SIZE r > USHRT_MAX ->
  exists l' r',
    bch_extent_merge c l r = Ok (false, l', r')
    /\ KEY_START l' = KEY_START l
    /\ KEY_OFFSET r' = KEY_OFFSET r
    /\ KEY_SIZE l' + KEY_SIZE r' = KEY_SIZE l + KEY_SIZE r
    /\ field_ok l' /\ field_ok r'.
Proof.
  intros Hl Hr Hpre Hsum.
  pose proof (merge_adjacent c l r Hl Hpre) as Hadj.
  rewrite (merge_passes _ _ _ Hpre).
  replace (KEY_SIZE l + KEY_SIZE r >? USHRT_MAX) with true by lia.
  cbv zeta.
  set (l2 := SET_KEY_SIZE (SET_KEY_OFFSET l _) _).
  destruct Hl as [Hlo Hls]. pose proof Hr as [Hro Hrs]. unfold USHRT_MAX in *.
  assert (KEY_OFFSET l2 = u64 (KEY_OFFSET l + (65535 - KEY_SIZE l))) as Eo.
  { cbn. f_equal. lia. }
  assert (KEY_SIZE l2 = 65535) as Es by done.
  assert (field_ok l2) as Hl2.
  { split; [rewrite Eo; apply u64_range|rewrite Es; unfold USHRT_MAX; lia]. }
  destruct (decide (KEY_SIZE l = 65535)) as [Efull|Hnf].
  - rewrite bch_cut_front_outside.
    + cbn [mbind result_bind]. exists l2, r.
      split; [done|]. unfold KEY_START in *. rewrite Es, Eo.
      split; [wrap_lia|]. split; [done|]. split; [lia|]. done.
    + unfold bkey_cmp. rewrite Eo. unfold KEY_START in *. wrap_lia.
    + unfold bkey_cmp. rewrite KEY_OFFSET_START_KEY, Eo. unfold KEY_START in *.
      wrap_lia.
  - destruct (bch_cut_front_inside l2 r (65535 - KEY_SIZE l))
      as (r' & -> & Ho' & Hs' & _); [done| |lia| |].
    { rewrite Eo. apply u64_range. }
    { rewrite Eo. unfold KEY_START in *. wrap_lia. }
    cbn [mbind result_bind]. exists l2, r'.
    split; [done|]. unfold KEY_START in *. rewrite Es, Eo, Ho', Hs'.
    split; [wrap_lia|]. split; [done|]. split; [lia|]. split; [done|].
    split; [by rewrite Ho'|]. rewrite Hs'. unfold USHRT_MAX. lia.
Qed.

(** The checksum field after a merge that goes through: kept if the right
    key carries a checksum, cleared otherwise. *)
Lemma merge_success_csum c l r l' r' :
  bch_extent_merge c l r = Ok (true, l', r') ->
  KEY_CSUM l' = if KEY_CSUM r =? 0 then 0 else KEY_CSUM l.
Proof.
  intros E.
  destruct (merge_precondition_fails_dec c l r) as [H|H].
  { apply merge_checks_spec in H. rewrite bch_extent_merge_unfold, H in E.
    discriminate. }
  rewrite (merge_passes _ _ _ H) in E.
  destruct (KEY_SIZE l + KEY_SIZE r >? USHRT_MAX).
  { cbv zeta in E. destruct (bch_cut_front _ r) as [[? ?]| |]; discriminate. }
  cbv zeta in E. injection E as <- _. cbn [KEY_CSUM SET_KEY_SIZE SET_KEY_OFFSET].
  destruct (Z.eqb_spec (KEY_CSUM l) 0) as [El|El],
           (Z.eqb_spec (KEY_CSUM r) 0) as [Er|Er]; cbn [negb]; done.
Qed.

(** X9: When [bch_extent_merge] returns true, the left key covers what the two
    covered: it starts where it started, ends where the right key ends,
    its size is the sum of the two; its pointer count, its pointers and
    its deleted and cached flags are what they were; its checksum field is
    kept if the right key carries a checksum and cleared otherwise; and
    the right key is left as it was. *)
Theorem bch_extent_merge_true c l r l' r' :
  field_ok l -> field_ok r ->
  bch_extent_merge c l r = Ok (true, l', r') ->
  r' = r
  /\ KEY_START l' = KEY_START l
  /\ KEY_OFFSET l' = KEY_OFFSET r
  /\ KEY_SIZE l' = KEY_SIZE l + KEY_SIZE r
  /\ KEY_PTRS l' = KEY_PTRS l
  /\ KEY_DELETED l' = KEY_DELETED l /\ KEY_CACHED l' = KEY_CACHED l
  /\ KEY_CSUM l' = (if KEY_CSUM r =? 0 then 0 else KEY_CSUM l)
  /\ forall i, (i < KEY_PTRS l)%nat -> ptr_at l' i = ptr_at l i.
Proof.
  intros Hl Hr E. pose proof (merge_success_csum _ _ _ _ _ E) as Hcs.
  destruct (merge_precondition_fails_dec c l r) as [H|H].
  { apply merge_checks_spec in H. rewrite bch_extent_merge_unfold, H in E.
    discriminate. }
  destruct (Z.le_gt_cases (KEY_SIZE l + KEY_SIZE r) USHRT_MAX) as [Hs|Hs].
  - destruct (merge_success c l r Hl Hr H Hs)
      as (l0 & E0 & H1 & H2 & H3 & H4 & H5 & H6 & H7).
    rewrite E0 in E. injection E as <- <-. done.
  - destruct (merge_overflow c l r Hl Hr H) as (l0 & r0 & E0 & _); [lia|].
    rewrite E0 in E. discriminate.
Qed.

Lemma bch_extent_merge_true_witness :
  KEY_START (mk_bkey 180 80 1 false false 0 [PTR 0 2148 0; 7]) = 100
  /\ KEY_SIZE (mk_bkey 180 80 1 false false 0 [PTR 0 2148 0; 7]) = 50 + 30
  /\ KEY_CSUM (mk_bkey 180 80 1 false false 0 [PTR 0 2148 0; 7]) = 0.
Proof.
  assert (bch_extent_merge (sample_cache_set 0 false)
            (mk_bkey 150 50 1 false false 1 [PTR 0 2148 0; 7])
            (mk_bkey 180 30 1 false false 0 [PTR 0 2198 0])
          = Ok (true, mk_bkey 180 80 1 false false 0 [PTR 0 2148 0; 7],
                mk_bkey 180 30 1 false false 0 [PTR 0 2198 0])) as E
    by (vm_compute; reflexivity).
  assert (field_ok (mk_bkey 150 50 1 false false 1 [PTR 0 2148 0; 7])) as Hl
    by (unfold field_ok, USHRT_MAX; simpl; lia).
  assert (field_ok (mk_bkey 180 30 1 false false 0 [PTR 0 2198 0])) as Hr
    by (unfold field_ok, USHRT_MAX; simpl; lia).
  destruct (bch_extent_merge_true _ _ _ _ _ Hl Hr E)
    as (_ & Hst & _ & Hsz & _ & _ & _ & Hcs & _).
  split; [exact Hst|]. split; [exact Hsz|exact Hcs].
Defined.

(** X10: [bch_extent_merge] returns true exactly when merging is enabled, every
    compatibility check passes and the sizes add up to no more than
    65535. *)
Theorem bch_extent_merge_true_iff c l r :
  (exists l' r', bch_extent_merge c l r = Ok (true, l', r')) <->
  ~ merge_precondition_fails c l r /\ KEY_SIZE l + KEY_SIZE r <= USHRT_MAX.
Proof.
  split.
  - intros (l' & r' & E).
    destruct (merge_precondition_fails_dec c l r) as [H|H].
    { apply merge_checks_spec in H. rewrite bch_extent_merge_unfold, H in E.
      discriminate. }
    split; [done|]. rewrite (merge_passes _ _ _ H) in E.
    destruct (Z.gtb_spec (KEY_SIZE l + KEY_SIZE r) USHRT_MAX) as [Hs|Hs]; [|lia].
    cbv zeta in E. destruct (bch_cut_front _ r) as [[? ?]| |]; discriminate.
  - intros [H Hs]. rewrite (merge_passes _ _ _ H).
    replace (KEY_SIZE l + KEY_SIZE r >? USHRT_MAX) with false by lia.
    cbv zeta. by eexists _, _.
Qed.

(** X11: For keys whose fields hold values of their types, [bch_extent_merge]
    never trips the [BUG_ON] of [bch_cut_front]; whatever it returns, the
    left key still starts where it started, the right key still ends where
    it ended, and no sector is lost or made up: the sizes left add up to
    the sizes given. *)
Theorem bch_extent_merge_conserves c l r :
  field_ok l -> field_ok r ->
  exists b l' r',
    bch_extent_merge c l r = Ok (b, l', r')
    /\ KEY_START l' = KEY_START l
    /\ KEY_OFFSET r' = KEY_OFFSET r
    /\ KEY_SIZE l' + (if b then 0 else KEY_SIZE r') = KEY_SIZE l + KEY_SIZE r.
Proof.
  intros Hl Hr.
  destruct (merge_precondition_fails_dec c l r) as [H|H].
  { apply merge_checks_spec in H. rewrite bch_extent_merge_unfold, H.
    by exists false, l, r. }
  destruct (Z.le_gt_cases (KEY_SIZE l + KEY_SIZE r) USHRT_MAX) as [Hs|Hs].
  - destruct (merge_success c l r Hl Hr H Hs) as (l' & E & Hst & _ & Hsz & _).
    exists true, l', r. split; [done|]. split; [done|]. split; [done|lia].
  - destruct (merge_overflow c l r Hl Hr H) as (l' & r' & E & Hst & Ho & Hsz & _);
      [lia|].
    by exists false, l', r'.
Qed.

Lemma bch_extent_merge_conserves_witness :
  exists b l' r',
    bch_extent_merge (sample_cache_set 0 false)
      (extent 70000 65530) (extent 70020 20) = Ok (b, l', r')
    /\ KEY_SIZE l' + (if b then 0 else KEY_SIZE r') = 65530 + 20.
Proof.
  destruct (bch_extent_merge_conserves (sample_cache_set 0 false)
              (extent 70000 65530) (extent 70020 20))
    as (b & l' & r' & E & _ & _ & Hs).
  - unfold field_ok, USHRT_MAX. simpl. lia.
  - unfold field_ok, USHRT_MAX. simpl. lia.
  - exists b, l', r'. split; [exact E|exact Hs].
Defined.

(** ** Merging keeps extents valid *)

Lemma PTR_sectors s : 0 <= s -> PTR 0 s 0 = s * 2 ^ 8.
Proof.
  intros Hs. unfold PTR. rewrite Z.shiftl_0_l, Z.lor_0_l, Z.lor_0_r.
  by rewrite Z.shiftl_mul_pow2.
Qed.

Lemma div_mod_pow2 x a b :
  0 <= a -> 0 <= b -> (x mod 2 ^ (a + b)) / 2 ^ a = (x / 2 ^ a) mod 2 ^ b.
Proof.
  intros Ha Hb. rewrite Z.pow_add_r by done.
  rewrite Z.rem_mul_r by lia.
  rewrite Z.mul_comm, Z.div_add by lia.
  rewrite Z.div_small by (apply Z.mod_pos_bound; lia). done.
Qed.

(** The fields of a pointer word moved on by [s] sectors. *)
Lemma PTR_OFFSET_advance l r i s :
  0 <= s -> ptr_at r i = u64 (ptr_at l i + s * 2 ^ 8) ->
  PTR_OFFSET r i = (PTR_OFFSET l i + s) mod 2 ^ 43.
Proof.
  intros Hs E. unfold PTR_OFFSET. rewrite E, !Z.land_ones, !Z.shiftr_div_pow2 by lia.
  unfold u64. rewrite (div_mod_pow2 _ 8 56) by lia.
  rewrite Z.div_add by lia.
  rewrite (Z.mod_mod_divide _ (2 ^ 56) (2 ^ 43)) by (exists (2 ^ 13); lia).
  by rewrite Zplus_mod_idemp_l.
Qed.

Lemma PTR_DEV_advance l r i s :
  0 <= s -> 0 <= ptr_at l i ->
  ptr_at r i = u64 (ptr_at l i + s * 2 ^ 8) ->
  PTR_OFFSET l i + s < 2 ^ 43 ->
  PTR_DEV r i = PTR_DEV l i.
Proof.
  intros Hs Hp E Hno. unfold PTR_DEV, PTR_OFFSET in *.
  rewrite E. rewrite !Z.land_ones, !Z.shiftr_div_pow2 in * by lia.
  unfold u64. rewrite (div_mod_pow2 _ 51 13) by lia.
  rewrite (Z.mod_mod_divide _ (2 ^ 13) (2 ^ 12)) by (exists 2; lia).
  f_equal.
  change (2 ^ 51) with (2 ^ 8 * 2 ^ 43).
  rewrite <- !Z.div_div by lia. rewrite Z.div_add by lia.
  set (q := ptr_at l i / 2 ^ 8) in *.
  assert (0 <= q) by (apply Z.div_pos; lia).
  pose proof (Z.div_mod q (2 ^ 43) ltac:(lia)) as Hq.
  pose proof (Z.mod_pos_bound q (2 ^ 43) ltac:(lia)) as Hr.
  set (h := q / 2 ^ 43) in *. set (o := q mod 2 ^ 43) in *.
  symmetry. apply (Z.div_unique _ _ h (o + s)); lia.
Qed.

Lemma bucket_remainder_mod c x :
  bucket_size c = 2 ^ bucket_bits c -> 0 <= bucket_bits c ->
  bucket_remainder c x = x mod 2 ^ bucket_bits c.
Proof.
  intros HB Hb. unfold bucket_remainder. rewrite HB.
  replace (2 ^ bucket_bits c - 1) with (Z.ones (bucket_bits c))
    by (rewrite Z.ones_equiv; lia).
  by apply Z.land_ones.
Qed.

Lemma PTR_BUCKET_NR_div c k i :
  0 <= bucket_bits c ->
  PTR_BUCKET_NR c k i = PTR_OFFSET k i / 2 ^ bucket_bits c.
Proof. intros Hb. unfold PTR_BUCKET_NR. by apply Z.shiftr_div_pow2. Qed.

Lemma PTR_OFFSET_range k i : 0 <= PTR_OFFSET k i < 2 ^ 43.
Proof.
  unfold PTR_OFFSET. rewrite Z.land_ones by lia. apply Z.mod_pos_bound. lia.
Qed.

(** A pointer that stays in its bucket when moved on by [s] sectors has
    not wrapped, and sits [s] further into the bucket. *)
Lemma same_bucket_advance B n o s :
  0 < B -> B * n = 2 ^ 43 -> 1 < n ->
  0 <= o < 2 ^ 43 -> 0 <= s -> s + o mod B <= B ->
  o / B = ((o + s) mod 2 ^ 43) / B ->
  (o + s) mod 2 ^ 43 = o + s /\ (o + s) mod B = o mod B + s.
Proof.
  intros HB Hn Hn1 Ho Hs Hfit Hsame.
  pose proof (Z.div_mod o B ltac:(lia)) as Hdm.
  pose proof (Z.mod_pos_bound o B HB) as Hm.
  set (a := o / B) in *. set (m := o mod B) in *.
  assert (a < n) as Han by (apply Z.div_lt_upper_bound; lia).
  assert (B * a + B <= B * n) as Hup by nia.
  set (P := B * a) in *.
  assert (o + s < 2 ^ 43) as Hno.
  { destruct (decide (o + s = 2 ^ 43)) as [E|E]; [|lia]. exfalso.
    rewrite E, Z.mod_same, Z.div_0_l in Hsame by lia.
    assert (B < B * n) by nia. subst P. rewrite Hsame in *. lia. }
  rewrite (Z.mod_small (o + s)) in * by lia. split; [done|].
  pose proof (Z.div_mod (o + s) B ltac:(lia)) as Hdm'.
  pose proof (Z.mod_pos_bound (o + s) B HB) as Hm'.
  rewrite <- Hsame in Hdm'. fold P in Hdm'. lia.
Qed.

Lemma bch_extent_invalid_false c k :
  (bch_extent_invalid c k).1 = false <->
  KEY_SIZE k <> 0 /\ KEY_SIZE k <= KEY_OFFSET k /\ __ptr_invalid c k = false.
Proof.
  unfold bch_extent_invalid.
  destruct (Z.eqb_spec (KEY_SIZE k) 0) as [Hs|Hs].
  { cbn. split; [done|]. by intros [? _]. }
  destruct (Z.gtb_spec (KEY_SIZE k) (KEY_OFFSET k)) as [Hso|Hso].
  { cbn. split; [done|]. lia. }
  destruct (__ptr_invalid c k); cbn.
  - split; [done|]. by intros (_ & _ & ?).
  - split; [|done]. intros _. split; [done|]. split; [lia|done].
Qed.

(** X12: Two valid extents that merge give a valid extent: with buckets a power
    of two sectors long, the check that each pair of pointers lies in one
    bucket makes the merged key fit where the two fitted. *)
Theorem bch_extent_merge_valid c l r l' r' :
  bucket_size c = 2 ^ bucket_bits c -> 0 <= bucket_bits c < 43 ->
  field_ok l -> field_ok r ->
  (forall i, 0 <= ptr_at l i) ->
  (bch_extent_invalid c l).1 = false ->
  (bch_extent_invalid c r).1 = false ->
  bch_extent_merge c l r = Ok (true, l', r') ->
  (bch_extent_invalid c l').1 = false.
Proof.
  intros HB Hbits Hl Hr Hw Hvl Hvr E.
  destruct (merge_precondition_fails_dec c l r) as [H|H].
  { apply merge_checks_spec in H. rewrite bch_extent_merge_unfold, H in E.
    discriminate. }
  destruct (Z.le_gt_cases (KEY_SIZE l + KEY_SIZE r) USHRT_MAX) as [Hs|Hs].
  2:{ destruct (merge_overflow c l r Hl Hr H) as (l0 & r0 & E0 & _); [lia|].
      rewrite E0 in E. discriminate. }
  destruct (merge_success c l r Hl Hr H Hs)
    as (l0 & E0 & Hst & Hoff & Hsz & Hp & _ & _ & Hptr).
  rewrite E0 in E. injection E as <- <-.
  pose proof (merge_adjacent c l r Hl H) as Hadj.
  apply bch_extent_invalid_false in Hvl as (Hsl & Hsol & Hil).
  apply bch_extent_invalid_false in Hvr as (Hsr & Hsor & Hir).
  rewrite __ptr_invalid_false in Hil, Hir.
  assert (KEY_PTRS l = KEY_PTRS r) as Hpr.
  { destruct (decide (KEY_PTRS l = KEY_PTRS r)); [done|].
    destruct H. right. by left. }
  assert (forall i, (i < KEY_PTRS l)%nat ->
            ptr_at r i = u64 (ptr_at l i + PTR 0 (KEY_SIZE l) 0)
            /\ PTR_BUCKET_NR c l i = PTR_BUCKET_NR c r i) as Hchk.
  { intros i Hi.
    destruct (decide (u64 (ptr_at l i + PTR 0 (KEY_SIZE l) 0) = ptr_at r i))
      as [E1|E1], (decide (PTR_BUCKET_NR c l i = PTR_BUCKET_NR c r i))
      as [E2|E2]; [done|..]; destruct H; do 5 right; exists i; tauto. }
  destruct Hl as [Hlo Hls], Hr as [Hro Hrs]. unfold USHRT_MAX in *.
  apply bch_extent_invalid_false. rewrite Hsz, Hoff.
  split; [lia|]. split.
  { rewrite Hadj in Hsol. unfold KEY_START in Hsol.
    rewrite u64_small in Hsol by lia. lia. }
  apply __ptr_invalid_false. rewrite Hp. intros i Hi Ha.
  specialize (Hptr i Hi). destruct (Hchk i Hi) as [Hadv Hsame].
  rewrite PTR_sectors in Hadv by lia.
  assert (PTR_OFFSET l0 i = PTR_OFFSET l i) as Eo
    by (unfold PTR_OFFSET; by rewrite Hptr).
  assert (PTR_DEV l0 i = PTR_DEV l i) as Ed
    by (unfold PTR_DEV; by rewrite Hptr).
  assert (ptr_available c l i = true) as Hal.
  { unfold ptr_available, PTR_CACHE in *. by rewrite <- Ed. }
  destruct (Hil i Hi Hal) as [Hfit Hrange].
  rewrite (bucket_remainder_mod c) in Hfit by (done || lia).
  rewrite !(PTR_BUCKET_NR_div c) in Hsame by lia.
  rewrite (PTR_OFFSET_advance l r i (KEY_SIZE l)) in Hsame by (lia || done).
  destruct (same_bucket_advance (2 ^ bucket_bits c) (2 ^ (43 - bucket_bits c))
              (PTR_OFFSET l i) (KEY_SIZE l)) as [Hno Hrem].
  { apply Z.pow_pos_nonneg; lia. }
  { rewrite <- Z.pow_add_r by lia. f_equal. lia. }
  { apply Z.pow_gt_1; lia. }
  { apply PTR_OFFSET_range. }
  { lia. }
  { by rewrite HB in Hfit. }
  { done. }
  assert (PTR_OFFSET r i = PTR_OFFSET l i + KEY_SIZE l) as Eor.
  { rewrite (PTR_OFFSET_advance l r i (KEY_SIZE l)) by (lia || done). done. }
  assert (PTR_DEV r i = PTR_DEV l i) as Edr.
  { apply (PTR_DEV_advance l r i (KEY_SIZE l)); [lia|done|done|].
    pose proof (PTR_OFFSET_range r i). lia. }
  assert (ptr_available c r i = true) as Har.
  { unfold ptr_available, PTR_CACHE in *. by rewrite Edr. }
  destruct (Hir i ltac:(lia) Har) as [Hfitr _].
  rewrite (bucket_remainder_mod c) in Hfitr by (done || lia).
  rewrite Eor, Hrem in Hfitr.
  unfold ptr_fits in *. unfold PTR_CACHE, PTR_BUCKET_NR in *.
  rewrite Eo, Ed, Hsz. rewrite (bucket_remainder_mod c) by (done || lia).
  split; [lia|done].
Qed.

Lemma bch_extent_merge_valid_witness :
  (bch_extent_invalid (sample_cache_set 0 false)
     (mk_bkey 180 80 1 false false 0 [PTR 0 2148 0])).1 = false.
Proof.
  apply (bch_extent_merge_valid (sample_cache_set 0 false)
           (mk_bkey 150 50 1 false false 0 [PTR 0 2148 0])
           (mk_bkey 180 30 1 false false 0 [PTR 0 2198 0]) _
           (mk_bkey 180 30 1 false false 0 [PTR 0 2198 0])).
  - reflexivity.
  - simpl. lia.
  - unfold field_ok, USHRT_MAX. simpl. lia.
  - unfold field_ok, USHRT_MAX. simpl. lia.
  - intros [|[|i]]; vm_compute; discriminate.
  - reflexivity.
  - reflexivity.
  - vm_compute. reflexivity.
Defined.

(** ** The sort orders *)

Lemma cmp_by_true ord m a b :
  cmp_by ord m a b = true <->
  ord (key_at m a) > ord (key_at m b)
  \/ (ord (key_at m a) = ord (key_at m b) /\ (iter_k a < iter_k b)%nat).
Proof.
  unfold cmp_by.
  destruct (Z.eqb_spec (ord (key_at m a) - ord (key_at m b)) 0);
    cbn [negb]; [rewrite Nat.ltb_lt|]; lia.
Qed.

(** X13: [bch_extent_sort_cmp], on keys whose offsets stay below 2^63, is what
    its comment says: true if [l] starts after [r], or if the two start
    together and [l] is the older one.  It is a strict order, and of two
    cursors at different addresses one sorts after the other. *)
Theorem bch_extent_sort_cmp_order m a b c :
  key_ok (key_at m a) -> key_ok (key_at m b) -> key_ok (key_at m c) ->
  (bch_extent_sort_cmp m a b = true <->
   KEY_START (key_at m a) > KEY_START (key_at m b)
   \/ (KEY_START (key_at m a) = KEY_START (key_at m b)
       /\ (iter_k a < iter_k b)%nat))
  /\ (bch_extent_sort_cmp m a b = true -> bch_extent_sort_cmp m b a = false)
  /\ (bch_extent_sort_cmp m a b = true -> bch_extent_sort_cmp m b c = true ->
      bch_extent_sort_cmp m a c = true)
  /\ (iter_k a <> iter_k b ->
      bch_extent_sort_cmp m a b = true \/ bch_extent_sort_cmp m b a = true).
Proof.
  intros Ha Hb Hc.
  rewrite !(bch_extent_sort_cmp_ok m a b), !(bch_extent_sort_cmp_ok m b a),
    !(bch_extent_sort_cmp_ok m b c), !(bch_extent_sort_cmp_ok m a c) by done.
  split; [apply cmp_by_true|]. split; [apply cmp_by_asym|].
  rewrite !cmp_by_true. split; [lia|]. lia.
Qed.

Lemma bch_extent_sort_cmp_order_witness :
  bch_extent_sort_cmp [extent 100 50; extent 80 30]
    (mk_iter_set 0 1) (mk_iter_set 1 2) = true
  /\ bch_extent_sort_cmp [extent 100 50; extent 80 30]
       (mk_iter_set 1 2) (mk_iter_set 0 1) = false.
Proof.
  assert (forall i, key_ok (key_at [extent 100 50; extent 80 30] (mk_iter_set i (S i))))
    as Hok.
  { intros [|[|i]]; vm_compute; repeat split; discriminate. }
  destruct (bch_extent_sort_cmp_order [extent 100 50; extent 80 30]
              (mk_iter_set 0 1) (mk_iter_set 1 2) (mk_iter_set 0 1)
              (Hok 0%nat) (Hok 1%nat) (Hok 0%nat)) as (Hiff & Hasym & _).
  assert (bch_extent_sort_cmp [extent 100 50; extent 80 30]
            (mk_iter_set 0 1) (mk_iter_set 1 2) = true) as E.
  { apply Hiff. right. split; [reflexivity|simpl; lia]. }
  split; [exact E|exact (Hasym E)].
Defined.

(** X14: [bch_key_sort_cmp], on keys whose offsets stay below 2^63: true if [l]
    lies after [r], or if the two compare equal and [l] is the older one;
    a strict order, total on cursors at different addresses. *)
Theorem bch_key_sort_cmp_order m a b c :
  key_ok (key_at m a) -> key_ok (key_at m b) -> key_ok (key_at m c) ->
  (bch_key_sort_cmp m a b = true <->
   KEY_OFFSET (key_at m a) > KEY_OFFSET (key_at m b)
   \/ (KEY_OFFSET (key_at m a) = KEY_OFFSET (key_at m b)
       /\ (iter_k a < iter_k b)%nat))
  /\ (bch_key_sort_cmp m a b = true -> bch_key_sort_cmp m b a = false)
  /\ (bch_key_sort_cmp m a b = true -> bch_key_sort_cmp m b c = true ->
      bch_key_sort_cmp m a c = true)
  /\ (iter_k a <> iter_k b ->
      bch_key_sort_cmp m a b = true \/ bch_key_sort_cmp m b a = true).
Proof.
  intros Ha Hb Hc.
  rewrite !(bch_key_sort_cmp_ok m a b), !(bch_key_sort_cmp_ok m b a),
    !(bch_key_sort_cmp_ok m b c), !(bch_key_sort_cmp_ok m a c) by done.
  split; [apply cmp_by_true|]. split; [apply cmp_by_asym|].
  rewrite !cmp_by_true. split; [lia|]. lia.
Qed.

Lemma bch_key_sort_cmp_order_witness :
  bch_key_sort_cmp [extent 100 0; extent 100 0]
    (mk_iter_set 0 1) (mk_iter_set 1 2) = true
  /\ bch_key_sort_cmp [extent 100 0; extent 100 0]
       (mk_iter_set 1 2) (mk_iter_set 0 1) = false.
Proof.
  assert (forall i, key_ok (key_at [extent 100 0; extent 100 0] (mk_iter_set i (S i))))
    as Hok.
  { intros [|[|i]]; vm_compute; repeat split; discriminate. }
  destruct (bch_key_sort_cmp_order [extent 100 0; extent 100 0]
              (mk_iter_set 0 1) (mk_iter_set 1 2) (mk_iter_set 0 1)
              (Hok 0%nat) (Hok 1%nat) (Hok 0%nat)) as (Hiff & Hasym & _).
  assert (bch_key_sort_cmp [extent 100 0; extent 100 0]
            (mk_iter_set 0 1) (mk_iter_set 1 2) = true) as E.
  { apply Hiff. right. split; [reflexivity|simpl; lia]. }
  split; [exact E|exact (Hasym E)].
Defined.

(** ** Moving a cursor on *)

(** X15: [sort_key_next] on cursor [i]: a cursor with keys left is moved on by
    one key where it stands; one at its last key leaves the heap, the last
    entry taking its place, so that one entry less is in use and all the
    other cursors are still there. *)
Theorem sort_key_next_cursors d i :
  (i < length d)%nat ->
  let s := d !!! i in
  (S (iter_k s) <> iter_end s ->
   sort_key_next d i = <[i := mk_iter_set (S (iter_k s)) (iter_end s)]> d)
  /\ (S (iter_k s) = iter_end s ->
      length (sort_key_next d i) = (length d - 1)%nat
      /\ sort_key_next d i ≡ₚ delete i d
      /\ ((i < length d - 1)%nat ->
          sort_key_next d i !!! i = d !!! (length d - 1)%nat)).
Proof.
  intros Hi s. rewrite sort_key_next_spec by done. fold s.
  split; intros E.
  - by rewrite decide_False by done.
  - rewrite decide_True by done.
    split; [apply take_swap_length|]. split; [by apply take_swap_perm|].
    intros Hlt. rewrite lookup_total_take_lt by lia.
    by rewrite heap_swap_lookup_l by lia.
Qed.

Lemma sort_key_next_cursors_witness :
  sort_key_next [mk_iter_set 0 2; mk_iter_set 2 3; mk_iter_set 3 5] 1
  ≡ₚ delete 1%nat [mk_iter_set 0 2; mk_iter_set 2 3; mk_iter_set 3 5].
Proof.
  refine (proj1 (proj2 (proj2 (sort_key_next_cursors
            [mk_iter_set 0 2; mk_iter_set 2 3; mk_iter_set 3 5] 1 _) _))).
  - simpl. lia.
  - reflexivity.
Defined.

(** ** More on the extent fixup and merge *)

Lemma length_advanced s rest :
  (length (advanced s rest) <= S (length rest))%nat.
Proof. unfold advanced. destruct (decide _); cbn [length]; lia. Qed.

(** X16: On a well-formed iterator, with more fuel than the keys weigh,
    [bch_extent_sort_fixup] comes to an end without reaching its [BUG_ON]:
    the iterator is well-formed again, no key was added to the store and
    no cursor to the heap, and the top key ends at or before the start of
    the key under every other cursor. *)
Theorem bch_extent_sort_fixup_settles lo fuel iter :
  iter_inv KEY_START KEY_OFFSET lo iter -> (iter_weight iter < fuel)%nat ->
  exists iter',
    bch_extent_sort_fixup fuel iter = Ok iter'
    /\ iter_inv KEY_START KEY_OFFSET lo iter'
    /\ length (store iter') = length (store iter)
    /\ (used iter' <= used iter)%nat
    /\ forall x, (0 < x < used iter')%nat ->
         KEY_OFFSET (key_at (store iter') (data iter' !!! 0%nat))
         <= KEY_START (key_at (store iter') (data iter' !!! x)).
Proof.
  intros Hinv Hw.
  destruct (bch_extent_sort_fixup_spec
              (fun it => length (store it) = length (store iter)
                         /\ (used it <= used iter)%nat) lo fuel iter)
    as (iter' & E & Hinv' & [Hlen Hu] & _ & _ & Hsep); try done.
  - intros it it' s _ [Hl Hu] (Hs & Hlen & [(_ & _ & Hp)|(_ & _ & rest & Hp & Hp')]).
    + split; [congruence|]. unfold used in *. by rewrite Hp.
    + split; [congruence|]. unfold used in *. rewrite Hp'.
      pose proof (length_advanced s rest). rewrite Hp in Hu. cbn in Hu. lia.
  - by exists iter'.
Qed.

Lemma bch_extent_sort_fixup_settles_witness :
  exists iter',
    bch_extent_sort_fixup 300
      (bch_btree_iter_init bch_extent_sort_cmp
         [[extent 100 100]; [extent 60 10]]) = Ok iter'
    /\ (used iter' <= 2)%nat.
Proof.
  assert (wf_runs [[extent 100 100]; [extent 60 10]]) as Hwf.
  { repeat (apply Forall_cons_2 || apply Forall_nil_2).
    all: vm_compute; repeat split; discriminate. }
  destruct (bch_btree_iter_init_spec KEY_START KEY_OFFSET
              bch_extent_sort_cmp bch_extent_sort_cmp_ok _ Hwf)
    as (Hinv & _ & _ & Hw).
  destruct (bch_extent_sort_fixup_settles 0 300 _ Hinv)
    as (iter' & E & _ & _ & Hu & _).
  - rewrite Hw. vm_compute. lia.
  - exists iter'. split; [exact E|exact Hu].
Defined.

(** *** No key is emitted twice *)

Lemma in_advanced_range t s rest :
  t ∈ advanced s rest ->
  t ∈ rest \/ (iter_k t = S (iter_k s) /\ iter_end t = iter_end s).
Proof.
  intros [?|[-> _]]%elem_of_advanced; [by left|right; done].
Qed.

Lemma emitted_behind_fixup lo out :
  kept_by_fixup empty_extent KEY_START KEY_OFFSET lo
    (fun it => emitted_behind it out).
Proof.
  intros it it' s _ Hq (Hs & _ & [(_ & _ & Hp)|(_ & _ & rest & Hp & Hp')]).
  - intros a t Ha Ht. apply Hq; [done|]. by rewrite <- Hp.
  - intros a t Ha Ht. rewrite Hp' in Ht.
    apply in_advanced_range in Ht as [Ht|[Hk He]].
    + apply Hq; [done|]. rewrite Hp. by apply list_elem_of_further.
    + specialize (Hq a s Ha Hs). lia.
Qed.

Lemma emitted_behind_emit lo iter out iter2 :
  iter_inv KEY_START KEY_OFFSET lo iter ->
  emitted_behind iter out /\ NoDup out.*1
  /\ (forall a, a ∈ out.*1 -> (a < length (store iter))%nat) ->
  (0 < used iter)%nat -> store iter2 = store iter ->
  data iter2 ≡ₚ advanced (data iter !!! 0%nat) (delete 0%nat (data iter)) ->
  let e := (iter_k (data iter !!! 0%nat),
            key_at (store iter) (data iter !!! 0%nat)) in
  emitted_behind iter2 (out ++ [e]) /\ NoDup (out ++ [e]).*1
  /\ (forall a, a ∈ (out ++ [e]).*1 -> (a < length (store iter2))%nat).
Proof.
  intros [Hc Hap _] (Hq & Hnd & Hb) Hu Hst Hp e. unfold used in Hu.
  set (top := data iter !!! 0%nat) in *.
  assert (top ∈ data iter) as Htop by by apply list_elem_of_lookup_total_2.
  pose proof (lookup_total_perm_head (data iter) 0 Hu) as Hperm. fold top in Hperm.
  rewrite Forall_forall in Hc. destruct (Hc top Htop) as [Hr _].
  subst e. rewrite fmap_app. cbn [fmap list_fmap fst].
  split; [|split].
  - intros a t Ha Ht. rewrite Hp in Ht. rewrite fmap_app in Ha.
    cbn [fmap list_fmap fst] in Ha.
    apply elem_of_app in Ha as [Ha|Ha%list_elem_of_singleton].
    + apply in_advanced_range in Ht as [Ht|[Hk He]].
      * apply Hq; [done|]. rewrite Hperm. by apply list_elem_of_further.
      * specialize (Hq a top Ha Htop). lia.
    + subst a. apply in_advanced_range in Ht as [Ht|[Hk He]]; [|lia].
      assert (t ∈ data iter) as Ht' by (rewrite Hperm; by apply list_elem_of_further).
      destruct (Hc t Ht') as [Hrt _].
      destruct Hap as [Hnd' Hd]. destruct (Hd top t Htop Ht') as [E|?]; [|lia].
      exfalso. rewrite Hperm in Hnd'. cbn in Hnd'. apply NoDup_cons_1_1 in Hnd'.
      apply Hnd'. rewrite E. by apply list_elem_of_fmap_2.
  - apply NoDup_app. split; [done|]. split; [|apply NoDup_singleton].
    intros a Ha Ha'%list_elem_of_singleton. subst a.
    specialize (Hq _ top Ha Htop). lia.
  - intros a [Ha|Ha%list_elem_of_singleton]%elem_of_app; rewrite Hst;
      [by apply Hb|lia].
Qed.

(** X17: The merge of well-formed runs of extents emits no key twice: every
    emitted entry comes from an address of its own in the store, so that no
    more keys come out than went in. *)
Theorem extent_mergesort_once runs fuel :
  wf_runs runs -> (runs_weight runs < fuel)%nat ->
  exists out,
    extent_mergesort fuel runs = Ok out
    /\ NoDup out.*1
    /\ (forall a, a ∈ out.*1 -> (a < length (concat runs))%nat)
    /\ (length out <= length (concat runs))%nat.
Proof.
  intros Hwf Hfuel.
  destruct (bch_btree_iter_init_spec KEY_START KEY_OFFSET
              bch_extent_sort_cmp bch_extent_sort_cmp_ok runs Hwf)
    as (_ & Hst & _).
  destruct (extent_mergesort_run
              (fun it out => emitted_behind it out /\ NoDup out.*1
                 /\ (forall a, a ∈ out.*1 -> (a < length (store it))%nat)
                 /\ length (store it) = length (concat runs))
              runs fuel Hwf Hfuel)
    as (out & iter' & E & _ & _ & _ & Hnd & Hb & Hlen).
  - intros lo out it it' s Hinv (Hq & Hnd & Hb & Hl) Ht.
    split; [by eapply (emitted_behind_fixup lo out it it' s)|].
    split; [done|]. destruct Ht as (_ & Hlen & _).
    split; [|congruence]. intros a Ha. rewrite Hlen. by apply Hb.
  - intros lo iter out iter2 Hinv (Hq & Hnd & Hb & Hl) Hu Hs Hd.
    destruct (emitted_behind_emit lo iter out iter2 Hinv) as (? & ? & ?);
      try done.
    do 3 (split; [done|]). congruence.
  - split; [intros a s Ha; by apply elem_of_nil in Ha|].
    split; [apply NoDup_nil_2|]. split; [|by rewrite Hst].
    intros a Ha. by apply elem_of_nil in Ha.
  - exists out. do 2 (split; [done|]). rewrite Hlen in Hb. split; [done|].
    assert (length out.*1 <= length (seq 0 (length (concat runs))))%nat as Hle.
    { apply submseteq_length, NoDup_submseteq; [done|].
      intros a Ha. apply list_elem_of_In, in_seq. specialize (Hb a Ha). lia. }
    by rewrite length_fmap, length_seq in Hle.
Qed.

Lemma extent_mergesort_once_witness :
  exists out,
    extent_mergesort 300
      [[extent 80 10]; [extent 100 100]; [extent 60 10; extent 120 20]]
    = Ok out
    /\ NoDup out.*1 /\ (length out <= 4)%nat.
Proof.
  assert (wf_runs
            [[extent 80 10]; [extent 100 100]; [extent 60 10; extent 120 20]])
    as Hwf.
  { repeat (apply Forall_cons_2 || apply Forall_nil_2).
    all: vm_compute; repeat split; discriminate. }
  assert (runs_weight
            [[extent 80 10]; [extent 100 100]; [extent 60 10; extent 120 20]]
          < 300)%nat as Hfuel by (vm_compute; lia).
  pose proof (extent_mergesort_once _ 300 Hwf Hfuel) as (out & E & Hnd & _ & Hl).
  exists out. split; [exact E|]. split; [exact Hnd|exact Hl].
Defined.

(** *** Keys are only ever trimmed *)

Lemma within_refl k : within k k.
Proof. unfold within. lia. Qed.

Lemma within_trans k1 k2 k3 : within k1 k2 -> within k2 k3 -> within k1 k3.
Proof. unfold within. lia. Qed.

Lemma within_insert (m : list bkey) a x :
  (a < length m)%nat -> within x (m !!! a) ->
  forall b, within (<[a := x]> m !!! b) (m !!! b).
Proof.
  intros Ha Hx b. destruct (decide (b = a)) as [->|Hne].
  - by rewrite list_lookup_total_insert_eq.
  - rewrite list_lookup_total_insert_ne by done. apply within_refl.
Qed.

(** A round of the extent fixup leaves every key of the store as it was or
    trims it. *)
Lemma bch_extent_sort_fixup_body_within lo iter iter' :
  iter_inv KEY_START KEY_OFFSET lo iter -> (1 < used iter)%nat ->
  bch_extent_sort_fixup_body iter = Ok (Continue iter') ->
  forall a, within (store iter' !!! a) (store iter !!! a).
Proof.
  intros Hinv Hused. destruct iter as [m d]. unfold used in *.
  cbn [store data] in *.
  pose proof Hinv as [Hc Hap Hh]. cbn [store data] in *.
  pose proof (inv_heads_ok _ _ _ _ Hinv) as Hok. cbn [store data] in Hok.
  assert (fixup_second (bch_extent_sort_cmp m) d
          = fixup_second (cmp_by KEY_START m) d) as Hsec.
  { apply fixup_second_ext. intros a b Ha Hb. rewrite Forall_forall in Hok.
    apply bch_extent_sort_cmp_ok; by apply Hok. }
  destruct (fixup_second_spec (cmp_by KEY_START m) d Hused) as (Hi & Hchild & Hpos).
  unfold bch_extent_sort_fixup_body. cbn [store data]. rewrite Hsec.
  set (i := fixup_second (cmp_by KEY_START m) d) in *.
  set (top := d !!! 0%nat). set (si := d !!! i).
  assert (cursor_ok KEY_START KEY_OFFSET lo m top) as Htop
    by (apply Forall_lookup_total_1; [done|lia]).
  assert (cursor_ok KEY_START KEY_OFFSET lo m si) as Hsi
    by by apply Forall_lookup_total_1.
  destruct (cursor_ok_head _ _ _ _ _ Htop) as [Hkt Hlot].
  destruct (cursor_ok_head _ _ _ _ _ Hsi) as [Hki Hloi].
  pose proof (key_ok_start _ Hkt) as Hst. pose proof (key_ok_start _ Hki) as Hsti.
  pose proof Hkt as (Hszt & Hsot & Hofft). pose proof Hki as (Hszi & Hsoi & Hoffi).
  assert (cmp_by KEY_START m top si = false) as Hle
    by (apply heap_root_min; [apply cmp_by_asym|apply cmp_by_trans|done|done]).
  apply cmp_by_false in Hle.
  assert (iter_k top < length m)%nat as Hrt by (destruct Htop; lia).
  assert (iter_k si < length m)%nat as Hrs by (destruct Hsi; lia).
  assert (bkey_cmp (key_at m top) (START_KEY (key_at m si))
          = KEY_OFFSET (key_at m top) - KEY_START (key_at m si)) as ->.
  { rewrite bkey_cmp_ok, KEY_OFFSET_START_KEY; [done|lia|by apply START_KEY_range]. }
  destruct (Z.leb_spec (KEY_OFFSET (key_at m top) - KEY_START (key_at m si)) 0)
    as [Hbrk|Hover]; [done|].
  destruct (Z.eqb_spec (KEY_SIZE (key_at m si)) 0) as [Hz|Hnz].
  { intros [= <-] a. apply within_refl. }
  destruct (Nat.ltb_spec (iter_k si) (iter_k top)) as [Hnewer|Holder].
  - assert (bkey_cmp (key_at m top) (key_at m si)
            = KEY_OFFSET (key_at m top) - KEY_OFFSET (key_at m si)) as ->
      by (apply bkey_cmp_ok; lia).
    destruct (Z.geb_spec (KEY_OFFSET (key_at m top) - KEY_OFFSET (key_at m si)) 0)
      as [Hcov|Hpart].
    { intros [= <-] a. apply within_refl. }
    destruct (bch_cut_front_ok (key_at m top) (key_at m si) Hki)
      as (ki' & -> & Ho' & Hs' & Hst' & Hki'); [lia|].
    cbn [mbind result_bind]. intros [= <-]. cbn [store].
    apply within_insert; [done|]. fold (key_at m si). unfold within. lia.
  - assert (bkey_cmp (START_KEY (key_at m top)) (START_KEY (key_at m si))
            = KEY_START (key_at m top) - KEY_START (key_at m si)) as ->.
    { rewrite bkey_cmp_ok, !KEY_OFFSET_START_KEY;
        [done|by apply START_KEY_range..]. }
    destruct (Z.eqb_spec (KEY_START (key_at m top) - KEY_START (key_at m si)) 0)
      as [?|Hne]; [done|].
    cbn [BUG_ON mbind result_bind].
    destruct (bch_cut_back_inside (START_KEY (key_at m si)) (key_at m top) Hkt)
      as (kt' & -> & Ho' & Hs' & _).
    { rewrite KEY_OFFSET_START_KEY. lia. }
    rewrite KEY_OFFSET_START_KEY in Ho', Hs'.
    cbn [mbind result_bind]. intros [= <-]. cbn [store].
    assert (key_ok kt') as Hkt'.
    { split; [|split]; unfold USHRT_MAX in *; lia. }
    pose proof (key_ok_start _ Hkt') as Hst'.
    apply within_insert; [done|]. fold (key_at m top). unfold within. lia.
Qed.

Lemma bch_extent_sort_fixup_within lo fuel iter iter' :
  iter_inv KEY_START KEY_OFFSET lo iter ->
  bch_extent_sort_fixup fuel iter = Ok iter' ->
  forall a, within (store iter' !!! a) (store iter !!! a).
Proof.
  revert iter. induction fuel as [|fuel IH]; intros iter Hinv; [done|].
  cbn [bch_extent_sort_fixup].
  destruct (Nat.ltb_spec 1 (used iter)) as [Hused|Hused].
  2:{ intros [= <-] a. apply within_refl. }
  pose proof (bch_extent_sort_fixup_body_within lo iter) as Hw.
  destruct (bch_extent_sort_fixup_body_spec lo iter Hinv Hused)
    as [[E _]|(it1 & s & E & Hinv1 & _)]; rewrite E in *;
    cbn [mbind result_bind].
  - intros [= <-] a. apply within_refl.
  - intros E' a. eapply within_trans; [by eapply (IH it1)|].
    by apply (Hw it1 Hinv Hused).
Qed.

(** The merge of extents, for a [Q] that whole runs of the fixup keep. *)
Lemma extent_mergesort_run_via (Q : btree_iter -> list (nat * bkey) -> Prop)
    runs fuel :
  wf_runs runs -> (runs_weight runs < fuel)%nat ->
  (forall lo fuel' iter iter' out,
     iter_inv KEY_START KEY_OFFSET lo iter -> Q iter out ->
     bch_extent_sort_fixup fuel' iter = Ok iter' ->
     length (store iter') = length (store iter) ->
     Q iter' out) ->
  (forall lo iter out iter2,
     iter_inv KEY_START KEY_OFFSET lo iter -> Q iter out ->
     (0 < used iter)%nat -> store iter2 = store iter ->
     data iter2 ≡ₚ advanced (data iter !!! 0%nat) (delete 0%nat (data iter)) ->
     Q iter2 (out ++ [(iter_k (data iter !!! 0%nat),
                       key_at (store iter) (data iter !!! 0%nat))])) ->
  Q (bch_btree_iter_init bch_extent_sort_cmp runs) [] ->
  exists out iter',
    extent_mergesort fuel runs = Ok out
    /\ extent_chain 0 out.*2
    /\ used iter' = 0%nat /\ Q iter' out.
Proof.
  intros Hwf Hfuel Hfix Hemit Hinit.
  destruct (bch_btree_iter_init_spec KEY_START KEY_OFFSET
              bch_extent_sort_cmp bch_extent_sort_cmp_ok runs Hwf)
    as (Hinv & _ & _ & Hw).
  unfold extent_mergesort, btree_mergesort.
  apply (btree_mergesort_loop_spec KEY_START KEY_OFFSET KEY_OFFSET
           ord_nxt_extent (fun k _ => Z.le_refl (KEY_OFFSET k))
           bch_extent_sort_cmp bch_extent_sort_cmp_ok
           bch_extent_sort_fixup Q) with (lo := 0); try done.
  - intros lo fuel' iter out Hi Hq Hlt.
    destruct (bch_extent_sort_fixup_spec
                (fun it => length (store it) = length (store iter)) lo fuel' iter)
      as (iter' & E & Hinv' & Hlen & Hrest); try done.
    { intros it it' s _ Hl (_ & Hlen & _). congruence. }
    exists iter'. split; [done|]. split; [done|]. split; [|done].
    by apply (Hfix lo fuel' iter).
  - intros lo iter out Hi Hq Hu _ iter2. by apply (Hemit lo).
  - lia.
Qed.

(** X18: Whatever the merge of well-formed runs of extents emits is a key of
    the input, as it was or trimmed: the emitted key comes from an address
    of the store, and its range lies inside the range the key at that
    address had.  The merge makes up no data. *)
Theorem extent_mergesort_within runs fuel :
  wf_runs runs -> (runs_weight runs < fuel)%nat ->
  exists out,
    extent_mergesort fuel runs = Ok out
    /\ forall a k, (a, k) ∈ out ->
         exists k0, concat runs !! a = Some k0 /\ within k k0.
Proof.
  intros Hwf Hfuel. set (m0 := concat runs).
  destruct (bch_btree_iter_init_spec KEY_START KEY_OFFSET
              bch_extent_sort_cmp bch_extent_sort_cmp_ok runs Hwf)
    as (_ & Hst & _).
  destruct (extent_mergesort_run_via
              (fun it out =>
                 (forall a, within (store it !!! a) (m0 !!! a))
                 /\ length (store it) = length m0
                 /\ forall a k, (a, k) ∈ out ->
                      (a < length m0)%nat /\ within k (m0 !!! a))
              runs fuel Hwf Hfuel)
    as (out & iter' & E & _ & _ & _ & _ & Hout).
  - intros lo fuel' iter iter' out Hinv (Hs & Hl & Ho) E Hlen.
    split; [|split; [congruence|done]].
    intros a. eapply within_trans; [|apply Hs].
    by eapply bch_extent_sort_fixup_within.
  - intros lo iter out iter2 Hinv (Hs & Hl & Ho) Hu Hst2 Hd.
    split; [intros a; rewrite Hst2; apply Hs|]. split; [congruence|].
    intros a k [Hin|Hin%list_elem_of_singleton]%elem_of_app; [by apply Ho|].
    injection Hin as -> ->.
    assert (cursor_ok KEY_START KEY_OFFSET lo (store iter) (data iter !!! 0%nat))
      as [Hr _] by by apply inv_cursor_at.
    split; [lia|apply Hs].
  - split; [intros a; rewrite Hst; apply within_refl|].
    split; [by rewrite Hst|]. intros a k Hin. by apply elem_of_nil in Hin.
  - exists out. split; [done|]. intros a k Hin.
    destruct (Hout a k Hin) as [Ha Hw]. exists (m0 !!! a).
    split; [by apply list_lookup_lookup_total_lt|done].
Qed.

Lemma extent_mergesort_within_witness :
  exists out,
    extent_mergesort 300 [[extent 80 10]; [extent 100 100]; [extent 60 10]]
    = Ok out
    /\ forall a k, (a, k) ∈ out ->
         exists k0,
           concat [[extent 80 10]; [extent 100 100]; [extent 60 10]] !! a
           = Some k0 /\ within k k0.
Proof.
  apply extent_mergesort_within.
  - repeat (apply Forall_cons_2 || apply Forall_nil_2).
    all: vm_compute; repeat split; discriminate.
  - vm_compute. lia.
Defined.

(** ** The fixups for plain keys and btree pointers *)









(** *** What the rounds and the emissions keep *)

Lemma iter_sets_cover base runs a :
  (base <= a < base + length (concat runs))%nat ->
  exists s, s ∈ iter_sets base runs /\ (iter_k s <= a < iter_end s)%nat.
Proof.
  revert base. induction runs as [|r runs IH]; intros base Ha; cbn in *; [lia|].
  rewrite length_app in Ha.
  destruct (decide (a < base + length r)%nat) as [Hlt|Hge].
  - destruct (Nat.eqb_spec (length r) 0); [lia|].
    eexists. split; [apply list_elem_of_here|]. cbn. lia.
  - destruct (IH (base + length r)%nat) as (s & Hs & Hr); [lia|].
    exists s. split; [|done].
    destruct (length r =? 0)%nat; [done|by apply list_elem_of_further].
Qed.





Lemma keys_kept_emit P m0 iter out iter2 :
  keys_kept P m0 iter out ->
  (0 < used iter)%nat -> store iter2 = store iter ->
  data iter2 ≡ₚ advanced (data iter !!! 0%nat) (delete 0%nat (data iter)) ->
  keys_kept P m0 iter2
    (out ++ [(iter_k (data iter !!! 0%nat),
              key_at (store iter) (data iter !!! 0%nat))]).
Proof.
  intros [Hst Hq] Hu Hst2 Hp2. unfold used in Hu.
  set (top := data iter !!! 0%nat) in *.
  pose proof (lookup_total_perm_head (data iter) 0 Hu) as Hperm. fold top in Hperm.
  split; [congruence|]. intros a k Hk Hz.
  destruct (Hq a k Hk Hz) as [?|(s' & Hs' & Hr)].
  { left. apply elem_of_app. by left. }
  rewrite Hperm in Hs'. apply elem_of_cons in Hs' as [->|Hs'].
  - destruct (decide (a = iter_k top)) as [->|Hne].
    + left. apply elem_of_app. right. apply list_elem_of_singleton.
      f_equal. unfold key_at. rewrite Hst.
      by rewrite (list_lookup_total_correct _ _ _ Hk).
    + right. exists (cursor_next top). split.
      * rewrite Hp2. apply elem_of_advanced. right. split; [done|lia].
      * cbn [cursor_next iter_k iter_end]. unfold bkey_next. lia.
  - right. exists s'. split; [|done]. rewrite Hp2.
    apply elem_of_advanced. by left.
Qed.

Lemma keys_kept_init P runs iter :
  store iter = concat runs -> data iter ≡ₚ iter_sets 0 runs ->
  keys_kept P (concat runs) iter [].
Proof.
  intros Hst Hp. split; [done|]. intros a k Hk _. right.
  destruct (iter_sets_cover 0 runs a) as (s & Hs & Hr).
  { apply lookup_lt_Some in Hk. lia. }
  exists s. split; [by rewrite Hp|done].
Qed.

(** *** Order of what comes out *)




(** The emitted entries are keys of the input, at their addresses. *)
Lemma emitted_from_store_emit m0 lo ord nxt iter out :
  iter_inv ord nxt lo iter -> store iter = m0 ->
  (forall a k, (a, k) ∈ out -> m0 !! a = Some k) ->
  (0 < used iter)%nat ->
  forall a k,
    (a, k) ∈ out ++ [(iter_k (data iter !!! 0%nat),
                      key_at (store iter) (data iter !!! 0%nat))] ->
    m0 !! a = Some k.
Proof.
  intros Hinv Hst Ho Hu a k [Hin|Hin%list_elem_of_singleton]%elem_of_app;
    [by apply Ho|].
  injection Hin as -> ->.
  assert (cursor_ok ord nxt lo (store iter) (data iter !!! 0%nat))
    as [Hr _] by by apply inv_cursor_at.
  unfold key_at. rewrite Hst in *. apply list_lookup_lookup_total_lt. lia.
Qed.

(** ** Claims about the merge of plain keys *)





(** ** More on the merge of btree pointers *)







(** ** Duplicate btree pointers *)



(** ** Runs that do not overlap *)

(** Where no two extents of the store overlap and none is empty, a round
    of the extent fixup has nothing to do. *)
Lemma bch_extent_sort_fixup_body_disjoint lo iter :
  iter_inv KEY_START KEY_OFFSET lo iter -> (1 < used iter)%nat ->
  Forall (fun k => KEY_SIZE k <> 0) (store iter) ->
  pairwise_disjoint (store iter) ->
  bch_extent_sort_fixup_body iter = Ok Break.
Proof.
  intros Hinv Hused Hnz Hdis. destruct iter as [m d]. unfold used in *.
  cbn [store data] in *.
  pose proof Hinv as [Hc Hap Hh]. cbn [store data] in *.
  pose proof (inv_heads_ok _ _ _ _ Hinv) as Hok. cbn [store data] in Hok.
  assert (fixup_second (bch_extent_sort_cmp m) d
          = fixup_second (cmp_by KEY_START m) d) as Hsec.
  { apply fixup_second_ext. intros a b Ha Hb. rewrite Forall_forall in Hok.
    apply bch_extent_sort_cmp_ok; by apply Hok. }
  destruct (fixup_second_spec (cmp_by KEY_START m) d Hused) as (Hi & Hchild & Hpos).
  unfold bch_extent_sort_fixup_body. cbn [store data]. rewrite Hsec.
  set (i := fixup_second (cmp_by KEY_START m) d) in *.
  set (top := d !!! 0%nat). set (si := d !!! i).
  assert (cursor_ok KEY_START KEY_OFFSET lo m top) as Htop
    by (apply Forall_lookup_total_1; [done|lia]).
  assert (cursor_ok KEY_START KEY_OFFSET lo m si) as Hsi
    by by apply Forall_lookup_total_1.
  destruct (cursor_ok_head _ _ _ _ _ Htop) as [Hkt Hlot].
  destruct (cursor_ok_head _ _ _ _ _ Hsi) as [Hki Hloi].
  pose proof (key_ok_start _ Hkt) as Hst. pose proof (key_ok_start _ Hki) as Hsti.
  pose proof Hkt as (Hszt & Hsot & Hofft). pose proof Hki as (Hszi & Hsoi & Hoffi).
  assert (cmp_by KEY_START m top si = false) as Hle
    by (apply heap_root_min; [apply cmp_by_asym|apply cmp_by_trans|done|done]).
  apply cmp_by_false in Hle.
  assert ((iter_end top <= iter_k si)%nat \/ (iter_end si <= iter_k top)%nat)
    as Hapart by (apply cursors_apart_lookup; [done|lia|lia|done]).
  assert (iter_k top < iter_end top <= length m)%nat as Hrt by apply Htop.
  assert (iter_k si < iter_end si <= length m)%nat as Hrs by apply Hsi.
  assert (bkey_cmp (key_at m top) (START_KEY (key_at m si))
          = KEY_OFFSET (key_at m top) - KEY_START (key_at m si)) as ->.
  { rewrite bkey_cmp_ok, KEY_OFFSET_START_KEY; [done|lia|by apply START_KEY_range]. }
  destruct (Z.leb_spec (KEY_OFFSET (key_at m top) - KEY_START (key_at m si)) 0)
    as [Hbrk|Hover]; [done|]. exfalso.
  assert (KEY_SIZE (key_at m si) <> 0) as Hsz.
  { rewrite Forall_forall in Hnz. apply Hnz.
    apply list_elem_of_lookup_total_2. lia. }
  apply (Hdis (iter_k top) (iter_k si) (key_at m top) (key_at m si)
           (KEY_START (key_at m si))).
  - lia.
  - apply list_lookup_lookup_total_lt. lia.
  - apply list_lookup_lookup_total_lt. lia.
  - unfold covers. lia.
Qed.

Lemma bch_extent_sort_fixup_disjoint lo fuel iter iter' :
  iter_inv KEY_START KEY_OFFSET lo iter ->
  Forall (fun k => KEY_SIZE k <> 0) (store iter) ->
  pairwise_disjoint (store iter) ->
  bch_extent_sort_fixup fuel iter = Ok iter' -> iter' = iter.
Proof.
  intros Hinv Hnz Hdis. destruct fuel as [|fuel]; [done|].
  cbn [bch_extent_sort_fixup].
  destruct (Nat.ltb_spec 1 (used iter)) as [Hused|Hused]; [|by intros [= <-]].
  rewrite (bch_extent_sort_fixup_body_disjoint lo iter) by done.
  cbn [mbind result_bind]. by intros [= <-].
Qed.

(** X25: Where no two extents of the input overlap and none is empty, the merge
    of well-formed runs is a plain merge: every key is emitted as it is,
    from its own address, nothing else is emitted, and what comes out is
    in order. *)
Theorem extent_mergesort_disjoint_runs runs fuel :
  wf_runs runs -> (runs_weight runs < fuel)%nat ->
  Forall (fun k => KEY_SIZE k <> 0) (concat runs) ->
  pairwise_disjoint (concat runs) ->
  exists out,
    extent_mergesort fuel runs = Ok out
    /\ extent_chain 0 out.*2
    /\ forall a k, (a, k) ∈ out <-> concat runs !! a = Some k.
Proof.
  intros Hwf Hfuel Hnz Hdis. set (m0 := concat runs) in *.
  destruct (bch_btree_iter_init_spec KEY_START KEY_OFFSET
              bch_extent_sort_cmp bch_extent_sort_cmp_ok runs Hwf)
    as (_ & Hst & Hp & _).
  destruct (extent_mergesort_run_via
              (fun it out => keys_kept any_key m0 it out
                 /\ forall a k, (a, k) ∈ out -> m0 !! a = Some k)
              runs fuel Hwf Hfuel)
    as (out & iter' & E & Hch & Hused & [_ Hq] & Hout).
  - intros lo fuel' iter iter' out Hinv [[Hs Hk] Ho] E _.
    assert (iter' = iter) as ->; [|done].
    eapply bch_extent_sort_fixup_disjoint; [done| | |done]; by rewrite Hs.
  - intros lo iter out iter2 Hinv [Hk Ho] Hu Hs2 Hd.
    split; [by apply keys_kept_emit|].
    destruct Hk as [Hs _]. by eapply emitted_from_store_emit.
  - split; [by apply keys_kept_init|]. intros a k Hin. by apply elem_of_nil in Hin.
  - exists out. split; [done|]. split; [done|]. intros a k.
    split; [apply Hout|]. intros Hk.
    destruct (Hq a k Hk I) as [?|(s & Hs & _)]; [done|].
    unfold used in Hused. apply nil_length_inv in Hused.
    rewrite Hused in Hs. by apply elem_of_nil in Hs.
Qed.

Lemma extent_mergesort_disjoint_runs_witness :
  exists out,
    extent_mergesort 300 [[extent 80 10; extent 200 50]; [extent 100 20]]
    = Ok out
    /\ (2%nat, extent 100 20) ∈ out.
Proof.
  set (runs := [[extent 80 10; extent 200 50]; [extent 100 20]]).
  assert (wf_runs runs) as Hwf.
  { repeat (apply Forall_cons_2 || apply Forall_nil_2).
    all: vm_compute; repeat split; discriminate. }
  assert (runs_weight runs < 300)%nat as Hfuel by (vm_compute; lia).
  assert (Forall (fun k => KEY_SIZE k <> 0) (concat runs)) as Hnz.
  { repeat (apply Forall_cons_2 || apply Forall_nil_2); vm_compute; discriminate. }
  assert (pairwise_disjoint (concat runs)) as Hdis.
  { assert (forall o s, 0 <= s <= o -> o < 2 ^ 64 ->
              KEY_START (extent o s) = o - s) as Hs
      by (intros o s ? ?; apply u64_small; simpl; lia).
    intros [|[|[|i]]] [|[|[|j]]] a b x Hne Ha Hb; try done;
      injection Ha as <-; injection Hb as <-; unfold covers;
      rewrite !Hs by lia; simpl; lia. }
  pose proof (extent_mergesort_disjoint_runs runs 300 Hwf Hfuel Hnz Hdis)
    as (out & E & _ & H).
  exists out. split; [exact E|]. apply H. reflexivity.
Defined.

